(** * AITimeline: conversation discovery, turn identity and the annotation store

    A shallow embedding of the identity and storage layer of the AITimeline
    browser extension, with the properties its design document states about it.

    Conventions of the embedding.
    - A JavaScript string is a [string]; an integer-valued JavaScript number
      (array index, millisecond timestamp, counter) is a [Z].
    - [null] and [undefined] are [None] where the code treats them alike
      (truthiness tests, [??]), and separate constructors where it does not.
    - A plain object used as a dictionary is a [gmap string _]; an array is a
      [list].
    - An [async] function that reads and writes [chrome.storage.local] is a
      state transformer over the storage area, and a sequence of awaited
      calls is the composition of their transformers.  The callbacks of the
      storage API always fire; a failing storage call, which the wrappers of
      [StorageAdapter] swallow, is not part of the model.
    - [Date.now()] is an explicit argument [now].
    - A property read with a computed name, [o[name]], goes through
      [Object.prototype] as it does in the code: [JS.inherited] tells the
      names found there.  The functions found there, and [Object.prototype]
      itself, are taken as the page loads them; the properties that a call
      with such a name as its conversation key puts on them are not followed
      from one call to the next.
    - What [set] stores is what JSON carries of the value: a property whose
      value is a function is left out. *)

From stdpp Require Import gmap strings list fin_maps pretty sorting.
From Stdlib Require Import ZArith Ascii.
From Equations Require Import Equations.

Local Open Scope Z_scope.

(** ** JavaScript truthiness *)

Module JS.

(** [!s] is true exactly for the empty string. *)
Definition truthyStr (s : string) : bool :=
  match s with
  | EmptyString => false
  | String _ _ => true
  end.

(** A number is falsy when it is [0]. *)
Definition truthyNum (z : Z) : bool := negb (z =? 0).

(** [null], [undefined] and [0] are falsy. *)
Definition truthyOptNum (o : option Z) : bool :=
  match o with
  | None => false
  | Some z => truthyNum z
  end.

(** The names of the properties that every plain object inherits from
    [Object.prototype].  A read [o[name]] with one of them finds a function
    ([Object.prototype] itself for [__proto__]) when [o] has no property of
    its own under the name: a value that is truthy and not [undefined]. *)
Definition ObjectPrototype : list string :=
  ["constructor"; "__defineGetter__"; "__defineSetter__"; "hasOwnProperty";
   "__lookupGetter__"; "__lookupSetter__"; "isPrototypeOf";
   "propertyIsEnumerable"; "toString"; "valueOf"; "__proto__";
   "toLocaleString"]%string.

Definition inherited (name : string) : bool := bool_decide (name ∈ ObjectPrototype).

(** [o[name] = v] on a plain object: the name [__proto__] reaches the
    setter of [Object.prototype], which stores nothing, unless [o] has a
    property of its own under that name. *)
Definition put {A} (name : string) (v : A) (o : gmap string A) : gmap string A :=
  match o !! name with
  | Some _ => <[name := v]> o
  | None => if bool_decide (name = "__proto__"%string) then o else <[name := v]> o
  end.

Lemma truthyStr_true s : truthyStr s = true ↔ s ≠ EmptyString.
Proof. destruct s; simpl; split; intros; congruence. Qed.

Lemma truthyNum_true z : truthyNum z = true ↔ z ≠ 0.
Proof. unfold truthyNum. destruct (Z.eqb_spec z 0); simpl; split; intros; congruence. Qed.

End JS.

(** ** StorageAdapter: one key of [chrome.storage.local]

    [StorageAdapter.get(key)] resolves to the stored value or [undefined];
    [StorageAdapter.set(key, value)] replaces it.  [setCalls] counts the
    calls of [set], so that "no write is performed" can be stated. *)

Module StorageAdapter.

Record area (V : Type) := Area { stored : option V; setCalls : nat }.
Arguments Area {V} _ _.
Arguments stored {V} _.
Arguments setCalls {V} _.

Definition async (V A : Type) : Type := area V → A * area V.

Definition ret {V A} (a : A) : async V A := λ st, (a, st).

Definition bind {V A B} (m : async V A) (k : A → async V B) : async V B :=
  λ st, let '(a, st') := m st in k a st'.

Definition get {V} : async V (option V) := λ st, (stored st, st).

Definition set {V} (v : V) : async V unit :=
  λ st, (tt, Area (Some v) (S (setCalls st))).

Definition result {V A} (m : async V A) (st : area V) : A := fst (m st).
Definition after {V A} (m : async V A) (st : area V) : area V := snd (m st).

End StorageAdapter.

Notation "'let!' x ':=' m 'in' k" :=
  (StorageAdapter.bind m (λ x, k))
  (at level 10, x pattern, m at level 100, k at level 200).
Notation "m ';;;' k" :=
  (StorageAdapter.bind m (λ _, k))
  (at level 100, k at level 200, right associativity).

(** ** Turns and the keys they are stored under *)

Module Turn.

(** A turn is stored under its node id (a string) or, in older data, under
    its index (a number). *)
Inductive NodeKey :=
| KNum (n : Z)
| KStr (s : string).

(** The conversion a template literal applies to a key: the decimal digits
    of a number, a string as it is. *)
Definition toString (k : NodeKey) : string :=
  match k with
  | KNum n => pretty n
  | KStr s => s
  end.

(** A marker of the timeline: the id of its turn and its element. *)
Record Marker := Mark { id : string; element : nat }.

End Turn.

(** ** ChatTimeStorageManager *)

Module ChatTimeStorageManager.
Import StorageAdapter.

(** [{ createTime, lastVisit, nodes: { nodeId: timestamp } }].  [createTime]
    and [lastVisit] are [null] or a number; [nodes] may be missing. *)
Record ConversationTimeRecord := Rec {
  createTime : option Z;
  lastVisit : option Z;
  nodes : option (gmap string Z)
}.

Definition withLastVisit (t : Z) (r : ConversationTimeRecord) :=
  Rec (createTime r) (Some t) (nodes r).
Definition withCreateTime (t : Z) (r : ConversationTimeRecord) :=
  Rec (Some t) (lastVisit r) (nodes r).
Definition withNodes (n : gmap string Z) (r : ConversationTimeRecord) :=
  Rec (createTime r) (lastVisit r) (Some n).

Abbreviation records := (gmap string ConversationTimeRecord).
Abbreviation storage := (area records).
Abbreviation op := (async records).

(** [getAllRecords]: the stored object, or [{}]. *)
Definition getAllRecords : op records :=
  let! data := get in
  ret (match data with Some all => all | None => ∅ end).

(** [getByConversation]: [all[conversationKey] || { createTime: null,
    lastVisit: null, nodes: {} }].  For a key that names an inherited
    property and has no record, the read finds the inherited function, which
    has none of the three fields. *)
Definition getByConversation (conversationKey : string)
  : op ConversationTimeRecord :=
  if negb (JS.truthyStr conversationKey) then ret (Rec None None (Some ∅))
  else
    let! all := getAllRecords in
    ret (match all !! conversationKey with
         | Some r => r
         | None =>
             if JS.inherited conversationKey then Rec None None None
             else Rec None None (Some ∅)
         end).

(** [updateLastVisit].  The test [!all[conversationKey]] is a property
    read: for a key that names an inherited property and has no record it
    finds the inherited function, so that [lastVisit] is put on that function
    and the records are written back as they are. *)
Definition updateLastVisit (now : Z) (conversationKey : string) : op bool :=
  if negb (JS.truthyStr conversationKey) then ret false
  else
    let! all := getAllRecords in
    match all !! conversationKey with
    | Some r =>
        set (<[conversationKey := withLastVisit now r]> all) ;;;
        ret true
    | None =>
        if JS.inherited conversationKey then set all ;;; ret true
        else ret false
    end.

(** [setCreateTime].  For a key that names an inherited property and has
    no record, [createTime] is put on the inherited function and the records
    are written back as they are. *)
Definition setCreateTime (conversationKey : string) (timestamp : Z) : op bool :=
  if negb (JS.truthyStr conversationKey) then ret false
  else
    let! all := getAllRecords in
    match all !! conversationKey with
    | None =>
        if JS.inherited conversationKey then set all ;;; ret true
        else
          set (<[conversationKey := Rec (Some timestamp) (Some timestamp) (Some ∅)]> all) ;;;
          ret true
    | Some r =>
        if JS.truthyOptNum (createTime r) then ret false
        else
          set (<[conversationKey := withCreateTime timestamp r]> all) ;;;
          ret true
    end.

(** The test [/^[a-z]+-\d+$/i.test(nodeId)]: one or more ASCII letters of
    either case, a dash, one or more ASCII digits, and nothing else. *)
Definition isLetter (c : ascii) : bool :=
  let n := nat_of_ascii c in
  ((65 <=? n) && (n <=? 90) || (97 <=? n) && (n <=? 122))%nat.

Definition isDigit (c : ascii) : bool :=
  let n := nat_of_ascii c in ((48 <=? n) && (n <=? 57))%nat.

(** [\d+$] *)
Fixpoint matchDigits (s : string) : bool :=
  match s with
  | EmptyString => false
  | String c EmptyString => isDigit c
  | String c s' => isDigit c && matchDigits s'
  end.

(** [[a-z]*-\d+$], where [seen] records that a letter was consumed. *)
Fixpoint matchLetters (seen : bool) (s : string) : bool :=
  match s with
  | EmptyString => false
  | String c s' =>
      if isLetter c then matchLetters true s'
      else if Ascii.eqb c "-"%char then seen && matchDigits s'
      else false
  end.

Definition isTempId (nodeId : string) : bool := matchLetters false nodeId.

(** Every character of [s] satisfies [p]. *)
Fixpoint allChars (p : ascii → bool) (s : string) : bool :=
  match s with
  | EmptyString => true
  | String c s' => p c && allChars p s'
  end.

(** The language of [/^[a-z]+-\d+$/i]: letters, a dash, digits, with at
    least one letter and one digit. *)
Definition TempIdPattern (s : string) : Prop :=
  ∃ letters digits,
    s = letters +:+ String "-" digits
    ∧ letters ≠ EmptyString ∧ allChars isLetter letters = true
    ∧ digits ≠ EmptyString ∧ allChars isDigit digits = true.

(** [Object.keys(o)] *)
Definition Object_keys {A} (o : gmap string A) : list string :=
  (map_to_list o).*1.

(** [cleanupTempIds]; the loop deletes from the [nodes] object held by
    [all], so the object that is written back carries the deletions.  The
    loop runs over [Object.keys(nodes)], the entries of the object's own; an
    inherited function found under the conversation key has no [nodes]. *)
Definition cleanupTempIds (conversationKey : string) : op Z :=
  if negb (JS.truthyStr conversationKey) then ret 0
  else
    let! all := getAllRecords in
    match all !! conversationKey with
    | None => ret 0
    | Some r =>
        match nodes r with
        | None => ret 0
        | Some ns =>
            let '(ns', cleanedCount) :=
              foldl (λ '(cur, cnt) nodeId,
                       if isTempId nodeId then (delete nodeId cur, cnt + 1)
                       else (cur, cnt))
                    (ns, 0) (Object_keys ns) in
            if 0 <? cleanedCount then
              set (<[conversationKey := withNodes ns' r]> all) ;;;
              ret cleanedCount
            else ret cleanedCount
        end
    end.

(** [migrateNodeId].  The test [nodes[tempId] !== undefined] is a property
    read.  When [tempId] has no entry and names an inherited property, the
    value that is moved is the inherited function: [delete nodes[tempId]]
    finds nothing to delete, [nodes[realId]] becomes the function, and the
    write leaves that property out, so that an entry under [realId] is lost.
    (For [tempId = "__proto__"] the value moved is [Object.prototype], which
    is stored as an empty object under [realId]; it is no time, and the
    model, whose entries are numbers, leaves [realId] without an entry there
    too.)  An inherited function found under the conversation key has no
    [nodes]. *)
Definition migrateNodeId (conversationKey tempId realId : string) : op bool :=
  if negb (JS.truthyStr conversationKey) || negb (JS.truthyStr tempId)
     || negb (JS.truthyStr realId) then ret false
  else
    let! all := getAllRecords in
    match all !! conversationKey with
    | None => ret false
    | Some r =>
        match nodes r with
        | None => ret false
        | Some ns =>
            match ns !! tempId with
            | Some timestamp =>
                set (<[conversationKey :=
                         withNodes (JS.put realId timestamp (delete tempId ns)) r]> all) ;;;
                ret true
            | None =>
                if JS.inherited tempId then
                  set (<[conversationKey := withNodes (delete realId ns) r]> all) ;;;
                  ret true
                else ret false
            end
        end
    end.

(** The test of [cleanup]: [!data.lastVisit || (now - data.lastVisit > maxAge)]. *)
Definition inactive (now maxAge : Z) (data : ConversationTimeRecord) : bool :=
  negb (JS.truthyOptNum (lastVisit data))
  || match lastVisit data with
     | Some v => maxAge <? now - v
     | None => false
     end.

(** [cleanup(maxInactiveDays)] *)
Definition cleanup (now maxInactiveDays : Z) : op Z :=
  let! all := getAllRecords in
  let maxAge := maxInactiveDays * 24 * 60 * 60 * 1000 in
  let '(all', cleanedCount) :=
    foldl (λ '(cur, cnt) '(convKey, data),
             if inactive now maxAge data then (delete convKey cur, cnt + 1)
             else (cur, cnt))
          (all, 0) (map_to_list all) in
  if 0 <? cleanedCount then set all' ;;; ret cleanedCount
  else ret cleanedCount.

(** The statement at the end of the script, run at every load:
    [ChatTimeStorageManager.cleanup(30)]. *)
Definition onLoad (now : Z) : op Z := cleanup now 30.

(** The records a storage area holds, as every operation reads them. *)
Definition allOf (st : storage) : records := result getAllRecords st.

(** The timestamp recorded for a turn of a conversation. *)
Definition nodeTime (st : storage) (k id : string) : option Z :=
  match allOf st !! k with
  | Some r => match nodes r with Some ns => ns !! id | None => None end
  | None => None
  end.

(** One step of the loops of [cleanupTempIds] and [cleanup]: delete the
    entry if [P] selects it, and count it. *)
Definition sweep {A} (P : string → A → bool)
    (acc : gmap string A * Z) (kv : string * A) : gmap string A * Z :=
  if P kv.1 kv.2 then (delete kv.1 acc.1, acc.2 + 1) else acc.

(** A sequence of [setCreateTime] calls. *)
Definition setCreateTimes (calls : list (string * Z)) (st : storage) : storage :=
  foldl (λ s c, after (setCreateTime c.1 c.2) s) st calls.

End ChatTimeStorageManager.


(** ** ChatTimeStorageManager: recording the times of turns *)

Module NodeTimes.
Import StorageAdapter ChatTimeStorageManager.

(** An element of the array [batchSetNodeTimes] takes: [{ nodeId, timestamp }];
    either field may be missing. *)
Record NodeTime := NodeTime_ { nodeId : option string; timestamp : option Z }.

(** [timestamp || now] *)
Definition orNow (now : Z) (timestamp : option Z) : Z :=
  match timestamp with
  | Some t => if JS.truthyNum t then t else now
  | None => now
  end.

(** The loop of [batchSetNodeTimes] over [nodes]: an element is recorded when
    it has a node id and [nodes[nodeId] === undefined], a property read, so
    that an id that has an entry or is one of the [known] inherited names is
    passed over. *)
Definition addNodeTimes (known : list string) (now : Z) (ns : gmap string Z)
    (newNodes : list NodeTime) : gmap string Z * Z :=
  foldl (λ '(cur, cnt) n,
           match nodeId n with
           | Some id =>
               match cur !! id with
               | None =>
                   if bool_decide (id ∈ known) then (cur, cnt)
                   else (<[id := orNow now (timestamp n)]> cur, cnt + 1)
               | Some _ => (cur, cnt)
               end
           | None => (cur, cnt)
           end)
        (ns, 0) newNodes.

(** [batchSetNodeTimes]; a conversation without a record gets
    [{ createTime: null, lastVisit: now, nodes: {} }] first.  For a key
    that names an inherited property and has no record, the test
    [!all[conversationKey]] finds the inherited function: the [nodes]
    object is made on that function, the times go there, and the records are
    written back as they are, without one for the key.  When the key is
    [__proto__] that object is put on [Object.prototype] itself, which adds
    [nodes] to the inherited names. *)
Definition batchSetNodeTimes (now : Z) (conversationKey : string)
    (newNodes : list NodeTime) : op Z :=
  if negb (JS.truthyStr conversationKey) || bool_decide (newNodes = []) then ret 0
  else
    let! all := getAllRecords in
    match all !! conversationKey with
    | None =>
        if JS.inherited conversationKey then
          let known := if bool_decide (conversationKey = "__proto__"%string)
                       then ("nodes"%string :: JS.ObjectPrototype)
                       else JS.ObjectPrototype in
          let '(_, addedCount) := addNodeTimes known now ∅ newNodes in
          if 0 <? addedCount then set all ;;; ret addedCount
          else ret addedCount
        else
          let '(ns', addedCount) := addNodeTimes JS.ObjectPrototype now ∅ newNodes in
          if 0 <? addedCount then
            set (<[conversationKey := Rec None (Some now) (Some ns')]> all) ;;;
            ret addedCount
          else ret addedCount
    | Some r =>
        let ns := match nodes r with Some ns => ns | None => ∅ end in
        let '(ns', addedCount) := addNodeTimes JS.ObjectPrototype now ns newNodes in
        if 0 <? addedCount then
          set (<[conversationKey := Rec (createTime r) (Some now) (Some ns')]> all) ;;;
          ret addedCount
        else ret addedCount
    end.

(** The time that the first element of [newNodes] with node id [id] asks
    for. *)
Fixpoint firstTime (now : Z) (id : string) (newNodes : list NodeTime) : option Z :=
  match newNodes with
  | [] => None
  | n :: rest =>
      if bool_decide (nodeId n = Some id) then Some (orNow now (timestamp n))
      else firstTime now id rest
  end.


(** The node times recorded for a conversation; none if it has no record
    or no [nodes] map. *)
Definition nodesOf (st : storage) (k : string) : gmap string Z :=
  match allOf st !! k with
  | Some r => default ∅ (nodes r)
  | None => ∅
  end.

End NodeTimes.
(** ** StarStorageManager *)

Module StarStorageManager.
Import StorageAdapter Turn.

(** [{ key, url, urlWithoutProtocol, nodeId/index, question, timestamp,
    folderId }].  A missing [key] and the empty [key] are both falsy and are
    both the empty string here. *)
Record StarItem := Star {
  key : string;
  url : string;
  urlWithoutProtocol : string;
  nodeId : option NodeKey;
  question : string;
  timestamp : Z;
  folderId : option string
}.

Abbreviation storage := (area (list StarItem)).
Abbreviation op := (async (list StarItem)).

(** [Array.prototype.findIndex]: the first index whose element satisfies
    [p], or [-1]. *)
Fixpoint findIndexFrom {A} (p : A → bool) (l : list A) (i : Z) : Z :=
  match l with
  | [] => -1
  | x :: l' => if p x then i else findIndexFrom p l' (i + 1)
  end.

Definition findIndex {A} (p : A → bool) (l : list A) : Z := findIndexFrom p l 0.

(** [getAll]: the stored array, or [[]]. *)
Definition getAll : op (list StarItem) :=
  let! data := get in
  ret (match data with Some items => items | None => [] end).

(** [add]: insert, or replace the record that has the same [key]. *)
Definition add (item : StarItem) : op unit :=
  if negb (JS.truthyStr (key item)) then ret tt
  else
    let! items := getAll in
    let existingIndex := findIndex (λ i, bool_decide (key i = key item)) items in
    if 0 <=? existingIndex
    then set (<[Z.to_nat existingIndex := item]> items)
    else set (items ++ [item]).

(** [remove] *)
Definition remove (k : string) : op unit :=
  if negb (JS.truthyStr k) then ret tt
  else
    let! items := getAll in
    set (filter (λ item, key item ≠ k) items).

(** [findByKey] *)
Definition findByKey (k : string) : op (option StarItem) :=
  if negb (JS.truthyStr k) then ret None
  else
    let! items := getAll in
    ret (List.find (λ item, bool_decide (key item = k)) items).

(** The array [getAll] resolves to. *)
Definition itemsOf (st : storage) : list StarItem := result getAll st.

(** A sequence of [add] calls. *)
Definition adds (items : list StarItem) (st : storage) : storage :=
  foldl (λ s it, after (add it) s) st items.

(** What [add] does to the array. *)
Fixpoint upsert (item : StarItem) (l : list StarItem) : list StarItem :=
  match l with
  | [] => [item]
  | x :: l' => if bool_decide (key x = key item) then item :: l' else x :: upsert item l'
  end.

(** The record with key [k], as [Array.prototype.find] returns it. *)
Definition lookupKey (k : string) (l : list StarItem) : option StarItem :=
  List.find (λ item, bool_decide (key item = k)) l.

(** The last item of a sequence of upserts that carries key [k]. *)
Definition lastWithKey (k : string) (items : list StarItem) : option StarItem :=
  lookupKey k (rev items).

End StarStorageManager.

(** ** StarStorageManager: updating and reading *)

Module StarStorageOps.
Import StorageAdapter Turn StarStorageManager.

(** The [updates] argument of [update]: the fields it carries. *)
Record StarPatch := Patch {
  pKey : option string;
  pUrl : option string;
  pUrlWithoutProtocol : option string;
  pNodeId : option (option NodeKey);
  pQuestion : option string;
  pTimestamp : option Z;
  pFolderId : option (option string)
}.

(** [{ ...item, ...updates }] *)
Definition spread (item : StarItem) (updates : StarPatch) : StarItem :=
  Star (default (key item) (pKey updates))
       (default (url item) (pUrl updates))
       (default (urlWithoutProtocol item) (pUrlWithoutProtocol updates))
       (default (nodeId item) (pNodeId updates))
       (default (question item) (pQuestion updates))
       (default (timestamp item) (pTimestamp updates))
       (default (folderId item) (pFolderId updates)).

(** [update(key, updates)]; [None] is a [null] or missing [updates]. *)
Definition update (k : string) (updates : option StarPatch) : op unit :=
  match updates with
  | None => ret tt
  | Some u =>
      if negb (JS.truthyStr k) then ret tt
      else
        let! items := getAll in
        let index := findIndex (λ item, bool_decide (key item = k)) items in
        if 0 <=? index then
          match items !! Z.to_nat index with
          | Some old => set (<[Z.to_nat index := spread old u]> items)
          | None => ret tt
          end
        else ret tt
  end.

(** [exists(key)] *)
Definition exists_ (k : string) : op bool :=
  let! item := findByKey k in
  ret (match item with Some _ => true | None => false end).

(** [getByUrl] *)
Definition getByUrl (u : string) : op (list StarItem) :=
  let! items := getAll in
  ret (filter (λ item, urlWithoutProtocol item = u) items).

(** [Array.prototype.sort] with a comparator [cmp]; the sort is stable, and
    an insertion sort gives its result for a comparator that is a total
    preorder. *)
Fixpoint insertBy {A} (cmp : A → A → Z) (x : A) (l : list A) : list A :=
  match l with
  | [] => [x]
  | y :: l' => if cmp x y <=? 0 then x :: y :: l' else y :: insertBy cmp x l'
  end.

Definition sortBy {A} (cmp : A → A → Z) (l : list A) : list A :=
  foldr (λ x sorted, insertBy cmp x sorted) [] l.

(** [t || 0] *)
Definition orZero (t : Z) : Z := if JS.truthyNum t then t else 0.

(** [SidebarStarredManager.getStarredItems]: the stars, newest first. *)
Definition getStarredItems : op (list StarItem) :=
  let! items := getAll in
  ret (sortBy (λ a b, orZero (timestamp b) - orZero (timestamp a)) items).

End StarStorageOps.

(** ** Looking a stored key up among the current turns *)

Module DoubaoAdapter.
Import Turn.
Open Scope string_scope.
Open Scope Z_scope.

(** [generateTurnIdFromIndex]: [`doubao-${identifier}`] *)
Definition generateTurnIdFromIndex (identifier : NodeKey) : string :=
  "doubao-" +:+ toString identifier.

(** [findMarkerByStoredIndex]; [None] as the argument is [null] or
    [undefined], [None] as the result is [null]. *)
Definition findMarkerByStoredIndex (storedKey : option NodeKey)
    (markers : list Marker) (markerMap : gmap string Marker) : option Marker :=
  match storedKey with
  | None => None
  | Some k =>
      let turnId := "doubao-" +:+ toString k in
      match markerMap !! turnId with
      | Some marker => Some marker
      | None =>
          match k with
          | KNum n =>
              if (0 <=? n) && (n <? Z.of_nat (length markers))
              then markers !! Z.to_nat n
              else None
          | KStr _ => None
          end
      end
  end.

End DoubaoAdapter.

Module SidebarStarredManager.
Import Turn.

(** The two methods [findMarkerByNodeKey] asks an adapter for; either may be
    missing. *)
Record Adapter := {
  findMarkerByStoredIndex :
    option (option NodeKey → list Marker → gmap string Marker → option Marker);
  generateTurnIdFromIndex : option (NodeKey → string)
}.

(** The timeline manager, as far as the lookup reads it. *)
Record TimelineManager := {
  adapter : option Adapter;
  markers : list Marker;
  markerMap : gmap string Marker
}.

(** The last step of [findMarkerByNodeKey]: a number inside the array. *)
Definition byPosition (tm : TimelineManager) (nodeKey : NodeKey) : option Marker :=
  match nodeKey with
  | KNum n =>
      if (0 <=? n) && (n <? Z.of_nat (length (markers tm)))
      then markers tm !! Z.to_nat n
      else None
  | KStr _ => None
  end.

(** [findMarkerByNodeKey] *)
Definition findMarkerByNodeKey (tm : TimelineManager) (nodeKey : option NodeKey)
  : option Marker :=
  match nodeKey with
  | None => None
  | Some k =>
      match adapter tm ≫= findMarkerByStoredIndex with
      | Some find => find (Some k) (markers tm) (markerMap tm)
      | None =>
          match adapter tm ≫= generateTurnIdFromIndex with
          | Some generate =>
              match markerMap tm !! generate k with
              | Some marker => Some marker
              | None => byPosition tm k
              end
          | None => byPosition tm k
          end
      end
  end.

(** The Doubao adapter, as [findMarkerByNodeKey] sees it. *)
Definition doubao : Adapter :=
  {| findMarkerByStoredIndex := Some DoubaoAdapter.findMarkerByStoredIndex;
     generateTurnIdFromIndex := Some DoubaoAdapter.generateTurnIdFromIndex |}.

(** What the lookup of a stored key promises, for the key derivation
    [derive] and the lookup [find]: the turn whose key is derived from the
    stored key if there is one; else, for a number inside the list of turns,
    the turn at that position; else nothing. *)
Definition StoredKeyLookup (derive : NodeKey → string)
    (find : option NodeKey → list Marker → gmap string Marker → option Marker)
  : Prop :=
  ∀ (markers : list Marker) (markerMap : gmap string Marker),
    (∀ k m, markerMap !! derive k = Some m →
            find (Some k) markers markerMap = Some m)
    ∧ (∀ n, markerMap !! derive (KNum n) = None →
            0 ≤ n < Z.of_nat (length markers) →
            find (Some (KNum n)) markers markerMap = markers !! Z.to_nat n
            ∧ is_Some (markers !! Z.to_nat n))
    ∧ (∀ n, markerMap !! derive (KNum n) = None →
            ¬ (0 ≤ n < Z.of_nat (length markers)) →
            find (Some (KNum n)) markers markerMap = None)
    ∧ (∀ s, markerMap !! derive (KStr s) = None →
            find (Some (KStr s)) markers markerMap = None)
    ∧ find None markers markerMap = None.

End SidebarStarredManager.
(** ** Text functions of the adapters and the recorder *)

Module Text.
Open Scope string_scope.

(** What follows [p] in [s] when [s] starts with [p]. *)
Fixpoint stripPrefix (p s : string) : option string :=
  match p, s with
  | EmptyString, _ => Some s
  | String a p', String b s' => if Ascii.eqb a b then stripPrefix p' s' else None
  | String _ _, EmptyString => None
  end.

(** [s.split(c)[0]]: the text before the first [c], all of [s] without one. *)
Fixpoint before (c : ascii) (s : string) : string :=
  match s with
  | EmptyString => EmptyString
  | String a s' => if Ascii.eqb a c then EmptyString else String a (before c s')
  end.

(** The longest prefix of [s] whose characters satisfy [p]. *)
Fixpoint takeWhile (p : ascii → bool) (s : string) : string :=
  match s with
  | EmptyString => EmptyString
  | String a s' => if p a then String a (takeWhile p s') else EmptyString
  end.

(** [s.includes(sub)] *)
Fixpoint includes (sub s : string) : bool :=
  String.prefix sub s
  || match s with
     | EmptyString => false
     | String _ s' => includes sub s'
     end.

(** [s.match(/lit(C+)/)?.[1]] for a literal [lit] and a character class [C]:
    the first place where [lit] is followed by a character of the class,
    and the characters of the class from there on. *)
Fixpoint matchAfter (lit : string) (cls : ascii → bool) (s : string) : option string :=
  let here := match stripPrefix lit s with
              | Some rest =>
                  let captured := takeWhile cls rest in
                  if JS.truthyStr captured then Some captured else None
              | None => None
              end in
  match here with
  | Some captured => Some captured
  | None =>
      match s with
      | EmptyString => None
      | String _ s' => matchAfter lit cls s'
      end
  end.

End Text.

(** ** The Doubao adapter: turn ids and routes *)

Module DoubaoTurns.
Import Text.
Open Scope string_scope.
Open Scope Z_scope.

(** [_nodeIdCache], a [WeakMap] from elements to node ids; an element is
    known by its identity. *)
Abbreviation Cache := (gmap nat string).

(** [_extractNodeIdFromDom(element)].  [messageId e] is what
    [e.querySelector('[data-message-id]')?.getAttribute('data-message-id')]
    gives on the page as it is now, [None] for [null] and [undefined]. *)
Definition _extractNodeIdFromDom (messageId : nat → option string)
    (element : option nat) (cache : Cache) : option string * Cache :=
  match element with
  | None => (None, cache)
  | Some e =>
      match cache !! e with
      | Some nodeId => (Some nodeId, cache)
      | None =>
          match messageId e with
          | Some nodeId =>
              if JS.truthyStr nodeId then (Some nodeId, <[e := nodeId]> cache)
              else (None, cache)
          | None => (None, cache)
          end
      end
  end.

(** [generateTurnId(element, index)] *)
Definition generateTurnId (messageId : nat → option string)
    (element : option nat) (index : Z) (cache : Cache) : string * Cache :=
  let '(nodeId, cache') := _extractNodeIdFromDom messageId element cache in
  match nodeId with
  | Some id =>
      if JS.truthyStr id then ("doubao-" +:+ id, cache')
      else ("doubao-" +:+ pretty index, cache')
  | None => ("doubao-" +:+ pretty index, cache')
  end.

(** A call of [generateTurnId]: the page at that time, the element and the
    index. *)
Record Call := Call_ {
  page : nat → option string;
  target : option nat;
  position : Z
}.

(** The cache after a sequence of calls. *)
Definition calls (l : list Call) (cache : Cache) : Cache :=
  foldl (λ c call, (generateTurnId (page call) (target call) (position call) c).2)
        cache l.

(** Every id in the cache is truthy. *)
Definition cacheOk (c : Cache) : Prop := ∀ e id, c !! e = Some id → id ≠ "".

(** [isConversationRoute(pathname)] *)
Definition isConversationRoute (pathname : string) : bool :=
  includes "/chat/" pathname.

(** [extractConversationId(pathname)]: [pathname.match(/\/chat\/(\d+)/)] *)
Definition extractConversationId (pathname : string) : option string :=
  matchAfter "/chat/" ChatTimeStorageManager.isDigit pathname.

End DoubaoTurns.

(** ** The DeepSeek adapter: routes *)

Module DeepSeekAdapter.
Import Text.
Open Scope string_scope.

(** [[^\/]] *)
Definition notSlash (c : ascii) : bool := negb (Ascii.eqb c "/"%char).

(** [isConversationRoute(pathname)] *)
Definition isConversationRoute (pathname : string) : bool :=
  includes "/a/chat/s/" pathname || includes "/share/" pathname.

(** [extractConversationId(pathname)] *)
Definition extractConversationId (pathname : string) : option string :=
  match matchAfter "/a/chat/s/" notSlash pathname with
  | Some id => Some id
  | None => matchAfter "/share/" notSlash pathname
  end.

End DeepSeekAdapter.

(** ** ChatTimeRecorder: waiting for the real id of a turn *)

Module ChatTimeRecorder.
Import StorageAdapter ChatTimeStorageManager.
Open Scope string_scope.
Open Scope Z_scope.

(** [String.prototype.endsWith] *)
Definition endsWith (s suffix : string) : bool :=
  let n := String.length s in
  let m := String.length suffix in
  (m <=? n)%nat && String.eqb (String.substring (n - m) m s) suffix.

(** [init], as far as it touches the time records: [chatTimes] and
    [stableNodeId] are the tests [features?.chatTimes === true] and
    [features?.stableNodeId === true], [conversationKey] is
    [getConversationKey()]. *)
Definition init (chatTimes stableNodeId : bool) (conversationKey : string) (now : Z)
  : op unit :=
  if negb chatTimes then ret tt
  else if negb (JS.truthyStr conversationKey) then ret tt
  else
    updateLastVisit now conversationKey ;;;
    if stableNodeId then cleanupTempIds conversationKey ;;; ret tt
    else ret tt.

(** [_pendingRecord]: [{ index, tempId }] *)
Record PendingRecord := Pending { index : nat; tempId : string }.

(** The recorder: its pending record, the storage it writes to, and the
    delays of the [setTimeout] calls it has made, in milliseconds. *)
Record Recorder := Recorder_ {
  pendingRecord : option PendingRecord;
  store : storage;
  timers : list Z
}.

(** What a timer callback finds when it fires.  The callback reads
    [this._pendingRecord] anew: other code may have reset it in the meantime
    ([PendingCleared]) or, as [_recordNewNodeTime] does for a later turn,
    have put another record in its place ([Replaced]); otherwise it is the
    record the poll was started for.  Then the callback finds no element at
    the expected index, or the id that [adapter.generateTurnId] gives the
    element there. *)
Inductive Tick :=
| PendingCleared
| NoElement
| TurnId (nodeId : string)
| Replaced (pending : PendingRecord) (found : option string).

Definition clearPending (r : Recorder) : Recorder :=
  Recorder_ None (store r) (timers r).

Definition setTimeout (delay : Z) (r : Recorder) : Recorder :=
  Recorder_ (pendingRecord r) (store r) (timers r ++ [delay]).

(** [this._pendingRecord = pending], by other code. *)
Definition setPending (pending : PendingRecord) (r : Recorder) : Recorder :=
  Recorder_ (Some pending) (store r) (timers r).

(** [_migrateNodeId]: nothing for an empty conversation key, else
    [ChatTimeStorageManager.migrateNodeId]. *)
Definition _migrateNodeId (conversationKey tempId realId : string) (r : Recorder)
  : Recorder :=
  if negb (JS.truthyStr conversationKey) then r
  else Recorder_ (pendingRecord r)
                 (after (migrateNodeId conversationKey tempId realId) (store r))
                 (timers r).

(** [_pollForRealId(adapter, expectedIndex, retryCount)].  [page retryCount]
    is what the callback scheduled by the call with that [retryCount] finds;
    [conversationKey] is what [getConversationKey()] gives in the one
    callback that calls [_migrateNodeId]. *)
Equations? _pollForRealId (page : nat → Tick) (conversationKey : string)
    (expectedIndex : nat) (retryCount : nat) (r : Recorder)
  : Recorder by wf (11 - retryCount)%nat lt :=
  _pollForRealId page conversationKey expectedIndex retryCount r
    with pendingRecord r := {
    | None => clearPending r
    | Some pending with le_gt_dec retryCount 10 := {
      | right _ => clearPending r
      | left _ with page retryCount := {
        | PendingCleared => clearPending (setTimeout 500 r)
        | NoElement => clearPending (setTimeout 500 r)
        | TurnId nodeId =>
            if negb (endsWith nodeId ("-" +:+ pretty expectedIndex))
            then clearPending
                   (_migrateNodeId conversationKey (tempId pending) nodeId
                                   (setTimeout 500 r))
            else _pollForRealId page conversationKey expectedIndex
                                (retryCount + 1) (setTimeout 500 r);
        | Replaced pending' None => clearPending (setTimeout 500 r);
        | Replaced pending' (Some nodeId) =>
            if negb (endsWith nodeId ("-" +:+ pretty expectedIndex))
            then clearPending
                   (_migrateNodeId conversationKey (tempId pending') nodeId
                                   (setTimeout 500 r))
            else _pollForRealId page conversationKey expectedIndex
                                (retryCount + 1)
                                (setPending pending' (setTimeout 500 r))
        }
      }
    }.
Proof. all: lia. Qed.

(** Every callback up to the last one finds no real id: the element is there
    and its id still ends with [-expectedIndex]. *)
Definition stillProvisional (page : nat → Tick) (expectedIndex : nat) : Prop :=
  ∀ i, (i ≤ 10)%nat →
       ∃ nodeId, page i = TurnId nodeId
                 ∧ endsWith nodeId ("-" +:+ pretty expectedIndex) = true.

(** No other code touches the pending record while the poll runs. *)
Definition undisturbed (page : nat → Tick) : Prop :=
  ∀ i pending found, page i ≠ Replaced pending found.

End ChatTimeRecorder.
(** ** ChatTimeRecorder: the conversation key and the recording of turns *)

Module RecorderOps.
Import StorageAdapter ChatTimeStorageManager NodeTimes Text.
Open Scope string_scope.
Open Scope Z_scope.

(** [url.replace(/^https?:\/\//, '')] *)
Definition stripProtocol (url : string) : string :=
  match stripPrefix "http://" url with
  | Some rest => rest
  | None =>
      match stripPrefix "https://" url with
      | Some rest => rest
      | None => url
      end
  end.

(** [getConversationKey], for [location.href = href]. *)
Definition getConversationKey (href : string) : string :=
  before "#" (before "?" (stripProtocol href)).

(** [_recordNodes(newNodes, customTimestamp, isNewConversation)], for the
    node ids [String(n.nodeId)] of [newNodes].  [Date.now()] is read three
    times: [tCreate] by [setCreateTime], [tRecord] by [_recordNodes] and
    [tBatch] by [batchSetNodeTimes]. *)
Definition _recordNodes (enabled : bool) (conversationKey : string)
    (tCreate tRecord tBatch : Z)
    (newNodes : list string) (customTimestamp : option Z) (isNewConversation : bool)
  : op unit :=
  if negb enabled || bool_decide (newNodes = []) then ret tt
  else if negb (JS.truthyStr conversationKey) then ret tt
  else
    (if isNewConversation then setCreateTime conversationKey tCreate ;;; ret tt
     else ret tt) ;;;
    let timestamp := orNow tRecord customTimestamp in
    let nodesToRecord := (λ n, NodeTime_ (Some n) (Some timestamp)) <$> newNodes in
    if bool_decide (nodesToRecord = []) then ret tt
    else batchSetNodeTimes tBatch conversationKey nodesToRecord ;;; ret tt.

End RecorderOps.
(** ** The migrations that run when the extension loads

    The storage script comes in two versions, each with its own
    [StorageAdapter] and its own loader; a page loads one of them.  The
    later version has the key rename: its [migrateFromSyncToLocal] awaits
    [migrateLocalKeys] first, writes the single star and pin records of the
    synced area as arrays, and is the only migration its loader starts.  The
    earlier version has [StarPinStorage]: its [migrateFromSyncToLocal] copies
    the synced area as it is, and its loader awaits it and then
    [StarPinStorage.migrateFromLegacy].  The functions work on the two
    storage areas of the browser, and every call of the storage API is logged
    with the migration whose code makes it. *)

Module Migrations.
Open Scope string_scope.
Open Scope list_scope.
Open Scope Z_scope.

(** A value that [chrome.storage] can hold.  The order of the fields of an
    object carries no meaning. *)
#[local] Unset Elimination Schemes.
Inductive JsVal :=
| JNull
| JBool (b : bool)
| JNum (z : Z)
| JStr (s : string)
| JArr (items : list JsVal)
| JObj (fields : list (string * JsVal)).
#[local] Set Elimination Schemes.

(** Truthiness; [None] is [undefined]. *)
Definition truthy (v : option JsVal) : bool :=
  match v with
  | None | Some JNull => false
  | Some (JBool b) => b
  | Some (JNum z) => negb (z =? 0)
  | Some (JStr s) => JS.truthyStr s
  | Some (JArr _) | Some (JObj _) => true
  end.

(** [value && typeof value === 'object'] *)
Definition isObject (v : JsVal) : bool :=
  match v with
  | JArr _ | JObj _ => true
  | _ => false
  end.

Fixpoint assoc (name : string) (fields : list (string * JsVal)) : option JsVal :=
  match fields with
  | [] => None
  | (k, v) :: rest => if bool_decide (k = name) then Some v else assoc name rest
  end.

(** [fields[name] = v] *)
Fixpoint assign (name : string) (v : JsVal) (fields : list (string * JsVal))
  : list (string * JsVal) :=
  match fields with
  | [] => [(name, v)]
  | (k, w) :: rest =>
      if bool_decide (k = name) then (k, v) :: rest else (k, w) :: assign name v rest
  end.

(** [v.name] for a [v] that is neither [null] nor [undefined], and for a
    [name] that no prototype defines. *)
Definition getProp (v : JsVal) (name : string) : option JsVal :=
  match v with
  | JObj fields => assoc name fields
  | _ => None
  end.

(** [a ?? b] *)
Definition nullish (a b : option JsVal) : option JsVal :=
  match a with
  | None | Some JNull => b
  | Some _ => a
  end.

(** [String(v)] *)
Fixpoint jsString (v : JsVal) : string :=
  match v with
  | JNull => "null"
  | JBool true => "true"
  | JBool false => "false"
  | JNum z => pretty z
  | JStr s => s
  | JArr items =>
      String.concat ","
        (List.map (λ x, match x with JNull => "" | _ => jsString x end) items)
  | JObj _ => "[object Object]"
  end.

(** The conversion a template literal applies. *)
Definition templateString (v : option JsVal) : string :=
  match v with
  | None => "undefined"
  | Some x => jsString x
  end.

(** The own enumerable properties of a value, as the spread syntax copies
    them. *)
Definition ownFields (v : JsVal) : list (string * JsVal) :=
  match v with
  | JObj fields => fields
  | JArr items => imap (λ i x, (pretty i, x)) items
  | _ => []
  end.

(** [{ key, ...value }] *)
Definition withKey (key : string) (value : JsVal) : JsVal :=
  JObj (foldl (λ acc kv, assign kv.1 kv.2 acc) [("key", JStr key)] (ownFields value)).

(** An object literal; a field whose value is [undefined] is not stored. *)
Definition object (fields : list (string * option JsVal)) : JsVal :=
  JObj (omap (λ kv, (λ v, (kv.1, v)) <$> kv.2) fields).

Inductive Migration :=
| KeyRename
| StorageScope
| RecordShape.

Inductive StorageCall :=
| LocalGet (keys : option (list string))
| LocalSet (keys : list string)
| LocalRemove (keys : list string)
| SyncGet
| SyncClear.

(** The browser: whether [chrome.storage.local] exists, the local area, the
    synced area if there is one, and the calls made so far. *)
Record Browser := Browser_ {
  chromeStorage : bool;
  local : gmap string JsVal;
  sync : option (gmap string JsVal);
  calls : list (Migration * StorageCall)
}.

Definition logCall (m : Migration) (c : StorageCall) (b : Browser) : Browser :=
  Browser_ (chromeStorage b) (local b) (sync b) (calls b ++ [(m, c)]).

(** [chrome.storage.local.set(items)] *)
Definition localSet (m : Migration) (items : list (string * JsVal)) (b : Browser)
  : Browser :=
  Browser_ (chromeStorage b)
           (foldl (λ acc kv, <[kv.1 := kv.2]> acc) (local b) items)
           (sync b)
           (calls b ++ [(m, LocalSet items.*1)]).

(** [chrome.storage.local.remove(keys)] *)
Definition localRemove (m : Migration) (keys : list string) (b : Browser) : Browser :=
  Browser_ (chromeStorage b)
           (foldl (λ acc k, delete k acc) (local b) keys)
           (sync b)
           (calls b ++ [(m, LocalRemove keys)]).

(** [chrome.storage.sync.clear()] *)
Definition syncClear (m : Migration) (b : Browser) : Browser :=
  Browser_ (chromeStorage b) (local b) ((λ _, ∅) <$> sync b) (calls b ++ [(m, SyncClear)]).

(** [migrateLocalKeys]: [biwhckdj] becomes [prompts]. *)
Definition migrateLocalKeys (b : Browser) : Browser :=
  if negb (chromeStorage b) then b
  else
    let b1 := logCall KeyRename (LocalGet (Some ["biwhckdj"; "prompts"])) b in
    let biwhckdj := local b1 !! "biwhckdj" in
    let prompts := local b1 !! "prompts" in
    match biwhckdj with
    | Some old =>
        if truthy biwhckdj && negb (truthy prompts) then
          localRemove KeyRename ["biwhckdj"]
            (localSet KeyRename [("prompts", old)] b1)
        else if truthy biwhckdj && truthy prompts then
          localRemove KeyRename ["biwhckdj"] b1
        else b1
    | None => b1
    end.

(** The pass of [migrateFromSyncToLocal] over the keys of the synced data:
    the star items, the pin items and the other data.  The assignment
    [otherData[key] = value] stores nothing for the key [__proto__], which
    reaches the setter of [Object.prototype]. *)
Definition splitSyncData (syncData : list (string * JsVal))
  : list JsVal * list JsVal * list (string * JsVal) :=
  foldl (λ '(starItems, pinItems, otherData) '(key, value),
           if String.prefix "chatTimelineStar:" key then
             if isObject value
             then (starItems ++ [withKey key value], pinItems, otherData)
             else (starItems, pinItems, otherData)
           else if String.prefix "chatTimelinePin:" key then
             if isObject value
             then (starItems, pinItems ++ [withKey key value], otherData)
             else (starItems, pinItems, otherData)
           else if bool_decide (key = "__proto__") then (starItems, pinItems, otherData)
           else (starItems, pinItems, otherData ++ [(key, value)]))
        ([], [], []) syncData.

(** [migrateFromSyncToLocal] *)
Definition migrateFromSyncToLocal (b : Browser) : Browser :=
  if negb (chromeStorage b) then b
  else
    let b1 := migrateLocalKeys b in
    match sync b1 with
    | None => b1
    | Some syncData =>
        let b2 := logCall StorageScope SyncGet b1 in
        match map_to_list syncData with
        | [] => b2
        | entries =>
            let '(starItems, pinItems, otherData) := splitSyncData entries in
            let newLocalData :=
              otherData
              ++ (if (0 <? Z.of_nat (length starItems))
                  then [("chatTimelineStars", JArr starItems)] else [])
              ++ (if (0 <? Z.of_nat (length pinItems))
                  then [("chatTimelinePins", JArr pinItems)] else []) in
            syncClear StorageScope (localSet StorageScope newLocalData b2)
        end
    end.

(** [StarPinStorage._makeId]: [`${urlWithoutProtocol}:${nodeId}`] *)
Definition _makeId (urlWithoutProtocol nodeId : option JsVal) : string :=
  templateString urlWithoutProtocol +:+ ":" +:+ templateString nodeId.

(** [_makeId(s.urlWithoutProtocol, s.nodeId ?? s.index)]; [None] when the
    property access throws because [s] is [null]. *)
Definition idOf (s : JsVal) : option string :=
  match s with
  | JNull => None
  | _ => Some (_makeId (getProp s "urlWithoutProtocol")
                       (nullish (getProp s "nodeId") (getProp s "index")))
  end.

(** [a || d] *)
Definition orElse (a : option JsVal) (d : JsVal) : JsVal :=
  match a with
  | Some v => if truthy a then v else d
  | None => d
  end.

(** [getAllStars] and [getAllPins]: the stored array, or [[]]. *)
Definition getAllOf (storageKey : string) (b : Browser) : list JsVal :=
  match local b !! storageKey with
  | Some (JArr items) => items
  | _ => []
  end.

(** The record [migrateFromLegacy] builds for a star and for a pin. *)
Definition newStar (now : Z) (item : JsVal) (nodeId : option JsVal) : JsVal :=
  object [("url", getProp item "url");
          ("urlWithoutProtocol", getProp item "urlWithoutProtocol");
          ("nodeId", nodeId);
          ("question", Some (orElse (getProp item "question") (JStr "")));
          ("timestamp", Some (orElse (getProp item "timestamp") (JNum now)));
          ("folderId", Some (orElse (getProp item "folderId") JNull));
          ("isFullChat", Some (JBool match nodeId with
                                     | Some (JNum (-1)) => true
                                     | _ => false
                                     end))].

Definition newPin (now : Z) (item : JsVal) (nodeId : option JsVal) : JsVal :=
  object [("url", getProp item "url");
          ("urlWithoutProtocol", getProp item "urlWithoutProtocol");
          ("nodeId", nodeId);
          ("question", Some (orElse (getProp item "question") (JStr "")));
          ("timestamp", Some (orElse (getProp item "timestamp") (JNum now)));
          ("isFullChat", Some (JBool false))].

(** The loop over the old keys of one family: an item is added unless it is
    falsy, has no [urlWithoutProtocol], or its id is already there. *)
Definition collect (build : JsVal → option JsVal → JsVal)
    (allItems : gmap string JsVal) (keys : list string)
    (existing : list JsVal) (existingIds : list string) : list JsVal :=
  fst (foldl (λ '(items, ids) key,
                match allItems !! key with
                | Some item =>
                    if negb (truthy (Some item))
                       || negb (truthy (getProp item "urlWithoutProtocol"))
                    then (items, ids)
                    else
                      let nodeId := nullish (getProp item "nodeId") (getProp item "index") in
                      let id := _makeId (getProp item "urlWithoutProtocol") nodeId in
                      if bool_decide (id ∈ ids) then (items, ids)
                      else (items ++ [build item nodeId], ids ++ [id])
                | None => (items, ids)
                end)
             (existing, existingIds) keys).

(** One family of [migrateFromLegacy]: read the array, add the old records,
    save.  The flag is [false] when reading the ids of the existing records
    throws; nothing is saved then. *)
Definition migrateFamily (storageKey : string)
    (build : JsVal → option JsVal → JsVal)
    (allItems : gmap string JsVal) (keys : list string) (b : Browser)
  : Browser * bool :=
  match keys with
  | [] => (b, true)
  | _ =>
      let b1 := logCall RecordShape (LocalGet (Some [storageKey])) b in
      let existing := getAllOf storageKey b1 in
      match mapM idOf existing with
      | None => (b1, false)
      | Some existingIds =>
          (localSet RecordShape
             [(storageKey, JArr (collect build allItems keys existing existingIds))] b1,
           true)
      end
  end.

(** The body of [migrateFromLegacy] once old keys were found: the stars,
    the pins, then the removal of the old keys; an exception ends it where it
    is thrown. *)
Definition migrateRecords (now : Z) (allItems : gmap string JsVal)
    (starKeys pinKeys : list string) (b : Browser) : Browser :=
  let '(b2, ok) := migrateFamily "aitStars" (newStar now) allItems starKeys b in
  if negb ok then b2
  else
    let '(b3, ok) := migrateFamily "aitPins" (newPin now) allItems pinKeys b2 in
    if negb ok then b3
    else localRemove RecordShape (starKeys ++ pinKeys) b3.

(** [StarPinStorage.migrateFromLegacy] *)
Definition migrateFromLegacy (now : Z) (b : Browser) : Browser :=
  if negb (chromeStorage b) then b
  else
    let b1 := logCall RecordShape (LocalGet None) b in
    let allItems := local b1 in
    let starKeys := filter (λ k, String.prefix "chatTimelineStar:" k = true)
                           (map_to_list allItems).*1 in
    let pinKeys := filter (λ k, String.prefix "chatTimelinePin:" k = true)
                          (map_to_list allItems).*1 in
    match starKeys, pinKeys with
    | [], [] => b1
    | _, _ => migrateRecords now allItems starKeys pinKeys b1
    end.

(** The earlier version of the script. *)
Module EarlierScript.

(** [StorageAdapter.migrateFromSyncToLocal] of the earlier version: the
    synced data is copied to the local area as it is. *)
Definition migrateFromSyncToLocal (b : Browser) : Browser :=
  if negb (chromeStorage b) then b
  else
    match sync b with
    | None => b
    | Some syncData =>
        let b1 := logCall StorageScope SyncGet b in
        match map_to_list syncData with
        | [] => b1
        | entries => syncClear StorageScope (localSet StorageScope entries b1)
        end
    end.

(** The loader: [(async () => { await StorageAdapter.migrateFromSyncToLocal();
    await StarPinStorage.migrateFromLegacy(); })()] *)
Definition load (now : Z) (b : Browser) : Browser :=
  migrateFromLegacy now (migrateFromSyncToLocal b).

End EarlierScript.

(** The later version of the script. *)
Module LaterScript.

(** The loader, as far as it migrates: [StorageAdapter.migrateFromSyncToLocal();] *)
Definition load (b : Browser) : Browser := migrateFromSyncToLocal b.

End LaterScript.

(** In a log, every call of migration [m1] comes before every call of
    migration [m2]. *)
Definition precedes (m1 m2 : Migration) (log : list (Migration * StorageCall))
  : Prop :=
  ∀ i j c1 c2, log !! i = Some (m1, c1) → log !! j = Some (m2, c2) → (i < j)%nat.

(** A log that holds calls of [m] only. *)
Definition callsOf (m : Migration) (l : list (Migration * StorageCall)) : Prop :=
  Forall (λ c, c.1 = m) l.

End Migrations.

(** ** The synced entries, by kind *)

Module SyncEntries.
Import Migrations.
Open Scope string_scope.

(** The star item that [migrateFromSyncToLocal] makes of a synced entry. *)
Definition starOf (entry : string * JsVal) : option JsVal :=
  if String.prefix "chatTimelineStar:" entry.1
  then if isObject entry.2 then Some (withKey entry.1 entry.2) else None
  else None.

(** The pin item that [migrateFromSyncToLocal] makes of a synced entry. *)
Definition pinOf (entry : string * JsVal) : option JsVal :=
  if String.prefix "chatTimelineStar:" entry.1 then None
  else if String.prefix "chatTimelinePin:" entry.1
       then if isObject entry.2 then Some (withKey entry.1 entry.2) else None
       else None.

(** The key of an entry that is copied as it is: not the key of a single
    star or pin record, and not [__proto__], under which the assignment
    [otherData[key] = value] stores nothing. *)
Definition isOther (key : string) : bool :=
  negb (String.prefix "chatTimelineStar:" key)
  && negb (String.prefix "chatTimelinePin:" key)
  && negb (bool_decide (key = "__proto__")).

(** The key of a single record of the old shape. *)
Definition isLegacyKey (key : string) : bool :=
  String.prefix "chatTimelineStar:" key || String.prefix "chatTimelinePin:" key.

End SyncEntries.

(** ** The loop of [migrateFromLegacy] over the old records *)

Module LegacyRecords.
Import Migrations.
Open Scope string_scope.
Open Scope list_scope.

(** The step of the loop of [collect]. *)
Definition collectStep (build : JsVal → option JsVal → JsVal)
    (allItems : gmap string JsVal)
  : list JsVal * list string → string → list JsVal * list string :=
  λ '(items, ids) key,
  match allItems !! key with
  | Some item =>
      if negb (truthy (Some item))
         || negb (truthy (getProp item "urlWithoutProtocol"))
      then (items, ids)
      else
        let nodeId := nullish (getProp item "nodeId") (getProp item "index") in
        let id := _makeId (getProp item "urlWithoutProtocol") nodeId in
        if bool_decide (id ∈ ids) then (items, ids)
        else (items ++ [build item nodeId], ids ++ [id])
  | None => (items, ids)
  end.

(** [build] keeps the id of the record it is made from. *)
Definition keepsId (build : JsVal → option JsVal → JsVal) : Prop :=
  ∀ item nodeId,
    truthy (getProp item "urlWithoutProtocol") = true →
    nodeId ≠ Some JNull →
    idOf (build item nodeId)
    = Some (_makeId (getProp item "urlWithoutProtocol") nodeId).

End LegacyRecords.
(** ** StarPinStorage: the array of stars *)

Module StarPinStorage.
Import StorageAdapter Migrations.
Open Scope string_scope.
Open Scope list_scope.

(** The storage area of the key [aitStars]. *)
Abbreviation starArea := (area JsVal).

(** [getAllStars]: the stored value if it is an array, else [[]]. *)
Definition getAllStars : async JsVal (list JsVal) :=
  let! data := get in
  ret (match data with
       | Some (JArr items) => items
       | _ => []
       end).

(** [stars.filter(s => _makeId(s.urlWithoutProtocol, s.nodeId ?? s.index) !== id)];
    [None] when the callback throws, which it does on a [null] record. *)
Fixpoint withoutId (id : string) (stars : list JsVal) : option (list JsVal) :=
  match stars with
  | [] => Some []
  | s :: rest =>
      match idOf s with
      | None => None
      | Some i =>
          match withoutId id rest with
          | None => None
          | Some rest' => Some (if bool_decide (i = id) then rest' else s :: rest')
          end
      end
  end.

(** [stars.some(s => _makeId(s.urlWithoutProtocol, s.nodeId ?? s.index) === id)];
    the records after the first one with the id are not looked at. *)
Fixpoint someId (id : string) (stars : list JsVal) : option bool :=
  match stars with
  | [] => Some false
  | s :: rest =>
      match idOf s with
      | None => None
      | Some i => if bool_decide (i = id) then Some true else someId id rest
      end
  end.

(** [removeStar(urlWithoutProtocol, nodeId)]: [false] when an exception was
    caught. *)
Definition removeStar (urlWithoutProtocol nodeId : option JsVal) : async JsVal bool :=
  let! stars := getAllStars in
  match withoutId (_makeId urlWithoutProtocol nodeId) stars with
  | Some newStars => set (JArr newStars) ;;; ret true
  | None => ret false
  end.

(** [hasStar(urlWithoutProtocol, nodeId)]: [false] when an exception was
    caught. *)
Definition hasStar (urlWithoutProtocol nodeId : option JsVal) : async JsVal bool :=
  let! stars := getAllStars in
  ret (match someId (_makeId urlWithoutProtocol nodeId) stars with
       | Some found => found
       | None => false
       end).

End StarPinStorage.

(** ** DataSyncTab: the import of a backup *)

Module DataSyncTab.
Import Migrations.

(** [overwriteData(newData)], the import in overwrite mode:
    [chrome.storage.local.clear()], then [chrome.storage.local.set(newData)],
    where [newData] is the object that [JSON.parse] made of the [data] field
    of the backup.  The log of the migrations is not concerned. *)
Definition overwriteData (newData : gmap string JsVal) (b : Browser) : Browser :=
  Browser_ (chromeStorage b)
           (foldl (λ acc kv, <[kv.1 := kv.2]> acc) ∅ (map_to_list newData))
           (sync b)
           (calls b).

End DataSyncTab.

(** ** ContainerFinder: the conversation container *)

Module ContainerFinder.

(** An element of the document: what the selector looks at, and the
    children. *)
#[local] Unset Elimination Schemes.
Inductive Element (A : Type) := El (data : A) (children : list (Element A)).
#[local] Set Elimination Schemes.
Arguments El {A} _ _.

(** A node of the document is named by its position: the indices of the
    children that lead to it from the root.  The root is [[]]. *)
Abbreviation Node := (list nat).

(** The matches below the children [cs], the first of which is child [i]. *)
Definition inChildren {A} (f : Element A → list Node)
  : nat → list (Element A) → list Node :=
  fix descend (i : nat) (cs : list (Element A)) : list Node :=
    match cs with
    | [] => []
    | c :: cs' => ((i ::.) <$> f c) ++ descend (S i) cs'
    end.

(** [document.querySelectorAll(selector)], in document order; the selector
    is the test it applies to an element. *)
Fixpoint querySelectorAll {A} (selector : A → bool) (e : Element A) : list Node :=
  match e with
  | El data children =>
      (if selector data then [[]] else [])
      ++ inChildren (querySelectorAll selector) 0%nat children
  end.

(** The element at a position, if the document has one there. *)
Fixpoint nodeAt {A} (e : Element A) (n : Node) : option (Element A) :=
  match n with
  | [] => Some e
  | i :: n' =>
      match e with
      | El _ children =>
          match children !! i with
          | Some c => nodeAt c n'
          | None => None
          end
      end
  end.

(** [a] is an ancestor of [n]: a proper prefix of its position. *)
Definition ancestor (a n : Node) : Prop := ∃ rest, rest ≠ [] ∧ n = a ++ rest.

(** Modelled from the spec: the source of [ContainerFinder] is not among the
    files; the adapters only call [ContainerFinder.findConversationContainer]
    with their message selector.  The design document gives the algorithm:
    "collect the ancestor-path (root→element) for every matched element;
    compute the longest common prefix of all paths; the last node of that
    common prefix is the container", with "zero matches → no container" and
    "exactly one match → its immediate parent is the container".  The
    ancestor path of an element therefore holds its ancestors, from the root
    to its parent. *)
Definition ancestorPath (n : Node) : list Node :=
  (λ k, take k n) <$> seq 0 (length n).

(** Modelled from the spec: the longest common prefix of two paths. *)
Fixpoint commonPrefix (p q : list Node) : list Node :=
  match p, q with
  | x :: p', y :: q' => if decide (x = y) then x :: commonPrefix p' q' else []
  | _, _ => []
  end.

(** Modelled from the spec: the container for the matched elements, as the
    design document describes [findConversationContainer]; [None] is "no
    container". *)
Definition containerOf (matched : list Node) : option Node :=
  match matched with
  | [] => None
  | m :: ms => last (foldl commonPrefix (ancestorPath m) (ancestorPath <$> ms))
  end.

(** Modelled from the spec: [ContainerFinder.findConversationContainer] with
    the message selector of the adapter, on a document. *)
Definition findConversationContainer {A} (messageSelector : A → bool)
    (document : Element A) : option Node :=
  containerOf (querySelectorAll messageSelector document).

End ContainerFinder.
(** ** Example storage areas *)

Module ChatTimeExamples.
Import StorageAdapter ChatTimeStorageManager.
Open Scope string_scope.
Open Scope Z_scope.

Definition store1 : storage :=
  Area (Some {[ "chat.example/c/1" := Rec (Some 100) (Some 200) (Some {[ "gemini-0" := 150 ]}) ]}) 0.

(** A record whose [createTime] is the number [0]: set, not [null], and
    falsy. *)
Definition storeZero : storage :=
  Area (Some {[ "chat.example/c/1" := Rec (Some 0) (Some 200) (Some ∅) ]}) 0.

Definition store2 : storage :=
  Area (Some {[ "chat.example/c/1" :=
                  Rec (Some 100) (Some 200)
                      (Some (<[ "gemini-0" := 150 ]> {[ "gemini-r_abc" := 120 ]}));
                "chat.example/c/2" := Rec (Some 50) (Some 60) (Some {[ "gemini-1" := 55 ]}) ]})
       0.

(** A conversation last visited on 1 January, loaded again on 1 March. *)
Definition storeOld : storage :=
  Area (Some {[ "chat.example/c/1" :=
                  Rec (Some 1704067200000) (Some 1704067200000)
                      (Some {[ "gemini-r_abc" := 1704067200000 ]}) ]}) 0.

End ChatTimeExamples.

Module StarExamples.
Import StorageAdapter Turn StarStorageManager.
Open Scope string_scope.

Definition starA : StarItem :=
  Star "chat.example/c/1:5" "https://chat.example/c/1" "chat.example/c/1"
       (Some (KNum 5)) "a" 1000 None.
Definition starB : StarItem :=
  Star "chat.example/c/1:5" "https://chat.example/c/1" "chat.example/c/1"
       (Some (KNum 5)) "b" 2000 None.
Definition starC : StarItem :=
  Star "chat.example/c/1:7" "https://chat.example/c/1" "chat.example/c/1"
       (Some (KNum 7)) "c" 1500 (Some "folder-1").

End StarExamples.

Module RecorderExamples.
Import StorageAdapter ChatTimeStorageManager ChatTimeRecorder.
Open Scope string_scope.
Open Scope Z_scope.

(** The first turn of a conversation, recorded under its provisional id. *)
Definition recorder0 : Recorder :=
  Recorder_ (Some (Pending 0 "gemini-0"))
            (Area (Some {[ "chat.example/c/1" :=
                             Rec (Some 100) (Some 100) (Some {[ "gemini-0" := 100 ]}) ]}) 1)
            [].

(** A page that never assigns a real id. *)
Definition pageNever : nat → Tick := λ _, TurnId "gemini-0".

(** A page that assigns the real id before the fourth callback. *)
Definition pageThird : nat → Tick :=
  λ i, if (i <? 3)%nat then TurnId "gemini-0" else TurnId "gemini-abc123".

End RecorderExamples.

Module MigrationExamples.
Import Migrations.
Open Scope string_scope.
Open Scope Z_scope.

(** An installation of an old version: the prompts under their old key and
    one star, both in the synced area; nothing in the local area. *)
Definition browserOld : Browser :=
  Browser_ true ∅
    (Some {[ "biwhckdj" := JArr [JStr "Summarise this"];
             "chatTimelineStar:chat.example/c/1:2" :=
               JObj [("url", JStr "https://chat.example/c/1");
                     ("urlWithoutProtocol", JStr "chat.example/c/1");
                     ("index", JNum 2);
                     ("question", JStr "What is a monad?")] ]})
    [].

(** An installation with old single records in the local area. *)
Definition browserLegacy : Browser :=
  Browser_ true
    {[ "biwhckdj" := JArr [JStr "Summarise this"];
       "chatTimelineStar:chat.example/c/1:1" :=
         JObj [("url", JStr "https://chat.example/c/1");
               ("urlWithoutProtocol", JStr "chat.example/c/1");
               ("index", JNum 1)];
       "chatTimelineStar:chat.example/c/1:2" :=
         JObj [("url", JStr "https://chat.example/c/1");
               ("urlWithoutProtocol", JStr "chat.example/c/1");
               ("index", JNum 2)] ]}
    (Some {[ "theme" := JStr "dark" ]})
    [].

End MigrationExamples.

Module ContainerExamples.
Import ContainerFinder.
Open Scope string_scope.

(** A page: a navigation bar with a link, and a root division that holds two
    user messages, each with an answer next to it. *)
Definition page : Element string :=
  El "body"
     [El "nav" [El "a" []];
      El "div#root"
         [El "div.user-message" [El "p" []];
          El "div.answer" [];
          El "div.user-message" [];
          El "div.answer" []]].

Definition isUserMessage (data : string) : bool :=
  bool_decide (data = "div.user-message").

End ContainerExamples.

(** * Properties *)

(** ** The time records *)

Module ChatTimeFacts.
Import StorageAdapter ChatTimeStorageManager ChatTimeExamples.
Open Scope string_scope.
Open Scope Z_scope.

Ltac run_op :=
  unfold result, after, bind, ret, getAllRecords, get, set in *; simpl in *.

Lemma allOf_Area (o : option records) (n : nat) :
  allOf (Area o n) = default ∅ o.
Proof. by destruct o. Qed.

Ltac solve_member :=
  repeat case_bool_decide; try done; exfalso;
  match goal with
  | Hin : ?k ∈ _ :: _, Hn : ¬ ?k ∈ _ |- _ =>
      apply elem_of_cons in Hin as [?|?]; done
  | Hin : ?k ∈ _, Hn : ¬ ?k ∈ _ :: _ |- _ => apply Hn; by right
  end.

Section Sweep.
Context {A : Type} (P : string → A → bool).

Local Abbreviation sweep := (sweep P).

Lemma sweep_spec (l : list (string * A)) :
  NoDup l.*1 →
  ∀ (cur : gmap string A) (cnt : Z),
    (∀ k v, (k, v) ∈ l → cur !! k = Some v) →
    let r := foldl sweep (cur, cnt) l in
    (∀ k, r.1 !! k =
          match cur !! k with
          | Some v => if P k v && bool_decide (k ∈ l.*1) then None else Some v
          | None => None
          end)
    ∧ Z.of_nat (size cur) = Z.of_nat (size r.1) + (r.2 - cnt)
    ∧ cnt ≤ r.2.
Proof.
  induction l as [|[k0 v0] l IH]; intros Hnd cur cnt Hin; simpl.
  - split_and!; [|lia|lia]. intros k. destruct (cur !! k); [|done].
    by rewrite andb_false_r.
  - apply NoDup_cons in Hnd as [Hk0 Hnd].
    assert (Hcur0 : cur !! k0 = Some v0) by (apply Hin; left).
    assert (Hs : sweep (cur, cnt) (k0, v0)
                 = if P k0 v0 then (delete k0 cur, cnt + 1) else (cur, cnt))
      by done.
    rewrite Hs. clear Hs. destruct (P k0 v0) eqn:HP.
    + destruct (IH Hnd (delete k0 cur) (cnt + 1)) as (IH1 & IH2 & IH3).
      { intros k v Hkv. rewrite lookup_delete_ne.
        - apply Hin. by right.
        - intros <-. apply Hk0. apply list_elem_of_fmap. by exists (k0, v). }
      split_and!.
      * intros k. rewrite IH1. destruct (decide (k = k0)) as [->|Hne].
        -- rewrite lookup_delete_eq, Hcur0, HP. simpl.
           case_bool_decide as Hd; [done|]. exfalso. apply Hd. left.
        -- rewrite lookup_delete_ne by done. destruct (cur !! k); [|done].
           destruct (P k a); [|done]. simpl.
           solve_member.
      * rewrite map_size_delete_Some in IH2 by eauto.
        assert (size cur ≠ 0%nat).
        { intros Hz%map_size_empty_inv. subst. by rewrite lookup_empty in Hcur0. }
        lia.
      * lia.
    + destruct (IH Hnd cur cnt) as (IH1 & IH2 & IH3).
      { intros k v Hkv. apply Hin. by right. }
      split_and!; [|done|done].
      intros k. rewrite IH1. destruct (cur !! k) eqn:Hk; [|done].
      destruct (P k a) eqn:HPk; [|done]. simpl.
      destruct (decide (k = k0)) as [->|Hne]; [congruence|].
      solve_member.
Qed.

(** Sweeping all the entries of a map deletes exactly those that [P] selects. *)
Lemma sweep_all (m : gmap string A) :
  let r := foldl sweep (m, 0) (map_to_list m) in
  r.1 = filter (λ kv, P kv.1 kv.2 = false) m
  ∧ Z.of_nat (size m) = Z.of_nat (size r.1) + r.2
  ∧ 0 ≤ r.2.
Proof.
  destruct (sweep_spec (map_to_list m) (NoDup_fst_map_to_list m) m 0)
    as (H1 & H2 & H3).
  { intros k v. apply elem_of_map_to_list. }
  simpl in *. split_and!; [|lia|done].
  apply map_eq. intros k. rewrite H1, map_lookup_filter.
  destruct (m !! k) as [v|] eqn:Hk; simpl; [|done].
  case_bool_decide as Hd.
  - rewrite andb_true_r. destruct (P k v) eqn:HP.
    + rewrite option_guard_False; [done|]. simpl. congruence.
    + rewrite option_guard_True; done.
  - exfalso. apply Hd. apply list_elem_of_fmap. exists (k, v). split; [done|].
    by apply elem_of_map_to_list.
Qed.
End Sweep.

Lemma foldl_keys {A} (f : gmap string A * Z → string → gmap string A * Z)
    (l : list (string * A)) acc :
  foldl f acc l.*1 = foldl (λ a kv, f a kv.1) acc l.
Proof. revert acc. induction l as [|x l IH]; intros acc; simpl; [done|apply IH]. Qed.

Lemma foldl_ext_fun {A B} (f g : A → B → A) l a :
  (∀ a b, f a b = g a b) → foldl f a l = foldl g a l.
Proof. intros E. revert a. induction l as [|x l IH]; intros a; simpl; [done|]. by rewrite E, IH. Qed.

(** The loop of [cleanupTempIds] deletes exactly the temporary ids. *)
Lemma cleanupTempIds_loop (ns : gmap string Z) :
  let r := foldl (λ '(cur, cnt) nodeId,
                    if isTempId nodeId then (delete nodeId cur, cnt + 1)
                    else (cur, cnt))
                 (ns, 0) (Object_keys ns) in
  (∀ id, r.1 !! id = if isTempId id then None else ns !! id)
  ∧ Z.of_nat (size ns) = Z.of_nat (size r.1) + r.2
  ∧ 0 ≤ r.2.
Proof.
  unfold Object_keys. rewrite foldl_keys.
  rewrite (foldl_ext_fun _ (sweep (λ k _, isTempId k))).
  2:{ intros [cur cnt] [k v]. unfold sweep. simpl. by destruct (isTempId k). }
  destruct (sweep_all (λ k (_ : Z), isTempId k) ns) as (H1 & H2 & H3).
  simpl in *. split_and!; [|done|done].
  intros id. rewrite H1, map_lookup_filter.
  destruct (ns !! id) as [v|]; simpl.
  - destruct (isTempId id) eqn:E.
    + rewrite option_guard_False; [done|]. simpl. congruence.
    + by rewrite option_guard_True.
  - by destruct (isTempId id).
Qed.

(** The loop of [cleanup] deletes exactly the inactive conversations. *)
Lemma cleanup_loop now maxAge (all : records) :
  let r := foldl (λ '(cur, cnt) '(convKey, data),
                    if inactive now maxAge data then (delete convKey cur, cnt + 1)
                    else (cur, cnt))
                 (all, 0) (map_to_list all) in
  (∀ k, r.1 !! k = match all !! k with
                   | Some d => if inactive now maxAge d then None else Some d
                   | None => None
                   end)
  ∧ Z.of_nat (size all) = Z.of_nat (size r.1) + r.2
  ∧ 0 ≤ r.2.
Proof.
  rewrite (foldl_ext_fun _ (sweep (λ _ d, inactive now maxAge d))).
  2:{ intros [cur cnt] [k v]. unfold sweep. simpl. by destruct (inactive _ _ v). }
  destruct (sweep_all (λ _ d, inactive now maxAge d) all) as (H1 & H2 & H3).
  simpl in *. split_and!; [|done|done].
  intros k. rewrite H1, map_lookup_filter.
  destruct (all !! k) as [v|]; simpl; [|done].
  destruct (inactive now maxAge v) eqn:E.
  - rewrite option_guard_False; [done|]. simpl. congruence.
  - by rewrite option_guard_True.
Qed.

(** *** The temporary-id pattern *)

Lemma matchDigits_spec (s : string) :
  matchDigits s = true ↔ s ≠ "" ∧ allChars isDigit s = true.
Proof.
  induction s as [|c s IH]; simpl; [by split; [|intros []]|].
  destruct s as [|c' s].
  - simpl. rewrite andb_true_r. split; [done|]. by intros [].
  - rewrite andb_true_iff, IH. split.
    + intros (? & _ & ?). split; [done|]. by apply andb_true_iff.
    + intros [_ (? & ?)%andb_true_iff]. done.
Qed.

Lemma matchLetters_spec (seen : bool) (s : string) :
  matchLetters seen s = true ↔
  ∃ letters digits,
    s = letters +:+ String "-" digits
    ∧ (seen = true ∨ letters ≠ "") ∧ allChars isLetter letters = true
    ∧ digits ≠ "" ∧ allChars isDigit digits = true.
Proof.
  revert seen. induction s as [|c s IH]; intros seen; simpl.
  - split; [done|]. intros (l & d & H & _). by destruct l.
  - destruct (isLetter c) eqn:Hc.
    + rewrite IH. split.
      * intros (l & d & -> & _ & Hl & Hd1 & Hd2). exists (String c l), d.
        split_and!; [done|by right|by simpl; rewrite Hc|done|done].
      * intros (l & d & H & _ & Hl & Hd1 & Hd2). destruct l as [|c' l].
        -- simpl in H. injection H as -> _. done.
        -- simpl in H. injection H as <- ->. simpl in Hl.
           apply andb_true_iff in Hl as [_ Hl]. exists l, d.
           split_and!; [done|by left|done|done|done].
    + destruct (Ascii.eqb_spec c "-") as [->|Hne].
      * rewrite andb_true_iff, matchDigits_spec. split.
        -- intros (-> & Hd1 & Hd2). exists "", s.
           split_and!; [done|by left|done|done|done].
        -- intros (l & d & H & Hs & Hl & Hd1 & Hd2). destruct l as [|c' l].
           ++ simpl in H. injection H as ->. destruct Hs as [->|?]; done.
           ++ simpl in H. injection H as <- _. simpl in Hl. first [done | by rewrite Hc in Hl].
      * split; [done|]. intros (l & d & H & _ & Hl & _). destruct l as [|c' l].
        -- simpl in H. injection H as -> _. done.
        -- simpl in H. injection H as <- _. simpl in Hl. first [done | by rewrite Hc in Hl].
Qed.

(** [isTempId] decides the pattern [/^[a-z]+-\d+$/i]. *)
Lemma isTempId_spec (nodeId : string) : isTempId nodeId = true ↔ TempIdPattern nodeId.
Proof.
  unfold isTempId, TempIdPattern. rewrite matchLetters_spec. split.
  - intros (l & d & H & [?|?] & Hl & Hd1 & Hd2); [done|]. by exists l, d.
  - intros (l & d & H & ? & Hl & Hd1 & Hd2). exists l, d.
    split_and!; [done|by right|done|done|done].
Qed.

(** *** updateLastVisit *)

(** Where [updateLastVisit] does what its documentation says.  It changes
    [lastVisit] of a record that exists and of nothing else.  For an empty
    key, and for a key without a record that names no inherited property, it
    returns [false] and calls no [set].  For every key it adds no
    conversation: without a record for the key the records stay as they
    are. *)
Theorem updateLastVisit_never_creates (now : Z) (k : string) (st : storage) :
  (k = "" ∨ (allOf st !! k = None ∧ JS.inherited k = false) →
     result (updateLastVisit now k) st = false
     ∧ after (updateLastVisit now k) st = st)
  ∧ (∀ r, k ≠ "" → allOf st !! k = Some r →
     result (updateLastVisit now k) st = true
     ∧ stored (after (updateLastVisit now k) st)
       = Some (<[k := Rec (createTime r) (Some now) (nodes r)]> (allOf st)))
  ∧ (allOf st !! k = None → allOf (after (updateLastVisit now k) st) = allOf st)
  ∧ dom (allOf (after (updateLastVisit now k) st)) = dom (allOf st).
Proof.
  unfold allOf, updateLastVisit.
  destruct k as [|c k]; simpl.
  { run_op. split_and!; done. }
  run_op. destruct st as [o n]; simpl.
  set (all := match o with Some all => all | None => ∅ end).
  destruct (all !! String c k) as [r|] eqn:Hk; simpl.
  - split_and!.
    + intros [?|[? _]]; done.
    + intros r' _ [= <-]. done.
    + done.
    + apply dom_insert_lookup_L. eauto.
  - destruct (JS.inherited (String c k)) eqn:Hin; simpl.
    + split_and!; [|done|done|done]. intros [?|[_ ?]]; done.
    + split_and!; done.
Qed.

Lemma updateLastVisit_never_creates_witness :
  result (updateLastVisit 999 "chat.example/c/2") store1 = false
  ∧ after (updateLastVisit 999 "chat.example/c/2") store1 = store1.
Proof.
  apply (proj1 (updateLastVisit_never_creates 999 "chat.example/c/2" store1)).
  right. split; reflexivity.
Defined.


(** *** setCreateTime *)

Lemma setCreateTime_other (k k' : string) (ts : Z) (st : storage) :
  k' ≠ k → allOf (after (setCreateTime k ts) st) !! k' = allOf st !! k'.
Proof.
  intros Hne. unfold allOf, setCreateTime.
  destruct k as [|c k]; simpl; [done|].
  run_op. destruct st as [o n]; simpl.
  set (all := match o with Some all => all | None => ∅ end).
  destruct (all !! String c k) as [r|]; simpl.
  - destruct (JS.truthyOptNum (createTime r)); simpl; [done|].
    by rewrite lookup_insert_ne.
  - destruct (JS.inherited (String c k)); simpl; [done|].
    by rewrite lookup_insert_ne.
Qed.

Lemma setCreateTime_set (k : string) (ts : Z) (st : storage) r t :
  allOf st !! k = Some r → createTime r = Some t → t ≠ 0 →
  result (setCreateTime k ts) st = false ∧ after (setCreateTime k ts) st = st.
Proof.
  intros Hk Hc Ht. unfold allOf, setCreateTime in *.
  destruct k as [|c k]; simpl; [done|].
  run_op. destruct st as [[all|] n]; simpl in *.
  - rewrite Hk. simpl. rewrite Hc. simpl.
    apply JS.truthyNum_true in Ht. by rewrite Ht.
  - by rewrite lookup_empty in Hk.
Qed.

(** C6, as amended. When [createTime] of a conversation holds a number
    other than [0], [setCreateTime] on it returns [false] and leaves the
    storage area as it is, and no sequence of [setCreateTime] calls, on
    this or other conversations, changes the record. *)
Theorem setCreateTime_write_once (k : string) (st : storage)
    (r : ConversationTimeRecord) (t : Z) :
  allOf st !! k = Some r → createTime r = Some t → t ≠ 0 →
  (∀ ts, result (setCreateTime k ts) st = false
         ∧ after (setCreateTime k ts) st = st)
  ∧ (∀ calls, allOf (setCreateTimes calls st) !! k = Some r).
Proof.
  intros Hk Hc Ht. split.
  - intros ts. by eapply setCreateTime_set.
  - intros calls. revert st Hk.
    induction calls as [|[k' ts] calls IH]; intros st Hk; simpl; [done|].
    apply IH. destruct (decide (k' = k)) as [->|Hne].
    + by rewrite (proj2 (setCreateTime_set k ts st r t Hk Hc Ht)).
    + by rewrite setCreateTime_other.
Qed.

Lemma setCreateTime_write_once_witness :
  (∀ ts, result (setCreateTime "chat.example/c/1" ts) store1 = false
         ∧ after (setCreateTime "chat.example/c/1" ts) store1 = store1)
  ∧ (∀ calls, allOf (setCreateTimes calls store1) !! "chat.example/c/1"
              = Some (Rec (Some 100) (Some 200) (Some {[ "gemini-0" := 150 ]}))).
Proof.
  apply (setCreateTime_write_once "chat.example/c/1" store1 _ 100);
    [reflexivity | reflexivity | lia].
Defined.

(** C6 as stated fails: [createTime] is set to the non-null value [0], yet
    [setCreateTime] returns [true] and overwrites it. *)
Lemma setCreateTime_overwrites_zero :
  (createTime <$> allOf storeZero !! "chat.example/c/1") = Some (Some 0)
  ∧ result (setCreateTime "chat.example/c/1" 1700000000000) storeZero = true
  ∧ (createTime <$> allOf (after (setCreateTime "chat.example/c/1" 1700000000000) storeZero)
                      !! "chat.example/c/1") = Some (Some 1700000000000).
Proof. vm_compute. done. Qed.

(** *** migrateNodeId *)

Lemma put_ne {A} (name : string) (v : A) (o : gmap string A) :
  name ≠ "__proto__" → JS.put name v o = <[name := v]> o.
Proof.
  intros Hne. unfold JS.put. destruct (o !! name); [done|].
  by rewrite bool_decide_eq_false_2.
Qed.

Lemma lookup_put_ne {A} (name id : string) (v : A) (o : gmap string A) :
  id ≠ name → JS.put name v o !! id = o !! id.
Proof.
  intros Hne. unfold JS.put. destruct (o !! name).
  - by rewrite lookup_insert_ne.
  - destruct (bool_decide _); [done|]. by rewrite lookup_insert_ne.
Qed.

Lemma inherited_proto : JS.inherited "__proto__" = true.
Proof. reflexivity. Qed.

Lemma migrateNodeId_true (k t r : string) (st : storage) :
  result (migrateNodeId k t r) st = true → JS.inherited t = false →
  ∃ rec ns ts,
    k ≠ "" ∧ t ≠ "" ∧ r ≠ ""
    ∧ allOf st !! k = Some rec ∧ nodes rec = Some ns ∧ ns !! t = Some ts
    ∧ after (migrateNodeId k t r) st
      = Area (Some (<[k := withNodes (JS.put r ts (delete t ns)) rec]> (allOf st)))
             (S (setCalls st)).
Proof.
  unfold migrateNodeId.
  destruct k as [|c k]; [done|]. destruct t as [|c1 t]; [done|].
  destruct r as [|c2 r]; [done|]. simpl.
  unfold allOf. run_op. destruct st as [o n]. simpl.
  set (all := match o with Some all => all | None => ∅ end).
  destruct (all !! String c k) as [rec|] eqn:Hk; [|done]. simpl.
  destruct (nodes rec) as [ns|] eqn:Hn; [|done]. simpl.
  destruct (ns !! String c1 t) as [ts|] eqn:Ht; simpl.
  - intros _ _. exists rec, ns, ts. split_and!; done.
  - intros H Hin. rewrite Hin in H. done.
Qed.

(** The run that finds an entry of the object's own under [t]. *)
Lemma migrateNodeId_own (k t r : string) (st : storage)
    (rec : ConversationTimeRecord) (ns : gmap string Z) (ts : Z) :
  k ≠ "" → t ≠ "" → r ≠ "" → allOf st !! k = Some rec → nodes rec = Some ns →
  ns !! t = Some ts →
  migrateNodeId k t r st
  = (true, Area (Some (<[k := withNodes (JS.put r ts (delete t ns)) rec]> (allOf st)))
                (S (setCalls st))).
Proof.
  intros Hk Ht Hr Hrec Hns Hts. unfold migrateNodeId, allOf in *.
  destruct k as [|c k]; [done|]. destruct r as [|c2 r]; [done|].
  destruct t as [|c1 t]; [done|]. simpl.
  run_op. destruct st as [o n]. simpl in *.
  rewrite Hrec. simpl. rewrite Hns. simpl. rewrite Hts. done.
Qed.

(** A run that returns [true] had three non-empty arguments. *)
Lemma migrateNodeId_args (k t r : string) (st : storage) :
  result (migrateNodeId k t r) st = true → k ≠ "" ∧ t ≠ "" ∧ r ≠ "".
Proof.
  unfold migrateNodeId.
  destruct k as [|c k]; [done|]. destruct t as [|c1 t]; [done|].
  destruct r as [|c2 r]; done.
Qed.

(** The run that moves an inherited function: the entry under [r] is
    lost. *)
Lemma migrateNodeId_inherited (k t r : string) (st : storage)
    (rec : ConversationTimeRecord) (ns : gmap string Z) :
  k ≠ "" → r ≠ "" → allOf st !! k = Some rec → nodes rec = Some ns →
  ns !! t = None → JS.inherited t = true →
  migrateNodeId k t r st
  = (true, Area (Some (<[k := withNodes (delete r ns) rec]> (allOf st)))
                (S (setCalls st))).
Proof.
  intros Hk Hr Hrec Hns Ht Hin. unfold migrateNodeId, allOf in *.
  destruct k as [|c k]; [done|]. destruct r as [|c2 r]; [done|].
  destruct t as [|c1 t]; [done|]. simpl.
  run_op. destruct st as [o n]. simpl in *.
  rewrite Hrec. simpl. rewrite Hns. simpl. rewrite Ht, Hin. done.
Qed.

Lemma migrateNodeId_false (k t r : string) (st : storage) :
  result (migrateNodeId k t r) st = false → after (migrateNodeId k t r) st = st.
Proof.
  unfold migrateNodeId.
  destruct (negb (JS.truthyStr k) || negb (JS.truthyStr t) || negb (JS.truthyStr r));
    [done|].
  run_op. destruct st as [o n]. simpl.
  destruct (match o with Some all => all | None => ∅ end !! k) as [rec|]; [|done].
  simpl. destruct (nodes rec) as [ns|]; [|done]. simpl.
  destruct (ns !! t); [done|]. by destruct (JS.inherited t).
Qed.

Lemma migrateNodeId_absent (k t r : string) (st : storage) rec ns :
  allOf st !! k = Some rec → nodes rec = Some ns → ns !! t = None →
  JS.inherited t = false →
  result (migrateNodeId k t r) st = false.
Proof.
  unfold migrateNodeId, allOf.
  destruct (negb (JS.truthyStr k) || negb (JS.truthyStr t) || negb (JS.truthyStr r));
    [done|].
  run_op. destruct st as [o n]. simpl. intros -> -> -> ->. done.
Qed.

(** Where [migrateNodeId] does what its documentation says.  For a
    [tempId] that names no inherited property, running [migrateNodeId] a
    second time with the same arguments leaves the stored records as the
    first run left them.  A successful first run stores under [realId] the
    timestamp that was under [tempId] (nothing is stored under [__proto__]);
    when [tempId] and [realId] differ it removes the [tempId] entry, and the
    second run returns [false] and changes nothing. *)
Theorem migrateNodeId_idempotent (k tempId realId : string) (st : storage) :
  JS.inherited tempId = false →
  let st1 := after (migrateNodeId k tempId realId) st in
  stored (after (migrateNodeId k tempId realId) st1) = stored st1
  ∧ (result (migrateNodeId k tempId realId) st = true →
     ∃ rec ns ns1 ts,
       allOf st !! k = Some rec ∧ nodes rec = Some ns ∧ ns !! tempId = Some ts
       ∧ allOf st1 !! k = Some (Rec (createTime rec) (lastVisit rec) (Some ns1))
       ∧ (realId ≠ "__proto__" → ns1 !! realId = Some ts)
       ∧ (∀ id, id ≠ tempId → id ≠ realId → ns1 !! id = ns !! id)
       ∧ (tempId ≠ realId →
          ns1 !! tempId = None
          ∧ result (migrateNodeId k tempId realId) st1 = false
          ∧ after (migrateNodeId k tempId realId) st1 = st1)).
Proof.
  intros Hown st1.
  assert (Htp : tempId ≠ "__proto__") by (intros ->; by rewrite inherited_proto in Hown).
  destruct (result (migrateNodeId k tempId realId) st) eqn:Hres.
  - destruct (migrateNodeId_true _ _ _ _ Hres Hown)
      as (rec & ns & ts & Hk & Ht & Hr & Hrec & Hns & Hts & Hafter).
    set (ns1 := JS.put realId ts (delete tempId ns)) in *.
    assert (Hst1 : allOf st1 !! k = Some (withNodes ns1 rec)).
    { unfold st1. rewrite Hafter, allOf_Area. simpl. apply lookup_insert_eq. }
    split.
    + destruct (decide (tempId = realId)) as [<-|Hne].
      * assert (Hns1 : ns1 = <[tempId := ts]> (delete tempId ns))
          by (unfold ns1; by apply put_ne).
        destruct (result (migrateNodeId k tempId tempId) st1) eqn:Hres2.
        -- destruct (migrateNodeId_true _ _ _ _ Hres2 Hown)
             as (rec2 & ns2 & ts2 & _ & _ & _ & Hrec2 & Hns2 & Hts2 & Hafter2).
           rewrite Hst1 in Hrec2. injection Hrec2 as <-. simpl in Hns2.
           injection Hns2 as <-. rewrite Hns1 in Hts2.
           rewrite lookup_insert_eq in Hts2. injection Hts2 as <-.
           rewrite Hafter2. unfold st1 at 2. rewrite Hafter. simpl. f_equal.
           unfold st1. rewrite Hafter, allOf_Area. simpl.
           rewrite insert_insert_eq. f_equal. unfold withNodes. simpl. f_equal.
           f_equal. rewrite (put_ne tempId) by done. rewrite Hns1.
           by rewrite delete_insert_eq, delete_delete_eq.
        -- by rewrite (migrateNodeId_false _ _ _ _ Hres2).
      * rewrite (migrateNodeId_false k tempId realId st1); [done|].
        eapply migrateNodeId_absent; [exact Hst1|done| |done].
        unfold ns1. rewrite lookup_put_ne by done. apply lookup_delete_eq.
    + intros _. exists rec, ns, ns1, ts. split_and!; try done.
      * intros Hrp. unfold ns1. rewrite put_ne by done. apply lookup_insert_eq.
      * intros id H1 H2. unfold ns1.
        rewrite lookup_put_ne by done. by rewrite lookup_delete_ne.
      * intros Hne.
        assert (Habs : ns1 !! tempId = None).
        { unfold ns1. rewrite lookup_put_ne by done. apply lookup_delete_eq. }
        assert (Hf : result (migrateNodeId k tempId realId) st1 = false)
          by (eapply migrateNodeId_absent; [exact Hst1|done|done|done]).
        split_and!; [done|done|]. by apply migrateNodeId_false.
  - split; [|done]. unfold st1.
    rewrite (migrateNodeId_false _ _ _ _ Hres).
    by rewrite (migrateNodeId_false _ _ _ _ Hres).
Qed.

Lemma migrateNodeId_idempotent_witness :
  let st1 := after (migrateNodeId "chat.example/c/1" "gemini-0" "gemini-r_abc") store1 in
  ∃ rec ns ns1 ts,
    allOf store1 !! "chat.example/c/1" = Some rec ∧ nodes rec = Some ns
    ∧ ns !! "gemini-0" = Some ts
    ∧ allOf st1 !! "chat.example/c/1"
      = Some (Rec (createTime rec) (lastVisit rec) (Some ns1))
    ∧ ("gemini-r_abc" ≠ "__proto__" → ns1 !! "gemini-r_abc" = Some ts)
    ∧ (∀ id, id ≠ "gemini-0" → id ≠ "gemini-r_abc" → ns1 !! id = ns !! id)
    ∧ ("gemini-0" ≠ "gemini-r_abc" →
       ns1 !! "gemini-0" = None
       ∧ result (migrateNodeId "chat.example/c/1" "gemini-0" "gemini-r_abc") st1 = false
       ∧ after (migrateNodeId "chat.example/c/1" "gemini-0" "gemini-r_abc") st1 = st1).
Proof.
  apply (proj2 (migrateNodeId_idempotent
                  "chat.example/c/1" "gemini-0" "gemini-r_abc" store1 eq_refl)).
  reflexivity.
Defined.


(** Two more departures.  When [tempId] and [realId] are the same string,
    the first run succeeds, the [tempId] entry is still there afterwards, and
    the second run succeeds again and writes again.  When [realId] is
    [__proto__], the first run succeeds and deletes the [tempId] entry, but
    no timestamp is stored under [realId]. *)
Example migrateNodeId_same_id :
  (let st1 := after (migrateNodeId "chat.example/c/1" "gemini-0" "gemini-0") store1 in
   result (migrateNodeId "chat.example/c/1" "gemini-0" "gemini-0") store1 = true
   ∧ nodeTime st1 "chat.example/c/1" "gemini-0" = Some 150
   ∧ result (migrateNodeId "chat.example/c/1" "gemini-0" "gemini-0") st1 = true
   ∧ setCalls (after (migrateNodeId "chat.example/c/1" "gemini-0" "gemini-0") st1)
     = S (setCalls st1))
  ∧ (let st1 := after (migrateNodeId "chat.example/c/1" "gemini-0" "__proto__") store1 in
     result (migrateNodeId "chat.example/c/1" "gemini-0" "__proto__") store1 = true
     ∧ nodeTime st1 "chat.example/c/1" "gemini-0" = None
     ∧ nodeTime st1 "chat.example/c/1" "__proto__" = None).
Proof. vm_compute. done. Qed.

(** *** cleanupTempIds *)

(** What [cleanupTempIds] computes on a conversation that has a [nodes]
    map. *)
Lemma cleanupTempIds_run (k : string) (st : storage)
    (r : ConversationTimeRecord) (ns : gmap string Z) :
  k ≠ "" → allOf st !! k = Some r → nodes r = Some ns →
  let ns' := filter (λ kv, isTempId kv.1 = false) ns in
  let n := Z.of_nat (size ns) - Z.of_nat (size ns') in
  0 ≤ n
  ∧ cleanupTempIds k st
    = (n, if 0 <? n
          then Area (Some (<[k := withNodes ns' r]> (allOf st))) (S (setCalls st))
          else st).
Proof.
  intros Hk Hr Hns ns' n. subst ns' n. unfold cleanupTempIds, allOf in *.
  destruct k as [|c k]; [done|]. simpl.
  run_op. destruct st as [o cnt]. simpl in *.
  rewrite Hr. simpl. rewrite Hns. simpl.
  destruct (cleanupTempIds_loop ns) as (H1 & H2 & H3). simpl in *.
  destruct (foldl _ (ns, 0) (Object_keys ns)) as [ns' cleaned] eqn:Hloop.
  simpl in *.
  assert (ns' = filter (λ kv, isTempId kv.1 = false) ns) as ->.
  { apply map_eq. intros id. rewrite H1, map_lookup_filter.
    destruct (ns !! id) as [v|]; simpl.
    - destruct (isTempId id) eqn:E.
      + rewrite option_guard_False; [done|]. simpl. congruence.
      + by rewrite option_guard_True.
    - by destruct (isTempId id). }
  assert (cleaned
          = Z.of_nat (size ns)
            - Z.of_nat (size (filter (λ kv, isTempId kv.1 = false) ns))) as <- by lia.
  split; [done|]. by destruct (0 <? cleaned).
Qed.

(** C10. On a conversation that has a record with a [nodes] map,
    [cleanupTempIds] removes exactly the entries whose key matches
    [/^[a-z]+-\d+$/i], returns how many it removed, keeps the other entries,
    [createTime], [lastVisit] and every other conversation, and calls
    [set] once if it removed something and not at all otherwise. *)
Theorem cleanupTempIds_exact (k : string) (st : storage)
    (r : ConversationTimeRecord) (ns : gmap string Z) :
  k ≠ "" → allOf st !! k = Some r → nodes r = Some ns →
  let st' := after (cleanupTempIds k) st in
  let n := result (cleanupTempIds k) st in
  ∃ ns',
    allOf st' !! k = Some (Rec (createTime r) (lastVisit r) (Some ns'))
    ∧ (∀ id, ns' !! id = if isTempId id then None else ns !! id)
    ∧ Z.of_nat (size ns) = Z.of_nat (size ns') + n
    ∧ 0 ≤ n
    ∧ (∀ k', k' ≠ k → allOf st' !! k' = allOf st !! k')
    ∧ (n = 0 → st' = st)
    ∧ (0 < n → setCalls st' = S (setCalls st)).
Proof.
  intros Hk Hr Hns st' n. subst st' n.
  destruct (cleanupTempIds_run k st r ns Hk Hr Hns) as [Hpos Hrun].
  unfold result, after. rewrite Hrun. simpl.
  set (ns' := filter (λ kv, isTempId kv.1 = false) ns) in *.
  set (n := Z.of_nat (size ns) - Z.of_nat (size ns')) in *.
  assert (Hlook : ∀ id, ns' !! id = if isTempId id then None else ns !! id).
  { intros id. unfold ns'. rewrite map_lookup_filter.
    destruct (ns !! id) as [v|]; simpl.
    - destruct (isTempId id) eqn:E.
      + rewrite option_guard_False; [done|]. simpl. congruence.
      + by rewrite option_guard_True.
    - by destruct (isTempId id). }
  exists ns'. destruct (Z.ltb_spec 0 n) as [Hn|Hn].
  - rewrite allOf_Area. simpl. split_and!; [|done|unfold n; lia|done| |lia|done].
    + by rewrite lookup_insert_eq.
    + intros k' Hne. by rewrite lookup_insert_ne.
  - assert (Heq : ns' = ns).
    { apply map_subseteq_size_eq; [apply map_filter_subseteq|]. unfold n in Hn. lia. }
    split_and!; [|done|unfold n; lia|done|done|done|lia].
    rewrite Hr, Heq. f_equal. destruct r; simpl in *. congruence.
Qed.

Lemma cleanupTempIds_exact_witness :
  let st' := after (cleanupTempIds "chat.example/c/1") store2 in
  let n := result (cleanupTempIds "chat.example/c/1") store2 in
  ∃ ns',
    allOf st' !! "chat.example/c/1" = Some (Rec (Some 100) (Some 200) (Some ns'))
    ∧ (∀ id, ns' !! id = if isTempId id then None
                         else (<[ "gemini-0" := 150 ]> {[ "gemini-r_abc" := 120 ]} : gmap string Z) !! id)
    ∧ Z.of_nat (size (<[ "gemini-0" := 150 ]> {[ "gemini-r_abc" := 120 ]} : gmap string Z))
      = Z.of_nat (size ns') + n
    ∧ 0 ≤ n
    ∧ (∀ k', k' ≠ "chat.example/c/1" → allOf st' !! k' = allOf store2 !! k')
    ∧ (n = 0 → st' = store2)
    ∧ (0 < n → setCalls st' = S (setCalls store2)).
Proof.
  apply (cleanupTempIds_exact "chat.example/c/1" store2
           (Rec (Some 100) (Some 200)
                (Some (<[ "gemini-0" := 150 ]> {[ "gemini-r_abc" := 120 ]}))));
    [discriminate | reflexivity | reflexivity].
Defined.

Lemma cleanupTempIds_nothing (k : string) (st : storage) :
  k = "" ∨ allOf st !! k = None ∨ (allOf st !! k ≫= nodes) = None →
  result (cleanupTempIds k) st = 0 ∧ after (cleanupTempIds k) st = st.
Proof.
  unfold cleanupTempIds, allOf. destruct k as [|c k]; simpl; [done|].
  run_op. destruct st as [o cnt]. simpl.
  destruct (match o with Some all => all | None => ∅ end !! String c k) as [r|];
    simpl; [|done].
  destruct (nodes r); [|done]. intros [?|[?|?]]; done.
Qed.

(** *** What the automatic routines remove *)

Lemma updateLastVisit_dom (now : Z) (k : string) (st : storage) :
  dom (allOf (after (updateLastVisit now k) st)) = dom (allOf st).
Proof.
  unfold allOf, updateLastVisit.
  destruct k as [|c k]; simpl; [done|].
  run_op. destruct st as [o n]. simpl.
  destruct (match o with Some all => all | None => ∅ end !! String c k) as [r|] eqn:Hk;
    simpl; [|by destruct (JS.inherited (String c k))].
  apply dom_insert_lookup_L. eauto.
Qed.

Lemma updateLastVisit_nodeTime (now : Z) (k : string) (st : storage) k' id :
  nodeTime (after (updateLastVisit now k) st) k' id = nodeTime st k' id.
Proof.
  unfold nodeTime, allOf, updateLastVisit.
  destruct k as [|c k]; simpl; [done|].
  run_op. destruct st as [o n]. simpl.
  destruct (match o with Some all => all | None => ∅ end !! String c k) as [r|] eqn:Hk;
    simpl; [|by destruct (JS.inherited (String c k))].
  destruct (decide (k' = String c k)) as [->|Hne].
  - by rewrite lookup_insert_eq, Hk.
  - by rewrite lookup_insert_ne.
Qed.

Lemma cleanupTempIds_nodeTime (k : string) (st : storage) k' id :
  nodeTime (after (cleanupTempIds k) st) k' id
  = if JS.truthyStr k && bool_decide (k' = k) && isTempId id then None
    else nodeTime st k' id.
Proof.
  destruct (JS.truthyStr k) eqn:Hk; simpl.
  2:{ destruct k; [|done]. by rewrite (proj2 (cleanupTempIds_nothing "" st (or_introl eq_refl))). }
  apply JS.truthyStr_true in Hk.
  destruct (allOf st !! k) as [r|] eqn:Hr.
  2:{ rewrite (proj2 (cleanupTempIds_nothing k st (or_intror (or_introl Hr)))).
      destruct (decide (k' = k)) as [->|Hne].
      - unfold nodeTime. rewrite Hr. by destruct (_ && _).
      - by rewrite bool_decide_eq_false_2. }
  destruct (nodes r) as [ns|] eqn:Hns.
  2:{ assert (Hnone : k = "" ∨ allOf st !! k = None ∨ allOf st !! k ≫= nodes = None)
        by (right; right; by rewrite Hr).
      rewrite (proj2 (cleanupTempIds_nothing k st Hnone)).
      destruct (decide (k' = k)) as [->|Hne].
      - unfold nodeTime. rewrite Hr, Hns. by destruct (_ && _).
      - by rewrite bool_decide_eq_false_2. }
  destruct (cleanupTempIds_run k st r ns Hk Hr Hns) as [_ Hrun].
  unfold after. rewrite Hrun. simpl.
  destruct (0 <? _) eqn:Hn.
  - unfold nodeTime at 1. rewrite allOf_Area. simpl.
    destruct (decide (k' = k)) as [->|Hne].
    + rewrite bool_decide_eq_true_2 by done. rewrite lookup_insert_eq. simpl.
      unfold nodeTime. rewrite Hr, Hns, map_lookup_filter.
      destruct (ns !! id) as [v|]; simpl.
      * destruct (isTempId id) eqn:E.
        -- rewrite option_guard_False; [done|]. simpl. congruence.
        -- by rewrite option_guard_True.
      * by destruct (isTempId id).
    + rewrite bool_decide_eq_false_2 by done. rewrite lookup_insert_ne by done.
      done.
  - apply Z.ltb_ge in Hn.
    assert (Heq : filter (λ kv, isTempId kv.1 = false) ns = ns).
    { apply map_subseteq_size_eq; [apply map_filter_subseteq|lia]. }
    destruct (decide (k' = k)) as [->|Hne].
    + rewrite bool_decide_eq_true_2 by done. simpl.
      destruct (isTempId id) eqn:E; [|done].
      unfold nodeTime. rewrite Hr, Hns, <- Heq, map_lookup_filter.
      destruct (ns !! id) as [v|]; simpl; [|done].
      rewrite option_guard_False; [done|]. simpl. congruence.
    + by rewrite bool_decide_eq_false_2.
Qed.

Lemma cleanupTempIds_dom (k : string) (st : storage) :
  dom (allOf (after (cleanupTempIds k) st)) = dom (allOf st).
Proof.
  destruct (JS.truthyStr k) eqn:Hk.
  2:{ destruct k; [|done]. by rewrite (proj2 (cleanupTempIds_nothing "" st (or_introl eq_refl))). }
  apply JS.truthyStr_true in Hk.
  destruct (allOf st !! k) as [r|] eqn:Hr.
  2:{ by rewrite (proj2 (cleanupTempIds_nothing k st (or_intror (or_introl Hr)))). }
  destruct (nodes r) as [ns|] eqn:Hns.
  2:{ assert (Hnone : k = "" ∨ allOf st !! k = None ∨ allOf st !! k ≫= nodes = None)
        by (right; right; by rewrite Hr).
      by rewrite (proj2 (cleanupTempIds_nothing k st Hnone)). }
  destruct (cleanupTempIds_run k st r ns Hk Hr Hns) as [_ Hrun].
  unfold after. rewrite Hrun. simpl.
  destruct (0 <? _); [|done].
  rewrite allOf_Area. simpl. apply dom_insert_lookup_L. eauto.
Qed.

(** [setCreateTime] removes nothing. *)
Lemma setCreateTime_keeps (k : string) (ts : Z) (st : storage) :
  dom (allOf st) ⊆ dom (allOf (after (setCreateTime k ts) st))
  ∧ ∀ k' id, nodeTime (after (setCreateTime k ts) st) k' id = nodeTime st k' id.
Proof.
  unfold nodeTime, allOf, setCreateTime.
  destruct k as [|c k]; simpl; [done|].
  run_op. destruct st as [o n]; simpl.
  set (all := match o with Some all => all | None => ∅ end).
  destruct (all !! String c k) as [r|] eqn:Hk; simpl.
  - destruct (JS.truthyOptNum (createTime r)); simpl; [done|]. split.
    + rewrite dom_insert. apply union_subseteq_r.
    + intros k' id. destruct (decide (k' = String c k)) as [->|Hne].
      * by rewrite lookup_insert_eq, Hk.
      * by rewrite lookup_insert_ne.
  - destruct (JS.inherited (String c k)); simpl; [done|]. split.
    + rewrite dom_insert. apply union_subseteq_r.
    + intros k' id. destruct (decide (k' = String c k)) as [->|Hne].
      * by rewrite lookup_insert_eq, Hk.
      * by rewrite lookup_insert_ne.
Qed.

(** [migrateNodeId] removes no conversation, and touches no entry but
    those under the two ids. *)
Lemma migrateNodeId_keeps (k t r : string) (st : storage) :
  dom (allOf (after (migrateNodeId k t r) st)) = dom (allOf st)
  ∧ ∀ k' id, k' ≠ k ∨ (id ≠ t ∧ id ≠ r) →
             nodeTime (after (migrateNodeId k t r) st) k' id = nodeTime st k' id.
Proof.
  unfold nodeTime, allOf, migrateNodeId.
  destruct (negb (JS.truthyStr k) || negb (JS.truthyStr t) || negb (JS.truthyStr r));
    [done|].
  run_op. destruct st as [o n]. simpl.
  set (all := match o with Some all => all | None => ∅ end).
  destruct (all !! k) as [rec|] eqn:Hk; [|done]. simpl.
  destruct (nodes rec) as [ns|] eqn:Hns; [|done]. simpl.
  destruct (ns !! t) as [ts|] eqn:Ht; simpl.
  - split; [apply dom_insert_lookup_L; eauto|].
    intros k' id Hcases. destruct (decide (k' = k)) as [->|Hne].
    + rewrite lookup_insert_eq, Hk. simpl. rewrite Hns.
      destruct Hcases as [?|[H1 H2]]; [done|].
      by rewrite lookup_put_ne, lookup_delete_ne.
    + by rewrite lookup_insert_ne.
  - destruct (JS.inherited t); simpl; [|done].
    split; [apply dom_insert_lookup_L; eauto|].
    intros k' id Hcases. destruct (decide (k' = k)) as [->|Hne].
    + rewrite lookup_insert_eq, Hk. simpl. rewrite Hns.
      destruct Hcases as [?|[H1 H2]]; [done|].
      by rewrite lookup_delete_ne.
    + by rewrite lookup_insert_ne.
Qed.

(** *** cleanup *)

Lemma onLoad_effect (now : Z) (st : storage) :
  let st' := after (onLoad now) st in
  let n := result (onLoad now) st in
  (∀ k, allOf st' !! k =
        match allOf st !! k with
        | Some d => if inactive now 2592000000 d then None else Some d
        | None => None
        end)
  ∧ Z.of_nat (size (allOf st)) = Z.of_nat (size (allOf st')) + n
  ∧ 0 ≤ n
  ∧ (n = 0 → st' = st).
Proof.
  unfold onLoad, cleanup, allOf. run_op. destruct st as [o cnt]. simpl.
  set (all := match o with Some all => all | None => ∅ end).
  destruct (cleanup_loop now (30 * 24 * 60 * 60 * 1000) all) as (H1 & H2 & H3).
  simpl in *.
  destruct (foldl _ (all, 0) (map_to_list all)) as [all' cleaned] eqn:Hloop.
  simpl in *.
  destruct (Z.ltb_spec 0 cleaned) as [Hpos|Hzero]; simpl.
  - split_and!; try done. lia.
  - assert (cleaned = 0) as -> by lia.
    assert (all' = all) as ->.
    { apply map_subseteq_size_eq; [|lia].
      apply map_subseteq_spec. intros i x. rewrite H1.
      destruct (all !! i) as [d|]; [|done]. by destruct (inactive _ _ d). }
    fold all. split_and!; done.
Qed.

End ChatTimeFacts.

(** ** The star collection *)

Module StarFacts.
Import StorageAdapter Turn StarStorageManager StarExamples.
Open Scope string_scope.
Open Scope list_scope.
Open Scope Z_scope.

Ltac run_op := unfold result, after, bind, ret, getAll, get, set in *; simpl in *.

(** Case analysis on a [bool_decide] test of the goal. *)
Ltac by_decide P H :=
  destruct (decide P) as [H|H];
  [rewrite ?(bool_decide_eq_true_2 P H) | rewrite ?(bool_decide_eq_false_2 P H)].

Lemma findIndexFrom_bound {A} (p : A → bool) l i :
  findIndexFrom p l i = -1 ∨ i ≤ findIndexFrom p l i.
Proof.
  revert i. induction l as [|x l IH]; intros i; simpl; [by left|].
  destruct (p x); [right; lia|]. destruct (IH (i + 1)); lia.
Qed.

Lemma findIndexFrom_range {A} (p : A → bool) l :
  findIndexFrom p l 0 = -1 ∨ 0 ≤ findIndexFrom p l 0.
Proof. apply findIndexFrom_bound. Qed.

Lemma findIndexFrom_shift {A} (p : A → bool) l i :
  findIndexFrom p l i
  = if findIndexFrom p l 0 =? -1 then -1 else findIndexFrom p l 0 + i.
Proof.
  revert i. induction l as [|x l IH]; intros i; simpl; [done|].
  destruct (p x); simpl; [done|].
  rewrite (IH (i + 1)), (IH (0 + 1)).
  destruct (findIndexFrom_range p l) as [E|E].
  - by rewrite E.
  - destruct (Z.eqb_spec (findIndexFrom p l 0) (-1)); [lia|].
    destruct (Z.eqb_spec (findIndexFrom p l 0 + (0 + 1)) (-1)); lia.
Qed.

Lemma add_upsert_list (item : StarItem) (l : list StarItem) :
  (let existingIndex := findIndex (λ i, bool_decide (key i = key item)) l in
   if 0 <=? existingIndex then <[Z.to_nat existingIndex := item]> l else l ++ [item])
  = upsert item l.
Proof.
  unfold findIndex. induction l as [|x l IH]; simpl; [done|].
  case_bool_decide as Hx; simpl; [done|].
  rewrite findIndexFrom_shift.
  pose proof (findIndexFrom_range (λ i, bool_decide (key i = key item)) l) as E.
  set (f := findIndexFrom _ l 0) in *.
  destruct E as [E|E].
  - rewrite E in *. simpl in *. by rewrite <- IH.
  - assert ((f =? -1) = false) as -> by lia.
    assert ((0 <=? f + (0 + 1)) = true) as -> by lia.
    assert ((0 <=? f) = true) as Hf by lia.
    rewrite Hf in IH. rewrite <- IH.
    by replace (Z.to_nat (f + (0 + 1))) with (S (Z.to_nat f)) by lia.
Qed.

Lemma add_items (item : StarItem) (st : storage) :
  key item ≠ "" → itemsOf (after (add item) st) = upsert item (itemsOf st).
Proof.
  intros Hk. unfold itemsOf, add. destruct (key item) eqn:E; [done|]. simpl.
  rewrite <- E. run_op. rewrite <- add_upsert_list. simpl.
  by destruct (0 <=? _).
Qed.
Lemma upsert_keys (item : StarItem) (l : list StarItem) :
  key <$> upsert item l
  = if bool_decide (key item ∈ key <$> l) then key <$> l
    else (key <$> l) ++ [key item].
Proof.
  induction l as [|x l IH]; [done|].
  cbn [upsert]. rewrite fmap_cons.
  destruct (decide (key x = key item)) as [E|E].
  - rewrite (bool_decide_eq_true_2 _ E). rewrite !fmap_cons.
    rewrite bool_decide_eq_true_2 by (rewrite E; left). by rewrite E.
  - rewrite (bool_decide_eq_false_2 _ E). rewrite fmap_cons, IH.
    destruct (decide (key item ∈ key <$> l)) as [Hin|Hin].
    + rewrite (bool_decide_eq_true_2 _ Hin).
      by rewrite bool_decide_eq_true_2 by (by right).
    + rewrite (bool_decide_eq_false_2 _ Hin).
      rewrite bool_decide_eq_false_2; [done|].
      intros [?|?]%elem_of_cons; [congruence|done].
Qed.

Lemma upsert_NoDup (item : StarItem) (l : list StarItem) :
  NoDup (key <$> l) → NoDup (key <$> upsert item l).
Proof.
  intros Hnd. rewrite upsert_keys. by_decide (key item ∈ key <$> l) Hin; [done|].
  apply NoDup_app. split_and!; [done| |apply NoDup_singleton].
  intros k Hk ->%list_elem_of_singleton. done.
Qed.

Lemma upsert_lookup (k : string) (item : StarItem) (l : list StarItem) :
  lookupKey k (upsert item l)
  = if bool_decide (key item = k) then Some item else lookupKey k l.
Proof.
  unfold lookupKey. induction l as [|x l IH]; cbn [upsert List.find].
  - by by_decide (key item = k) E.
  - by_decide (key x = key item) Hx; cbn [List.find].
    + rewrite <- Hx. by by_decide (key x = k) E.
    + rewrite IH. by_decide (key x = k) E; [|done].
      by_decide (key item = k) E'; [congruence|done].
Qed.

Lemma upsert_new (item : StarItem) (l : list StarItem) :
  key item ∉ key <$> l → upsert item l = l ++ [item].
Proof.
  induction l as [|x l IH]; simpl; [done|]. intros Hn.
  rewrite bool_decide_eq_false_2.
  - rewrite IH; [done|]. intros ?. apply Hn. by right.
  - intros E. apply Hn. rewrite E. left.
Qed.

Lemma upsert_in_place (item old : StarItem) (l : list StarItem) (i : nat) :
  NoDup (key <$> l) → l !! i = Some old → key old = key item →
  upsert item l = <[i := item]> l.
Proof.
  revert i. induction l as [|x l IH]; intros i Hnd Hi Hk; [done|].
  simpl in Hnd. apply NoDup_cons in Hnd as [Hx Hnd]. simpl.
  destruct i as [|i]; simpl in *.
  - injection Hi as ->. by rewrite bool_decide_eq_true_2.
  - rewrite bool_decide_eq_false_2.
    + by rewrite (IH i).
    + intros E. apply Hx. rewrite E, <- Hk.
      apply list_elem_of_fmap. exists old. split; [done|].
      by eapply list_elem_of_lookup_2.
Qed.

Lemma find_app {A} (p : A → bool) (l1 l2 : list A) :
  List.find p (l1 ++ l2)
  = match List.find p l1 with Some x => Some x | None => List.find p l2 end.
Proof. induction l1 as [|x l1 IH]; simpl; [done|]. by destruct (p x). Qed.

Lemma adds_items (items : list StarItem) (st : storage) :
  Forall (λ it, key it ≠ "") items →
  itemsOf (adds items st) = foldl (λ l it, upsert it l) (itemsOf st) items.
Proof.
  revert st. induction items as [|it items IH]; intros st Hall; simpl; [done|].
  apply Forall_cons in Hall as [Hit Hall].
  rewrite IH by done. by rewrite add_items.
Qed.

Lemma foldl_upsert (items : list StarItem) (l : list StarItem) :
  NoDup (key <$> l) →
  let final := foldl (λ l it, upsert it l) l items in
  NoDup (key <$> final)
  ∧ (∀ k, k ∈ key <$> final ↔ k ∈ key <$> l ∨ k ∈ key <$> items)
  ∧ (∀ k, lookupKey k final
          = match lastWithKey k items with
            | Some it => Some it
            | None => lookupKey k l
            end).
Proof.
  revert l. induction items as [|it items IH]; intros l Hnd; simpl.
  - split_and!; [done| |done]. intros k. split; [by left|].
    intros [?|Hk]; [done|]. by apply elem_of_nil in Hk.
  - destruct (IH (upsert it l) (upsert_NoDup it l Hnd)) as (H1 & H2 & H3).
    split_and!; [done| |].
    + intros k. rewrite H2, upsert_keys. rewrite elem_of_cons.
      by_decide (key it ∈ key <$> l) Hin.
      * split; [intros [?|?]; auto|]. intros [?|[->|?]]; auto.
      * rewrite elem_of_app, list_elem_of_singleton. tauto.
    + intros k. rewrite H3. unfold lastWithKey. simpl.
      unfold lookupKey at 3. rewrite find_app. fold (lookupKey k (rev items)).
      destruct (lookupKey k (rev items)); [done|].
      rewrite upsert_lookup. cbn [List.find]. by by_decide (key it = k) E.
Qed.

(** C5. From a collection with at most one record per key, any sequence
    of [add] calls whose items carry a key leaves exactly one record for
    each key of the collection and of the items; the record of a key is the
    last item added with it, or the original record if none was; an [add]
    with a key that is present replaces that record where it stands, and an
    [add] with a new key appends. *)
Theorem add_one_record_per_key (st : storage) (items : list StarItem) :
  NoDup (key <$> itemsOf st) →
  Forall (λ it, key it ≠ "") items →
  let final := itemsOf (adds items st) in
  NoDup (key <$> final)
  ∧ (∀ k, k ∈ key <$> final ↔ k ∈ key <$> itemsOf st ∨ k ∈ key <$> items)
  ∧ (∀ k, lookupKey k final
          = match lastWithKey k items with
            | Some it => Some it
            | None => lookupKey k (itemsOf st)
            end)
  ∧ (∀ it, key it ≠ "" →
       let final' := itemsOf (after (add it) (adds items st)) in
       (key it ∉ key <$> final → final' = final ++ [it])
       ∧ (∀ i old, final !! i = Some old → key old = key it →
                   final' = <[i := it]> final)).
Proof.
  intros Hnd Hall final. subst final. rewrite adds_items by done.
  destruct (foldl_upsert items (itemsOf st) Hnd) as (H1 & H2 & H3).
  split_and!; [done|done|done|].
  intros it Hit. simpl. rewrite add_items by done. rewrite adds_items by done.
  split.
  - apply upsert_new.
  - intros i old Hi Hk. by eapply upsert_in_place.
Qed.

Lemma add_one_record_per_key_witness :
  let final := itemsOf (adds [starA; starC; starB] (Area None 0)) in
  NoDup (key <$> final)
  ∧ (∀ k, k ∈ key <$> final
          ↔ k ∈ key <$> itemsOf (Area None 0) ∨ k ∈ key <$> [starA; starC; starB])
  ∧ (∀ k, lookupKey k final
          = match lastWithKey k [starA; starC; starB] with
            | Some it => Some it
            | None => lookupKey k (itemsOf (Area None 0))
            end)
  ∧ (∀ it, key it ≠ "" →
       let final' := itemsOf (after (add it) (adds [starA; starC; starB] (Area None 0))) in
       (key it ∉ key <$> final → final' = final ++ [it])
       ∧ (∀ i old, final !! i = Some old → key old = key it →
                   final' = <[i := it]> final)).
Proof.
  apply (add_one_record_per_key (Area None 0) [starA; starC; starB]).
  - apply NoDup_nil_2.
  - repeat constructor; discriminate.
Defined.

(** Scenario C of the design document. *)
Example add_scenario_C :
  itemsOf (adds [starA; starB] (Area None 0)) = [starB].
Proof. reflexivity. Qed.

End StarFacts.

(** ** The lookup of a stored key *)

Module LookupFacts.
Import Turn SidebarStarredManager.
Open Scope string_scope.
Open Scope Z_scope.

Lemma in_range_lookup (markers : list Marker) (n : Z) :
  0 ≤ n < Z.of_nat (length markers) →
  (0 <=? n) && (n <? Z.of_nat (length markers)) = true
  ∧ is_Some (markers !! Z.to_nat n).
Proof.
  intros [H0 H1]. split.
  - apply andb_true_iff. split; [by apply Z.leb_le | by apply Z.ltb_lt].
  - apply lookup_lt_is_Some. lia.
Qed.

Lemma out_of_range (markers : list Marker) (n : Z) :
  ¬ (0 ≤ n < Z.of_nat (length markers)) →
  (0 <=? n) && (n <? Z.of_nat (length markers)) = false.
Proof.
  intros H. apply andb_false_iff.
  destruct (Z.leb_spec 0 n); [|by left].
  destruct (Z.ltb_spec n (Z.of_nat (length markers))); [|by right].
  exfalso. apply H. lia.
Qed.

Lemma doubao_lookup :
  StoredKeyLookup DoubaoAdapter.generateTurnIdFromIndex
                  DoubaoAdapter.findMarkerByStoredIndex.
Proof.
  intros markers markerMap.
  unfold DoubaoAdapter.findMarkerByStoredIndex, DoubaoAdapter.generateTurnIdFromIndex.
  split_and!.
  - intros k m ->. done.
  - intros n -> Hn. destruct (in_range_lookup markers n Hn) as [-> ?]. done.
  - intros n -> Hn. by rewrite out_of_range.
  - intros s ->. done.
  - done.
Qed.

Lemma generic_lookup (generate : NodeKey → string) :
  StoredKeyLookup generate
    (λ k ms mp, findMarkerByNodeKey
                  {| adapter := Some {| findMarkerByStoredIndex := None;
                                        generateTurnIdFromIndex := Some generate |};
                     markers := ms; markerMap := mp |} k).
Proof.
  intros ms mp. unfold findMarkerByNodeKey, byPosition. simpl.
  split_and!.
  - intros k m ->. done.
  - intros n -> Hn. destruct (in_range_lookup ms n Hn) as [-> ?]. done.
  - intros n -> Hn. by rewrite out_of_range.
  - intros s ->. done.
  - done.
Qed.

(** C2. The lookup of a stored key, in the Doubao adapter and in the
    sidebar (through the adapter's own lookup, or through the key derivation
    of an adapter that has no lookup of its own), returns the turn found
    under the derived key; without one, the turn at position [k] when [k] is
    a number with [0 <= k < length markers]; and [null] in every other case. *)
Theorem stored_key_lookup :
  StoredKeyLookup DoubaoAdapter.generateTurnIdFromIndex
                  DoubaoAdapter.findMarkerByStoredIndex
  ∧ StoredKeyLookup DoubaoAdapter.generateTurnIdFromIndex
      (λ k ms mp, findMarkerByNodeKey
                    {| adapter := Some doubao; markers := ms; markerMap := mp |} k)
  ∧ ∀ generate : NodeKey → string,
      StoredKeyLookup generate
        (λ k ms mp, findMarkerByNodeKey
                      {| adapter := Some {| findMarkerByStoredIndex := None;
                                            generateTurnIdFromIndex := Some generate |};
                         markers := ms; markerMap := mp |} k).
Proof.
  split_and!.
  - apply doubao_lookup.
  - intros ms mp. destruct (doubao_lookup ms mp) as (H1 & H2 & H3 & H4 & H5).
    unfold findMarkerByNodeKey. simpl. split_and!; done.
  - apply generic_lookup.
Qed.

(** Without an adapter, or with an adapter that has neither method, only the
    position is tried. *)
Lemma no_adapter_lookup (tm : TimelineManager) (k : option NodeKey) :
  adapter tm ≫= findMarkerByStoredIndex = None →
  adapter tm ≫= generateTurnIdFromIndex = None →
  findMarkerByNodeKey tm k = k ≫= byPosition tm.
Proof. intros H1 H2. unfold findMarkerByNodeKey. destruct k; [|done]. by rewrite H1, H2. Qed.

End LookupFacts.

(** ** The poll for the real id *)

Module RecorderFacts.
Import StorageAdapter ChatTimeStorageManager ChatTimeRecorder ChatTimeExamples RecorderExamples.
Open Scope string_scope.
Open Scope list_scope.
Open Scope Z_scope.

Lemma after_seq {V A B} (m : async V A) (k : async V B) (st : area V) :
  after (m ;;; k) st = after k (after m st).
Proof. unfold after, bind. by destruct (m st). Qed.

Lemma after_ret {V A} (a : A) (st : area V) : after (ret a) st = st.
Proof. done. Qed.

Lemma poll_bounded page key idx c r :
  pendingRecord (_pollForRealId page key idx c r) = None
  ∧ ∃ n, (n ≤ 11 - c)%nat
         ∧ timers (_pollForRealId page key idx c r) = timers r ++ replicate n 500.
Proof.
  funelim (_pollForRealId page key idx c r).
  - split; [done|]. exists 0%nat. split; [lia|]. simpl. by rewrite app_nil_r.
  - split; [done|]. exists 0%nat. split; [lia|]. simpl. by rewrite app_nil_r.
  - split; [done|]. exists 1%nat. split; [lia|]. done.
  - split; [done|]. exists 1%nat. split; [lia|]. done.
  - destruct (negb (endsWith nodeId ("-" +:+ pretty expectedIndex))).
    + split; [done|]. exists 1%nat. split; [lia|].
      unfold _migrateNodeId. by destruct (negb (JS.truthyStr conversationKey)).
    + destruct H as (Hp & n & Hn & Ht). split; [done|].
      exists (S n). split; [lia|]. rewrite Ht. simpl. by rewrite <- app_assoc.
  - destruct (negb (endsWith nodeId ("-" +:+ pretty expectedIndex))).
    + split; [done|]. exists 1%nat. split; [lia|].
      unfold _migrateNodeId. by destruct (negb (JS.truthyStr conversationKey)).
    + destruct H as (Hp & n & Hn & Ht). split; [done|].
      exists (S n). split; [lia|]. rewrite Ht. simpl. by rewrite <- app_assoc.
  - split; [done|]. exists 1%nat. split; [lia|]. done.
Qed.

Lemma poll_past_limit page key idx c r :
  (10 < c)%nat → _pollForRealId page key idx c r = clearPending r.
Proof.
  intros Hc. funelim (_pollForRealId page key idx c r); try done; lia.
Qed.

Lemma poll_exhausted page key idx c r :
  is_Some (pendingRecord r) →
  (∀ i, (c ≤ i ≤ 10)%nat →
        ∃ nodeId, page i = TurnId nodeId
                  ∧ endsWith nodeId ("-" +:+ pretty idx) = true) →
  _pollForRealId page key idx c r
  = Recorder_ None (store r) (timers r ++ replicate (11 - c) 500).
Proof.
  funelim (_pollForRealId page key idx c r); intros Hsome Hpage.
  - rewrite Heq in Hsome. by destruct Hsome.
  - replace (11 - retryCount)%nat with 0%nat by lia. simpl.
    by rewrite app_nil_r.
  - destruct (Hpage retryCount) as (id & Hid & _); [lia|]. congruence.
  - destruct (Hpage retryCount) as (id & Hid & _); [lia|]. congruence.
  - destruct (Hpage retryCount) as (id & Hid & Hend); [lia|].
    rewrite Heq in Hid. injection Hid as <-. rewrite Hend. simpl.
    rewrite H.
    + simpl. f_equal. rewrite <- app_assoc. simpl.
      by replace (11 - retryCount)%nat with (S (11 - (retryCount + 1))) by lia.
    + simpl. by rewrite Heq1.
    + intros i Hi. apply Hpage. lia.
  - destruct (Hpage retryCount) as (id & Hid & _); [lia|]. congruence.
  - destruct (Hpage retryCount) as (id & Hid & _); [lia|]. congruence.
Qed.

(** C3. The poll ends, with the pending record cleared, after at most 11
    timers of 500 ms each; a call whose [retryCount] exceeds 10 sets no timer;
    and when no callback finds a real id, the storage is left as it was, so
    that the timestamp stays under the provisional id. *)
Theorem pollForRealId_gives_up page key idx (r : Recorder) :
  let r' := _pollForRealId page key idx 0 r in
  pendingRecord r' = None
  ∧ (∃ n, (n ≤ 11)%nat ∧ timers r' = timers r ++ replicate n 500)
  ∧ (∀ c, (10 < c)%nat → _pollForRealId page key idx c r = clearPending r)
  ∧ (is_Some (pendingRecord r) → stillProvisional page idx →
     r' = Recorder_ None (store r) (timers r ++ replicate 11 500)).
Proof.
  intros r'. subst r'.
  destruct (poll_bounded page key idx 0 r) as (Hp & n & Hn & Ht).
  split_and!.
  - done.
  - exists n. split; [lia|done].
  - intros c Hc. by apply poll_past_limit.
  - intros Hsome Hpage. rewrite poll_exhausted; [done|done|].
    intros i Hi. apply Hpage. lia.
Qed.

Lemma pollForRealId_gives_up_witness :
  _pollForRealId pageNever "chat.example/c/1" 0 0 recorder0
  = Recorder_ None (store recorder0) (timers recorder0 ++ replicate 11 500).
Proof.
  apply (pollForRealId_gives_up pageNever "chat.example/c/1" 0 recorder0).
  - by eexists.
  - intros i _. exists "gemini-0". split; reflexivity.
Defined.

(** Scenario B of the design document: the real id appears before the fourth
    callback, and the timestamp moves to it. *)
Example poll_scenario_B :
  let r' := _pollForRealId pageThird "chat.example/c/1" 0 0 recorder0 in
  timers r' = [500; 500; 500; 500]
  ∧ pendingRecord r' = None
  ∧ nodeTime (store r') "chat.example/c/1" "gemini-0" = None
  ∧ nodeTime (store r') "chat.example/c/1" "gemini-abc123" = Some 100.
Proof. vm_compute. done. Qed.

(** *** The routines that run without the user *)

Lemma init_nodeTime chatTimes stable (key : string) (now : Z) (st : storage) k' id :
  nodeTime (after (init chatTimes stable key now) st) k' id
  = if chatTimes && stable && JS.truthyStr key && bool_decide (k' = key) && isTempId id
    then None
    else nodeTime st k' id.
Proof.
  unfold init. destruct chatTimes; simpl; [|done].
  destruct (JS.truthyStr key) eqn:Hk; simpl.
  2:{ by rewrite andb_false_r. }
  destruct stable; simpl; rewrite ?after_seq, after_ret.
  - rewrite ChatTimeFacts.cleanupTempIds_nodeTime, Hk. simpl.
    by rewrite ChatTimeFacts.updateLastVisit_nodeTime.
  - apply ChatTimeFacts.updateLastVisit_nodeTime.
Qed.

Lemma init_dom chatTimes stable (key : string) (now : Z) (st : storage) :
  dom (allOf (after (init chatTimes stable key now) st)) = dom (allOf st).
Proof.
  unfold init. destruct chatTimes; simpl; [|done].
  destruct (JS.truthyStr key) eqn:Hk; simpl; [|done].
  pose proof (ChatTimeFacts.updateLastVisit_dom now key st) as Hu.
  destruct stable; simpl; rewrite ?after_seq, after_ret.
  - by rewrite ChatTimeFacts.cleanupTempIds_dom.
  - done.
Qed.

End RecorderFacts.

(** ** The order of the migrations *)

Module MigrationFacts.
Import Migrations MigrationExamples.
Open Scope string_scope.
Open Scope list_scope.
Open Scope Z_scope.

Lemma callsOf_nil m : callsOf m [].
Proof. constructor. Qed.

Lemma callsOf_one m c : callsOf m [(m, c)].
Proof. by repeat constructor. Qed.

Lemma callsOf_app m l1 l2 : callsOf m l1 → callsOf m l2 → callsOf m (l1 ++ l2).
Proof. apply Forall_app_2. Qed.

Create HintDb calls.
#[local] Hint Resolve callsOf_nil callsOf_one callsOf_app : calls.

Lemma migrateLocalKeys_calls (b : Browser) :
  ∃ l, calls (migrateLocalKeys b) = calls b ++ l ∧ callsOf KeyRename l.
Proof.
  unfold migrateLocalKeys. destruct (chromeStorage b); cbn [negb].
  2:{ exists []. by rewrite app_nil_r; auto with calls. }
  cbv zeta. destruct (local _ !! "biwhckdj") as [old|].
  - repeat destruct (_ && _);
      (eexists; unfold localRemove, localSet, logCall; cbn [calls];
       rewrite <- ?app_assoc; split; [reflexivity|]; by repeat constructor).
  - eexists. split; [done|]. by repeat constructor.
Qed.

Lemma migrateLocalKeys_chromeStorage (b : Browser) :
  chromeStorage (migrateLocalKeys b) = chromeStorage b.
Proof.
  unfold migrateLocalKeys. destruct (chromeStorage b) eqn:E; cbn [negb]; [|done].
  cbv zeta. destruct (local _ !! "biwhckdj"); [|done].
  repeat destruct (_ && _); done.
Qed.

Lemma migrateFromSyncToLocal_calls (b : Browser) :
  ∃ l1 l2, calls (migrateFromSyncToLocal b) = calls b ++ l1 ++ l2
           ∧ callsOf KeyRename l1 ∧ callsOf StorageScope l2.
Proof.
  unfold migrateFromSyncToLocal. destruct (chromeStorage b); simpl.
  2:{ exists [], []. by rewrite app_nil_r; auto with calls. }
  destruct (migrateLocalKeys_calls b) as (l1 & Hl1 & H1). exists l1.
  destruct (sync (migrateLocalKeys b)) as [syncData|].
  2:{ exists []. rewrite app_nil_r. auto with calls. }
  destruct (map_to_list syncData) as [|e entries].
  - eexists. simpl. rewrite Hl1, <- ?app_assoc. split_and!; [done|done|].
    by repeat constructor.
  - destruct (splitSyncData (e :: entries)) as [[starItems pinItems] otherData].
    eexists. simpl. rewrite Hl1, <- ?app_assoc. split_and!; [done|done|].
    simpl. by repeat constructor.
Qed.

Lemma migrateFromSyncToLocal_chromeStorage (b : Browser) :
  chromeStorage (migrateFromSyncToLocal b) = chromeStorage b.
Proof.
  unfold migrateFromSyncToLocal. destruct (chromeStorage b) eqn:E; [|done]. simpl.
  destruct (sync (migrateLocalKeys b)) as [syncData|].
  2:{ by rewrite migrateLocalKeys_chromeStorage. }
  destruct (map_to_list syncData) as [|e entries]; simpl.
  - by rewrite migrateLocalKeys_chromeStorage.
  - destruct (splitSyncData (e :: entries)) as [[starItems pinItems] otherData].
    simpl. by rewrite migrateLocalKeys_chromeStorage.
Qed.

Lemma migrateFamily_calls storageKey build allItems keys (b : Browser) :
  ∃ l, calls (migrateFamily storageKey build allItems keys b).1 = calls b ++ l
       ∧ callsOf RecordShape l.
Proof.
  unfold migrateFamily. destruct keys as [|k keys]; simpl.
  { exists []. by rewrite app_nil_r; auto with calls. }
  destruct (mapM idOf _); simpl.
  - eexists. rewrite <- ?app_assoc. split; [done|]. by repeat constructor.
  - eexists. split; [done|]. by repeat constructor.
Qed.

Lemma migrateRecords_calls now allItems starKeys pinKeys (b : Browser) :
  ∃ l, calls (migrateRecords now allItems starKeys pinKeys b) = calls b ++ l
       ∧ callsOf RecordShape l.
Proof.
  unfold migrateRecords.
  destruct (migrateFamily_calls "aitStars" (newStar now) allItems starKeys b)
    as (l2 & Hl2 & H2).
  destruct (migrateFamily "aitStars" (newStar now) allItems starKeys b) as [b2 ok].
  simpl in Hl2. destruct ok; cbn [negb].
  2:{ by exists l2. }
  destruct (migrateFamily_calls "aitPins" (newPin now) allItems pinKeys b2)
    as (l3 & Hl3 & H3).
  destruct (migrateFamily "aitPins" (newPin now) allItems pinKeys b2) as [b3 ok].
  simpl in Hl3. destruct ok; cbn [negb].
  - eexists. unfold localRemove. cbn [calls]. rewrite Hl3, Hl2, <- ?app_assoc.
    split; [reflexivity|]. repeat apply callsOf_app; auto with calls.
  - eexists. rewrite Hl3, Hl2, <- ?app_assoc.
    split; [reflexivity|]. by apply callsOf_app.
Qed.

Lemma migrateFromLegacy_calls (now : Z) (b : Browser) :
  ∃ l, calls (migrateFromLegacy now b) = calls b ++ l ∧ callsOf RecordShape l.
Proof.
  unfold migrateFromLegacy. destruct (chromeStorage b); cbn [negb].
  2:{ exists []. by rewrite app_nil_r; auto with calls. }
  cbv zeta.
  assert (Hrest : ∀ allItems starKeys pinKeys,
    ∃ l, calls (migrateRecords now allItems starKeys pinKeys
                  (logCall RecordShape (LocalGet None) b))
         = calls b ++ l ∧ callsOf RecordShape l).
  { intros allItems starKeys pinKeys.
    destruct (migrateRecords_calls now allItems starKeys pinKeys
                (logCall RecordShape (LocalGet None) b)) as (l & Hl & H).
    eexists. rewrite Hl. unfold logCall. cbn [calls]. rewrite <- ?app_assoc.
    split; [reflexivity|]. apply callsOf_app; auto with calls. }
  destruct (filter _ _); destruct (filter _ _); try apply Hrest.
  exists [(RecordShape, LocalGet None)]. split; [done|]. auto with calls.
Qed.

Lemma earlier_migrateFromSyncToLocal_calls (b : Browser) :
  ∃ l, calls (EarlierScript.migrateFromSyncToLocal b) = calls b ++ l
       ∧ callsOf StorageScope l.
Proof.
  unfold EarlierScript.migrateFromSyncToLocal. destruct (chromeStorage b); cbn [negb].
  2:{ exists []. by rewrite app_nil_r; auto with calls. }
  destruct (sync b) as [syncData|].
  2:{ exists []. by rewrite app_nil_r; auto with calls. }
  cbv zeta. destruct (map_to_list syncData) as [|e entries].
  - eexists. split; [done|]. by repeat constructor.
  - eexists. unfold syncClear, localSet, logCall. cbn [calls].
    rewrite <- ?app_assoc. split; [reflexivity|]. by repeat constructor.
Qed.

(** The calls of a load, by migration. *)
Lemma later_load_calls (b : Browser) :
  ∃ l1 l2,
    calls (LaterScript.load b) = calls b ++ l1 ++ l2
    ∧ callsOf KeyRename l1 ∧ callsOf StorageScope l2.
Proof. apply migrateFromSyncToLocal_calls. Qed.

Lemma earlier_load_calls (now : Z) (b : Browser) :
  ∃ l2 l3,
    calls (EarlierScript.load now b) = calls b ++ l2 ++ l3
    ∧ callsOf StorageScope l2 ∧ callsOf RecordShape l3.
Proof.
  unfold EarlierScript.load.
  destruct (earlier_migrateFromSyncToLocal_calls b) as (l2 & H2 & H2').
  destruct (migrateFromLegacy_calls now (EarlierScript.migrateFromSyncToLocal b))
    as (l3 & H3 & H3').
  exists l2, l3. rewrite H3, H2, <- ?app_assoc. done.
Qed.

Lemma precedes_app m1 m2 (l1 l2 : list (Migration * StorageCall)) :
  (∀ c, (m1, c) ∉ l2) → (∀ c, (m2, c) ∉ l1) →
  precedes m1 m2 (l1 ++ l2).
Proof.
  intros H1 H2 i j c1 c2 Hi Hj.
  destruct (decide (i < length l1)%nat) as [Hlt|Hge].
  - destruct (decide (j < length l1)%nat) as [Hlt'|Hge']; [|lia].
    rewrite lookup_app_l in Hj by done.
    exfalso. eapply H2. by eapply list_elem_of_lookup_2.
  - rewrite lookup_app_r in Hi by lia.
    exfalso. eapply H1. by eapply list_elem_of_lookup_2.
Qed.

Lemma callsOf_not_in m m' l c : callsOf m l → m' ≠ m → (m', c) ∉ l.
Proof.
  intros Hall Hne Hin. eapply Forall_forall in Hall; [|exact Hin]. simpl in Hall.
  congruence.
Qed.


(** A load of each version on which every migration it has finds work to
    do. *)
Example load_calls_example :
  calls (LaterScript.load browserOld)
  = [(KeyRename, LocalGet (Some ["biwhckdj"; "prompts"]));
     (StorageScope, SyncGet);
     (StorageScope, LocalSet ["biwhckdj"; "chatTimelineStars"]);
     (StorageScope, SyncClear)]
  ∧ calls (EarlierScript.load 1000 browserLegacy)
    = [(StorageScope, SyncGet);
       (StorageScope, LocalSet ["theme"]);
       (StorageScope, SyncClear);
       (RecordShape, LocalGet None);
       (RecordShape, LocalGet (Some ["aitStars"]));
       (RecordShape, LocalSet ["aitStars"]);
       (RecordShape, LocalRemove ["chatTimelineStar:chat.example/c/1:1";
                                  "chatTimelineStar:chat.example/c/1:2"])].
Proof. vm_compute. split; reflexivity. Qed.


End MigrationFacts.

(** ** The conversation container *)

Module ContainerFacts.
Import ContainerFinder ContainerExamples.
Open Scope string_scope.
Open Scope list_scope.
Open Scope nat_scope.

(** *** The document *)

Lemma Element_ind' {A} (P : Element A → Prop) :
  (∀ d cs, Forall P cs → P (El d cs)) → ∀ e, P e.
Proof.
  intros H. fix IH 1. intros [d cs]. apply H.
  induction cs as [|c cs IHcs]; constructor; [apply IH | exact IHcs].
Qed.

Lemma elem_of_inChildren {A} (f : Element A → list Node) i cs (n : Node) :
  n ∈ inChildren f i cs ↔
  ∃ j c n', cs !! j = Some c ∧ n = (i + j) :: n' ∧ n' ∈ f c.
Proof.
  revert i. induction cs as [|c cs IH]; intros i; simpl.
  - split; [by intros ?%elem_of_nil|]. by intros (j & c & n' & ? & _).
  - rewrite elem_of_app, IH, list_elem_of_fmap. split.
    + intros [(n' & -> & Hn')|(j & c' & n' & Hj & -> & Hn')].
      * exists 0, c, n'. split_and!; [done| |done]. f_equal. lia.
      * exists (S j), c', n'. split_and!; [done| |done]. f_equal. lia.
    + intros ([|j] & c' & n' & Hj & -> & Hn').
      * left. simpl in Hj. injection Hj as ->. exists n'. split; [|done]. f_equal. lia.
      * right. exists j, c', n'. split_and!; [done| |done]. f_equal. lia.
Qed.

(** The query returns the positions of the elements the selector accepts. *)
Lemma querySelectorAll_spec {A} (sel : A → bool) (e : Element A) (n : Node) :
  n ∈ querySelectorAll sel e ↔ ∃ d cs, nodeAt e n = Some (El d cs) ∧ sel d = true.
Proof.
  revert n. induction e as [d cs IH] using Element_ind'. intros n.
  cbn [querySelectorAll]. rewrite elem_of_app, elem_of_inChildren.
  rewrite Forall_forall in IH.
  split.
  - intros [Hroot|(j & c & n' & Hc & -> & Hn')].
    + destruct (sel d) eqn:Hd; [|by apply elem_of_nil in Hroot].
      apply list_elem_of_singleton in Hroot as ->. by exists d, cs.
    + apply (IH c) in Hn'; [|by eapply list_elem_of_lookup_2].
      simpl. by rewrite Hc.
  - intros (d' & cs' & Hat & Hsel). destruct n as [|i n'].
    + simpl in Hat. injection Hat as -> ->. left. rewrite Hsel. left.
    + simpl in Hat. destruct (cs !! i) as [c|] eqn:Hc; [|done].
      right. exists i, c, n'. split_and!; [done|done|].
      apply IH; [by eapply list_elem_of_lookup_2|]. by exists d', cs'.
Qed.

(** The ancestors of an element of the document are elements of it. *)
Lemma nodeAt_ancestor {A} (e : Element A) (a n : Node) :
  ancestor a n → is_Some (nodeAt e n) → is_Some (nodeAt e a).
Proof.
  intros (rest & _ & ->). revert e. induction a as [|i a IH]; intros e; simpl.
  - eauto.
  - destruct e as [d cs]. destruct (cs !! i) as [c|]; [apply IH|done].
Qed.

(** *** The common ancestors *)

Lemma ancestorPath_lookup (n : Node) (k : nat) :
  k < length n → ancestorPath n !! k = Some (take k n).
Proof.
  intros Hk. unfold ancestorPath. rewrite list_lookup_fmap.
  by rewrite lookup_seq_lt.
Qed.

Lemma ancestorPath_length (n : Node) : length (ancestorPath n) = length n.
Proof. unfold ancestorPath. by rewrite length_fmap, length_seq. Qed.

Lemma ancestor_take (a n : Node) :
  ancestor a n ↔ length a < length n ∧ a = take (length a) n.
Proof.
  split.
  - intros (rest & Hrest & ->). rewrite length_app. split.
    + destruct rest; [done|]. simpl. lia.
    + by rewrite take_app_length.
  - intros [Hlen Ha]. exists (drop (length a) n). split.
    + intros Hnil. apply (f_equal length) in Hnil. rewrite length_drop in Hnil.
      simpl in Hnil. lia.
    + rewrite Ha at 1. by rewrite take_drop.
Qed.

(** The ancestor path of an element holds exactly its ancestors. *)
Lemma elem_of_ancestorPath (a n : Node) : a ∈ ancestorPath n ↔ ancestor a n.
Proof.
  rewrite ancestor_take. unfold ancestorPath. rewrite list_elem_of_fmap. split.
  - intros (k & -> & Hk). apply elem_of_seq in Hk.
    assert (length (take k n) = k) as -> by (rewrite length_take; lia).
    split; [lia|done].
  - intros [Hlen Ha]. exists (length a). split; [done|]. apply elem_of_seq. lia.
Qed.

Lemma commonPrefix_prefix_l (p q : list Node) : commonPrefix p q `prefix_of` p.
Proof.
  revert q. induction p as [|x p IH]; intros q; simpl.
  - by destruct q.
  - destruct q as [|y q]; [apply prefix_nil|].
    destruct (decide (x = y)); [|apply prefix_nil]. by apply prefix_cons.
Qed.

Lemma commonPrefix_lookup (p q : list Node) (k : nat) (x : Node) :
  commonPrefix p q !! k = Some x ↔
  ∀ i, i ≤ k → ∃ y, p !! i = Some y ∧ q !! i = Some y ∧ (i = k → y = x).
Proof.
  revert q k. induction p as [|a p IH]; intros q k; simpl.
  - split; [by destruct q|]. intros H. destruct (H 0) as (y & Hy & _); [lia|done].
  - destruct q as [|b q].
    { split; [done|]. intros H. destruct (H 0) as (y & _ & Hy & _); [lia|done]. }
    destruct (decide (a = b)) as [<-|Hne].
    + destruct k as [|k]; simpl.
      * split.
        -- intros [= <-] i Hi. assert (i = 0) as -> by lia. by exists a.
        -- intros H. destruct (H 0) as (y & [= <-] & _ & Hx); [lia|].
           by rewrite Hx.
      * rewrite IH. split.
        -- intros H [|i] Hi; [by exists a|].
           destruct (H i) as (y & H1 & H2 & H3); [lia|].
           exists y. split_and!; [done|done|]. intros [= ->]. by apply H3.
        -- intros H i Hi. destruct (H (S i)) as (y & H1 & H2 & H3); [lia|].
           exists y. split_and!; [done|done|]. intros ->. by apply H3.
    + split; [done|]. intros H. destruct (H 0) as (y & [= <-] & [= <-] & _); [lia|].
      done.
Qed.

(** What the fold over the ancestor paths keeps: a prefix of the first
    path, holding the common ancestors. *)
Lemma fold_common (m : Node) (ms : list Node) :
  let P := foldl commonPrefix (ancestorPath m) (ancestorPath <$> ms) in
  P `prefix_of` ancestorPath m
  ∧ ∀ a, a ∈ P ↔ ∀ n, n ∈ m :: ms → ancestor a n.
Proof.
  induction ms as [|n ms IH] using rev_ind; simpl.
  - split; [done|]. intros a. rewrite elem_of_ancestorPath. split.
    + intros Ha n ->%list_elem_of_singleton. done.
    + intros H. apply H. left.
  - rewrite fmap_app, foldl_app. simpl.
    destruct IH as [Hpre Hin].
    set (P := foldl commonPrefix (ancestorPath m) (ancestorPath <$> ms)) in *.
    split.
    { etrans; [apply commonPrefix_prefix_l|done]. }
    intros a. split.
    + intros Ha n' Hn'.
      apply list_elem_of_lookup in Ha as [k Hk].
      pose proof (proj1 (commonPrefix_lookup _ _ _ _) Hk) as Hk'.
      destruct (Hk' k) as (y & Hy1 & Hy2 & Hy3); [lia|].
      rewrite (Hy3 eq_refl) in *.
      rewrite app_comm_cons in Hn'. apply elem_of_app in Hn' as [Hn'|Hn'].
      * apply (proj1 (Hin a)); [|done]. by eapply list_elem_of_lookup_2.
      * apply list_elem_of_singleton in Hn' as ->.
        apply elem_of_ancestorPath. by eapply list_elem_of_lookup_2.
    + intros Hall.
      assert (HaP : a ∈ P).
      { apply Hin. intros n' Hn'. apply Hall. rewrite app_comm_cons.
        apply elem_of_app. by left. }
      assert (Han : ancestor a n).
      { apply Hall. rewrite app_comm_cons. apply elem_of_app. right.
        by apply list_elem_of_singleton. }
      assert (Ham : ancestor a m) by (apply Hall; left).
      apply ancestor_take in Han as [Hlen_n Han].
      apply ancestor_take in Ham as [Hlen_m Ham].
      assert (HPk : ∀ i, i ≤ length a → P !! i = Some (take i m)).
      { intros i Hi.
        apply list_elem_of_lookup in HaP as [k Hk].
        pose proof (prefix_lookup_Some _ _ _ _ Hk Hpre) as Hk'.
        rewrite ancestorPath_lookup in Hk'
          by (apply lookup_lt_Some in Hk'; by rewrite ancestorPath_length in Hk').
        injection Hk' as Hk'.
        assert (k = length a) as ->.
        { rewrite <- Hk'. rewrite length_take.
          apply lookup_lt_Some in Hk.
          pose proof (prefix_length _ _ Hpre) as Hl.
          rewrite ancestorPath_length in Hl. lia. }
        destruct (P !! i) as [y|] eqn:Hy.
        - pose proof (prefix_lookup_Some _ _ _ _ Hy Hpre) as Hy'.
          rewrite ancestorPath_lookup in Hy' by lia. done.
        - apply lookup_ge_None in Hy. apply lookup_lt_Some in Hk. lia. }
      apply list_elem_of_lookup. exists (length a).
      apply commonPrefix_lookup. intros i Hi.
      exists (take i m). split_and!.
      * by apply HPk.
      * rewrite ancestorPath_lookup by lia. f_equal.
        transitivity (take i a).
        -- transitivity (take i (take (length a) n)); [|by rewrite <- Han].
           rewrite take_take. f_equal. lia.
        -- transitivity (take i (take (length a) m)); [by rewrite <- Ham|].
           rewrite take_take. f_equal. lia.
      * intros ->. done.
Qed.

Lemma containerOf_lca (matched : list Node) (c : Node) :
  containerOf matched = Some c →
  (∀ n, n ∈ matched → ancestor c n)
  ∧ (∀ a, (∀ n, n ∈ matched → ancestor a n) → a `prefix_of` c).
Proof.
  destruct matched as [|m ms]; [done|]. simpl. intros Hlast.
  destruct (fold_common m ms) as [Hpre Hin]. simpl in *.
  set (P := foldl commonPrefix (ancestorPath m) (ancestorPath <$> ms)) in *.
  assert (HP : ∀ k x, P !! k = Some x → x = take k m ∧ k < length m).
  { intros k x Hk. pose proof (prefix_lookup_Some _ _ _ _ Hk Hpre) as Hk'.
    assert (k < length m)
      by (apply lookup_lt_Some in Hk'; by rewrite ancestorPath_length in Hk').
    rewrite ancestorPath_lookup in Hk' by done. by injection Hk' as <-. }
  rewrite last_lookup in Hlast. split.
  - apply Hin. by eapply list_elem_of_lookup_2.
  - intros a Ha. apply Hin in Ha. apply list_elem_of_lookup in Ha as [k Hk].
    pose proof (lookup_lt_Some _ _ _ Hk) as Hlt.
    destruct (HP _ _ Hk) as [-> Hkm]. destruct (HP _ _ Hlast) as [-> Hcm].
    exists (drop k (take (pred (length P)) m)).
    rewrite <- (take_drop k (take (pred (length P)) m)) at 1.
    f_equal. rewrite take_take. f_equal. lia.
Qed.

Lemma containerOf_exists (matched : list Node) :
  matched ≠ [] → [] ∉ matched → is_Some (containerOf matched).
Proof.
  destruct matched as [|m ms]; [done|]. intros _ Hroot. simpl.
  destruct (fold_common m ms) as [_ Hin]. simpl in Hin.
  apply last_is_Some. intros Hnil.
  assert (Hr : [] ∈ foldl commonPrefix (ancestorPath m) (ancestorPath <$> ms)).
  { apply Hin. intros n Hn. exists n. split; [|done]. by intros ->. }
  rewrite Hnil in Hr. by apply elem_of_nil in Hr.
Qed.

(** With one match the container is the parent of the matched element. *)
Lemma containerOf_single (n : Node) (i : nat) :
  containerOf [n ++ [i]] = Some n.
Proof.
  simpl. rewrite last_lookup, ancestorPath_length, length_app. simpl.
  rewrite ancestorPath_lookup by (rewrite length_app; simpl; lia).
  f_equal. replace (pred (length n + 1)) with (length n) by lia.
  apply take_app_length.
Qed.

(** C1. When the message selector matches nothing there is no container.
    A container that is returned is an element of the document and an
    ancestor of every matched element, and every common ancestor of the
    matched elements is the container or one of its ancestors; and a
    container is returned whenever something is matched, unless the root of
    the document is itself matched. *)
Theorem findConversationContainer_lca {A} (messageSelector : A → bool)
    (document : Element A) :
  let matched := querySelectorAll messageSelector document in
  (matched = [] → findConversationContainer messageSelector document = None)
  ∧ (∀ c, findConversationContainer messageSelector document = Some c →
          is_Some (nodeAt document c)
          ∧ (∀ n, n ∈ matched → ancestor c n)
          ∧ (∀ a, (∀ n, n ∈ matched → ancestor a n) → a `prefix_of` c))
  ∧ (matched ≠ [] → [] ∉ matched →
     is_Some (findConversationContainer messageSelector document)).
Proof.
  unfold findConversationContainer. simpl. split_and!.
  - by intros ->.
  - intros c Hc. destruct (containerOf_lca _ _ Hc) as [Hanc Hdeep].
    split_and!; [|done|done].
    destruct (querySelectorAll messageSelector document) as [|m ms] eqn:Hq; [done|].
    assert (Hm : m ∈ querySelectorAll messageSelector document)
      by (rewrite Hq; left).
    apply (nodeAt_ancestor document c m).
    + apply Hanc. left.
    + apply querySelectorAll_spec in Hm as (d & cs & -> & _). eauto.
  - apply containerOf_exists.
Qed.

(** Scenario A of the design document: two messages under the root
    division, and the container is that division. *)
Lemma findConversationContainer_lca_witness :
  is_Some (nodeAt page [1])
  ∧ (∀ n, n ∈ querySelectorAll isUserMessage page → ancestor [1] n)
  ∧ (∀ a, (∀ n, n ∈ querySelectorAll isUserMessage page → ancestor a n) →
          a `prefix_of` [1]).
Proof.
  apply (proj1 (proj2 (findConversationContainer_lca isUserMessage page))).
  reflexivity.
Defined.

End ContainerFacts.

(** ** More on the time records *)

Module ChatTimeMoreFacts.
Import StorageAdapter ChatTimeStorageManager NodeTimes ChatTimeExamples.
Open Scope string_scope.
Open Scope Z_scope.

Ltac run_op :=
  unfold result, after, bind, ret, getAllRecords, get, set in *; simpl in *.

(** *** batchSetNodeTimes *)

Lemma addNodeTimes_loop (known : list string) (now : Z) (newNodes : list NodeTime) :
  ∀ (cur : gmap string Z) (cnt : Z),
    let r := foldl (λ '(cur, cnt) n,
                      match nodeId n with
                      | Some id =>
                          match cur !! id with
                          | None =>
                              if bool_decide (id ∈ known) then (cur, cnt)
                              else (<[id := orNow now (timestamp n)]> cur, cnt + 1)
                          | Some _ => (cur, cnt)
                          end
                      | None => (cur, cnt)
                      end)
                   (cur, cnt) newNodes in
    (∀ id, r.1 !! id = match cur !! id with
                       | Some t => Some t
                       | None => if bool_decide (id ∈ known) then None
                                 else firstTime now id newNodes
                       end)
    ∧ Z.of_nat (size r.1) = Z.of_nat (size cur) + (r.2 - cnt)
    ∧ cnt ≤ r.2.
Proof.
  induction newNodes as [|n l IH]; intros cur cnt; simpl.
  - split_and!; [|lia|lia]. intros id. destruct (cur !! id); [done|].
    by destruct (bool_decide _).
  - destruct (nodeId n) as [id0|] eqn:Hn.
    + destruct (cur !! id0) as [t0|] eqn:Hc.
      * destruct (IH cur cnt) as (H1 & H2 & H3). split_and!; [|done|done].
        intros id. rewrite H1. destruct (cur !! id) eqn:Hid; [done|].
        destruct (bool_decide (id ∈ known)); [done|].
        rewrite bool_decide_eq_false_2; [done|]. intros [= ->]. congruence.
      * destruct (decide (id0 ∈ known)) as [Hk|Hk].
        -- rewrite (bool_decide_eq_true_2 _ Hk).
           destruct (IH cur cnt) as (H1 & H2 & H3). split_and!; [|done|done].
           intros id. rewrite H1. destruct (cur !! id) eqn:Hid; [done|].
           destruct (decide (id ∈ known)) as [Hik|Hik].
           ++ by rewrite (bool_decide_eq_true_2 _ Hik).
           ++ rewrite (bool_decide_eq_false_2 _ Hik).
              rewrite bool_decide_eq_false_2; [done|]. intros [= ->]. done.
        -- rewrite (bool_decide_eq_false_2 _ Hk).
           destruct (IH (<[id0 := orNow now (timestamp n)]> cur) (cnt + 1))
             as (H1 & H2 & H3).
           rewrite map_size_insert_None in H2 by done.
           split_and!; [|lia|lia].
           intros id. rewrite H1. destruct (decide (id0 = id)) as [->|Hne].
           ++ rewrite lookup_insert_eq, Hc. rewrite (bool_decide_eq_false_2 _ Hk).
              by rewrite bool_decide_eq_true_2.
           ++ rewrite lookup_insert_ne by done. destruct (cur !! id); [done|].
              destruct (bool_decide (id ∈ known)); [done|].
              rewrite bool_decide_eq_false_2; [done|]. intros [= ?]. done.
    + destruct (IH cur cnt) as (H1 & H2 & H3). split_and!; [|done|done].
      intros id. rewrite H1. destruct (cur !! id); [done|].
      destruct (bool_decide (id ∈ known)); [done|].
      by rewrite bool_decide_eq_false_2.
Qed.

(** What [batchSetNodeTimes] computes for a conversation whose record is,
    or will be, among the stored records. *)
Lemma batchSetNodeTimes_run (now : Z) (k : string) (l : list NodeTime) (st : storage) :
  k ≠ "" → JS.inherited k = false ∨ is_Some (allOf st !! k) →
  ∃ (ns' : gmap string Z) (n : Z),
    (∀ id, ns' !! id = match nodesOf st k !! id with
                       | Some t => Some t
                       | None => if JS.inherited id then None else firstTime now id l
                       end)
    ∧ Z.of_nat (size ns') = Z.of_nat (size (nodesOf st k)) + n
    ∧ 0 ≤ n
    ∧ batchSetNodeTimes now k l st
      = (n, if 0 <? n
            then Area (Some (<[k := Rec (allOf st !! k ≫= createTime) (Some now) (Some ns')]>
                               (allOf st)))
                      (S (setCalls st))
            else st).
Proof.
  intros Hk Hrec. unfold batchSetNodeTimes, nodesOf, allOf in *.
  destruct k as [|c k]; [done|]. cbn [JS.truthyStr negb orb].
  destruct (decide (l = [])) as [->|Hl].
  { rewrite bool_decide_eq_true_2 by done.
    exists (match
              result getAllRecords st !! String c k
            with Some r => default ∅ (nodes r) | None => ∅ end), 0.
    split_and!; [|lia|lia|done]. intros id. simpl. destruct (_ !! id); [done|].
    by destruct (JS.inherited id). }
  rewrite bool_decide_eq_false_2 by done.
  run_op. destruct st as [o cnt]. simpl in *.
  set (all := match o with Some all => all | None => ∅ end) in *.
  unfold addNodeTimes.
  destruct (all !! String c k) as [r|] eqn:Hr; simpl.
  - assert (Hns : match nodes r with Some ns => ns | None => ∅ end = default ∅ (nodes r))
      by (by destruct (nodes r)).
    rewrite Hns.
    destruct (addNodeTimes_loop JS.ObjectPrototype now l (default ∅ (nodes r)) 0)
      as (H1 & H2 & H3). simpl in *.
    destruct (foldl _ _ l) as [ns' n] eqn:Hloop. simpl in *.
    exists ns', n. split_and!; [done|lia|done|]. by destruct (0 <? n).
  - destruct Hrec as [Hin|[? ?]]; [|done]. rewrite Hin.
    destruct (addNodeTimes_loop JS.ObjectPrototype now l ∅ 0) as (H1 & H2 & H3).
    simpl in *.
    destruct (foldl _ _ l) as [ns' n] eqn:Hloop. simpl in *.
    exists ns', n. split_and!; [done|lia|done|]. by destruct (0 <? n).
Qed.

(** What [batchSetNodeTimes] computes for a key that names an inherited
    property and has no record: the times go to an object that is not
    stored. *)
Lemma batchSetNodeTimes_inherited (now : Z) (k : string) (l : list NodeTime)
    (st : storage) :
  JS.inherited k = true → allOf st !! k = None →
  ∃ n, 0 ≤ n
       ∧ batchSetNodeTimes now k l st
         = (n, if 0 <? n then Area (Some (allOf st)) (S (setCalls st)) else st).
Proof.
  intros Hin Hrec. unfold batchSetNodeTimes, allOf in *.
  destruct (negb (JS.truthyStr k) || bool_decide (l = [])).
  { exists 0. by split. }
  run_op. destruct st as [o cnt]. simpl in *.
  set (all := match o with Some all => all | None => ∅ end) in *.
  rewrite Hrec, Hin. unfold addNodeTimes.
  set (known := if bool_decide (k = "__proto__") then _ else _).
  destruct (addNodeTimes_loop known now l ∅ 0) as (_ & _ & H3). simpl in *.
  destruct (foldl _ _ l) as [ns' n] eqn:Hloop. simpl in *.
  exists n. split; [done|]. by destruct (0 <? n).
Qed.

(** X1. In a conversation whose key has a record or names no inherited
    property, a turn that has a time keeps it, and a turn without one gets
    the time of the first element that names it ([timestamp || now]), unless
    its id names an inherited property: such a turn gets none.  The other
    conversations are not touched, and for a key that names an inherited
    property and has no record the records stay as they are. *)
Theorem batchSetNodeTimes_write_once (now : Z) (k : string) (l : list NodeTime)
    (st : storage) :
  k ≠ "" →
  let st' := after (batchSetNodeTimes now k l) st in
  (JS.inherited k = false ∨ is_Some (allOf st !! k) →
   ∀ id, nodesOf st' k !! id = match nodesOf st k !! id with
                               | Some t => Some t
                               | None => if JS.inherited id then None
                                         else firstTime now id l
                               end)
  ∧ (∀ k', k' ≠ k → allOf st' !! k' = allOf st !! k')
  ∧ (JS.inherited k = true → allOf st !! k = None → allOf st' = allOf st).
Proof.
  intros Hk st'. subst st'.
  assert (Hinh : JS.inherited k = true → allOf st !! k = None →
                 allOf (after (batchSetNodeTimes now k l) st) = allOf st).
  { intros Hin Hnone.
    destruct (batchSetNodeTimes_inherited now k l st Hin Hnone) as (n & _ & Hrun).
    unfold after. rewrite Hrun. simpl. destruct (0 <? n); [|done].
    by rewrite ChatTimeFacts.allOf_Area. }
  destruct (decide (JS.inherited k = false ∨ is_Some (allOf st !! k))) as [Hrec|Hno].
  - destruct (batchSetNodeTimes_run now k l st Hk Hrec)
      as (ns' & n & H1 & H2 & H3 & Hrun).
    unfold after in *. rewrite Hrun in *. simpl in *.
    destruct (Z.ltb_spec 0 n) as [Hn|Hn].
    + split_and!; [| |done].
      * intros _ id. unfold nodesOf at 1. rewrite ChatTimeFacts.allOf_Area. simpl.
        rewrite lookup_insert_eq. simpl. apply H1.
      * intros k' Hne. rewrite ChatTimeFacts.allOf_Area. simpl.
        by rewrite lookup_insert_ne.
    + split_and!; [|done|done]. intros _ id. rewrite <- H1.
      assert (ns' = nodesOf st k) as ->; [|done].
      symmetry. apply map_subseteq_size_eq; [|lia].
      apply map_subseteq_spec. intros i x Hi. by rewrite H1, Hi.
  - assert (Hin : JS.inherited k = true).
    { destruct (JS.inherited k); [done|]. destruct Hno. by left. }
    assert (Hnone : allOf st !! k = None).
    { destruct (allOf st !! k) eqn:E; [|done]. destruct Hno. right. by eexists. }
    split_and!; [done| |done]. intros k' _. by rewrite Hinh.
Qed.

Lemma batchSetNodeTimes_write_once_witness :
  let st' := after (batchSetNodeTimes 900 "chat.example/c/1"
                      [NodeTime_ (Some "gemini-0") (Some 800);
                       NodeTime_ (Some "constructor") (Some 810);
                       NodeTime_ (Some "gemini-1") None]) store1 in
  nodesOf st' "chat.example/c/1" !! "gemini-0" = Some 150
  ∧ nodesOf st' "chat.example/c/1" !! "constructor" = None
  ∧ nodesOf st' "chat.example/c/1" !! "gemini-1" = Some 900.
Proof.
  pose proof (batchSetNodeTimes_write_once 900 "chat.example/c/1"
                [NodeTime_ (Some "gemini-0") (Some 800);
                 NodeTime_ (Some "constructor") (Some 810);
                 NodeTime_ (Some "gemini-1") None] store1) as H.
  destruct H as (H & _ & _); [discriminate|].
  split_and!; (rewrite H; [reflexivity|by left]).
Defined.

(** X2. [batchSetNodeTimes] returns the number of turns it gave a time.
    When that is [0] nothing is written, so the new [lastVisit] is not
    stored either; otherwise there is one [set].  For a key that has a
    record or names no inherited property the turns it counts are the new
    entries of the record, whose [lastVisit] becomes [now] and whose
    [createTime] stays what it was ([null] for a new record); for a key
    that names an inherited property and has no record, no record is
    stored, whatever the count. *)
Theorem batchSetNodeTimes_count (now : Z) (k : string) (l : list NodeTime)
    (st : storage) :
  k ≠ "" →
  let st' := after (batchSetNodeTimes now k l) st in
  let n := result (batchSetNodeTimes now k l) st in
  0 ≤ n
  ∧ (n = 0 → st' = st)
  ∧ (0 < n → setCalls st' = S (setCalls st))
  ∧ (JS.inherited k = false ∨ is_Some (allOf st !! k) →
     Z.of_nat (size (nodesOf st' k)) = Z.of_nat (size (nodesOf st k)) + n
     ∧ (0 < n →
        ∃ r', allOf st' !! k = Some r'
              ∧ lastVisit r' = Some now
              ∧ createTime r' = allOf st !! k ≫= createTime))
  ∧ (JS.inherited k = true → allOf st !! k = None → allOf st' = allOf st).
Proof.
  intros Hk st' n. subst st' n.
  destruct (decide (JS.inherited k = false ∨ is_Some (allOf st !! k))) as [Hrec|Hno].
  - destruct (batchSetNodeTimes_run now k l st Hk Hrec)
      as (ns' & n & H1 & H2 & H3 & Hrun).
    unfold after, result. rewrite Hrun. simpl.
    destruct (Z.ltb_spec 0 n) as [Hn|Hn].
    + split_and!; [done|lia|done| |].
      * intros _. split.
        -- unfold nodesOf at 1. rewrite ChatTimeFacts.allOf_Area. simpl.
           by rewrite lookup_insert_eq.
        -- intros _. eexists. rewrite ChatTimeFacts.allOf_Area. simpl.
           rewrite lookup_insert_eq. done.
      * intros Hin Hnone. destruct Hrec as [?|[? ?]]; congruence.
    + split_and!; [done|done|lia| |done]. intros _. split; lia.
  - assert (Hin : JS.inherited k = true).
    { destruct (JS.inherited k); [done|]. destruct Hno. by left. }
    assert (Hnone : allOf st !! k = None).
    { destruct (allOf st !! k) eqn:E; [|done]. destruct Hno. right. by eexists. }
    destruct (batchSetNodeTimes_inherited now k l st Hin Hnone) as (n & Hpos & Hrun).
    unfold after, result. rewrite Hrun. simpl.
    destruct (Z.ltb_spec 0 n) as [Hn|Hn].
    + split_and!; [done|lia|done|done|]. intros _ _.
      by rewrite ChatTimeFacts.allOf_Area.
    + split_and!; [done|done|lia|done|done].
Qed.

Lemma batchSetNodeTimes_count_witness :
  let st' := after (batchSetNodeTimes 900 "chat.example/c/1"
                      [NodeTime_ (Some "gemini-0") (Some 800)]) store1 in
  let n := result (batchSetNodeTimes 900 "chat.example/c/1"
                     [NodeTime_ (Some "gemini-0") (Some 800)]) store1 in
  n = 0 ∧ st' = store1.
Proof.
  pose proof (batchSetNodeTimes_count 900 "chat.example/c/1"
                [NodeTime_ (Some "gemini-0") (Some 800)] store1) as H.
  destruct H as (_ & H0 & _); [discriminate|].
  split; [reflexivity|]. apply H0. reflexivity.
Defined.

(** For the key [constructor], which has no record, the turn is counted and
    [set] is called, but no record is stored: the time is lost. *)
Example batchSetNodeTimes_inherited_key :
  let st' := after (batchSetNodeTimes 900 "constructor"
                      [NodeTime_ (Some "gemini-0") (Some 800)]) store1 in
  result (batchSetNodeTimes 900 "constructor"
            [NodeTime_ (Some "gemini-0") (Some 800)]) store1 = 1
  ∧ setCalls st' = S (setCalls store1)
  ∧ allOf st' = allOf store1.
Proof. vm_compute. done. Qed.

Lemma nodeTime_nodesOf (st : storage) (k id : string) :
  nodeTime st k id = nodesOf st k !! id.
Proof.
  unfold nodeTime, nodesOf. destruct (allOf st !! k) as [r|]; [|done].
  by destruct (nodes r).
Qed.

(** [batchSetNodeTimes] removes nothing. *)
Lemma batchSetNodeTimes_keeps (now : Z) (k : string) (l : list NodeTime) (st : storage) :
  dom (allOf st) ⊆ dom (allOf (after (batchSetNodeTimes now k l) st))
  ∧ ∀ k' id t, nodeTime st k' id = Some t →
               nodeTime (after (batchSetNodeTimes now k l) st) k' id = Some t.
Proof.
  destruct (decide (k = "")) as [->|Hk]; [done|].
  destruct (decide (JS.inherited k = false ∨ is_Some (allOf st !! k))) as [Hrec|Hno].
  - destruct (batchSetNodeTimes_run now k l st Hk Hrec)
      as (ns' & n & H1 & H2 & H3 & Hrun).
    unfold after. rewrite Hrun. simpl. destruct (0 <? n); [|done].
    rewrite ChatTimeFacts.allOf_Area. simpl. split.
    + rewrite dom_insert. apply union_subseteq_r.
    + intros k' id t Ht. destruct (decide (k' = k)) as [->|Hne].
      * rewrite nodeTime_nodesOf in Ht. rewrite nodeTime_nodesOf.
        unfold nodesOf at 1. rewrite ChatTimeFacts.allOf_Area. simpl.
        rewrite lookup_insert_eq. simpl. by rewrite H1, Ht.
      * unfold nodeTime in *. rewrite ChatTimeFacts.allOf_Area. simpl.
        by rewrite lookup_insert_ne.
  - assert (Hin : JS.inherited k = true).
    { destruct (JS.inherited k); [done|]. destruct Hno. by left. }
    assert (Hnone : allOf st !! k = None).
    { destruct (allOf st !! k) eqn:E; [|done]. destruct Hno. right. by eexists. }
    destruct (batchSetNodeTimes_inherited now k l st Hin Hnone) as (n & Hpos & Hrun).
    unfold after. rewrite Hrun. simpl. destruct (0 <? n); [|done].
    unfold nodeTime. by rewrite ChatTimeFacts.allOf_Area.
Qed.

(** An empty key or an empty array: [0], and nothing is written. *)
Lemma batchSetNodeTimes_nothing (now : Z) (k : string) (l : list NodeTime) (st : storage) :
  k = "" ∨ l = [] → batchSetNodeTimes now k l st = (0, st).
Proof.
  unfold batchSetNodeTimes. intros [->| ->]; [done|].
  by rewrite orb_true_r.
Qed.

(** *** cleanupTempIds and cleanup, run again *)

(** X3. A second [cleanupTempIds] on the same conversation finds nothing
    to remove: it returns [0] and writes nothing. *)
Theorem cleanupTempIds_idempotent (k : string) (st : storage) :
  let st1 := after (cleanupTempIds k) st in
  result (cleanupTempIds k) st1 = 0 ∧ after (cleanupTempIds k) st1 = st1.
Proof.
  intros st1. subst st1.
  assert (Hnothing : ∀ s, k = "" ∨ allOf s !! k = None ∨ allOf s !! k ≫= nodes = None →
                          cleanupTempIds k s = (0, s)).
  { intros s H. destruct (ChatTimeFacts.cleanupTempIds_nothing k s H) as [H1 H2].
    unfold result, after in *. destruct (cleanupTempIds k s). simpl in *. by subst. }
  assert (Hgoal : ∀ s, cleanupTempIds k s = (0, s) →
                       result (cleanupTempIds k) s = 0 ∧ after (cleanupTempIds k) s = s).
  { intros s Hs. unfold result, after. by rewrite Hs. }
  destruct (decide (k = "")) as [->|Hk].
  { unfold after. rewrite (Hnothing st) by (by left). simpl.
    apply Hgoal, Hnothing. by left. }
  destruct (allOf st !! k) as [r|] eqn:Hr.
  2:{ unfold after. rewrite (Hnothing st) by (right; by left). simpl.
      apply Hgoal, Hnothing. right. by left. }
  destruct (nodes r) as [ns|] eqn:Hns.
  2:{ assert (H : k = "" ∨ allOf st !! k = None ∨ allOf st !! k ≫= nodes = None)
        by (right; right; by rewrite Hr).
      unfold after. rewrite (Hnothing st H). simpl. by apply Hgoal, Hnothing. }
  destruct (ChatTimeFacts.cleanupTempIds_run k st r ns Hk Hr Hns) as [Hpos Hrun].
  unfold after at 1 3 4. rewrite Hrun. simpl.
  set (ns' := filter (λ kv, isTempId kv.1 = false) ns) in *.
  assert (Hff : filter (λ kv : string * Z, isTempId kv.1 = false) ns' = ns').
  { apply map_filter_id. intros i x Hx.
    by apply map_lookup_filter_Some in Hx as [_ ?]. }
  destruct (Z.ltb_spec 0 (Z.of_nat (size ns) - Z.of_nat (size ns'))) as [Hn|Hn].
  - set (s1 := Area _ _).
    destruct (ChatTimeFacts.cleanupTempIds_run k s1 (withNodes ns' r) ns' Hk) as [_ Hrun1].
    { unfold s1. rewrite ChatTimeFacts.allOf_Area. simpl. apply lookup_insert_eq. }
    { done. }
    rewrite Hff in Hrun1. rewrite Z.sub_diag in Hrun1. simpl in Hrun1.
    by apply Hgoal.
  - apply Hgoal. rewrite Hrun.
    assert (ns' = ns) as Heq.
    { apply map_subseteq_size_eq; [apply map_filter_subseteq|lia]. }
    rewrite Heq, Z.sub_diag. done.
Qed.

(** What [cleanup] computes. *)
Lemma cleanup_run (now days : Z) (st : storage) :
  let maxAge := days * 24 * 60 * 60 * 1000 in
  let all' := filter (λ kv, inactive now maxAge kv.2 = false) (allOf st) in
  let n := Z.of_nat (size (allOf st)) - Z.of_nat (size all') in
  0 ≤ n
  ∧ cleanup now days st = (n, if 0 <? n then Area (Some all') (S (setCalls st)) else st).
Proof.
  unfold cleanup, allOf. run_op. destruct st as [o cnt]. simpl.
  set (all := match o with Some all => all | None => ∅ end).
  destruct (ChatTimeFacts.cleanup_loop now (days * 24 * 60 * 60 * 1000) all)
    as (H1 & H2 & H3). simpl in *.
  destruct (foldl _ (all, 0) (map_to_list all)) as [all' cleaned] eqn:Hloop.
  simpl in *.
  assert (all' = filter (λ kv, inactive now (days * 24 * 60 * 60 * 1000) kv.2 = false) all)
    as ->.
  { apply map_eq. intros k. rewrite H1, map_lookup_filter.
    destruct (all !! k) as [d|]; simpl; [|done].
    destruct (inactive _ _ d) eqn:E.
    - rewrite option_guard_False; [done|]. simpl. congruence.
    - by rewrite option_guard_True. }
  assert (cleaned = Z.of_nat (size all)
                    - Z.of_nat (size (filter (λ kv, inactive now (days * 24 * 60 * 60 * 1000) kv.2 = false) all)))
    as <- by lia.
  split; [done|]. by destruct (0 <? cleaned).
Qed.

(** X4. A second [cleanup] at the same time and with the same limit
    removes nothing: it returns [0] and writes nothing. *)
Theorem cleanup_idempotent (now days : Z) (st : storage) :
  let st1 := after (cleanup now days) st in
  result (cleanup now days) st1 = 0 ∧ after (cleanup now days) st1 = st1.
Proof.
  intros st1. subst st1.
  destruct (cleanup_run now days st) as [Hpos Hrun]. simpl in *.
  unfold after at 1 3 4. rewrite Hrun. simpl.
  set (maxAge := days * 24 * 60 * 60 * 1000) in *.
  set (all' := filter (λ kv, inactive now maxAge kv.2 = false) (allOf st)) in *.
  assert (Hff : filter (λ kv : string * ConversationTimeRecord,
                          inactive now maxAge kv.2 = false) all' = all').
  { apply map_filter_id. intros i x Hx.
    by apply map_lookup_filter_Some in Hx as [_ ?]. }
  assert (Hgoal : ∀ s, cleanup now days s = (0, s) →
                       result (cleanup now days) s = 0 ∧ after (cleanup now days) s = s).
  { intros s Hs. unfold result, after. by rewrite Hs. }
  destruct (Z.ltb_spec 0 (Z.of_nat (size (allOf st)) - Z.of_nat (size all'))) as [Hn|Hn].
  - apply Hgoal. destruct (cleanup_run now days (Area (Some all') (S (setCalls st))))
      as [_ Hrun1]. simpl in Hrun1. rewrite ChatTimeFacts.allOf_Area in Hrun1.
    simpl in Hrun1. fold maxAge in Hrun1. rewrite Hff, Z.sub_diag in Hrun1. done.
  - apply Hgoal. rewrite Hrun. fold maxAge. fold all'.
    assert (all' = allOf st) as Heq.
    { apply map_subseteq_size_eq; [apply map_filter_subseteq|lia]. }
    rewrite Heq, Z.sub_diag. done.
Qed.

(** X5. A conversation whose visit was just recorded is kept by a [cleanup]
    at the same time, whatever the limit (not negative), with its record as
    [updateLastVisit] left it. *)
Theorem cleanup_keeps_visited (now days : Z) (k : string) (st : storage)
    (r : ConversationTimeRecord) :
  k ≠ "" → allOf st !! k = Some r → now ≠ 0 → 0 ≤ days →
  allOf (after (cleanup now days) (after (updateLastVisit now k) st)) !! k
  = Some (Rec (createTime r) (Some now) (nodes r)).
Proof.
  intros Hk Hr Hnow Hdays.
  set (st1 := after (updateLastVisit now k) st) in *.
  assert (H1 : allOf st1 !! k = Some (Rec (createTime r) (Some now) (nodes r))).
  { unfold st1, updateLastVisit, allOf in *. destruct k as [|c k]; [done|]. simpl.
    run_op. destruct st as [o cnt]. simpl in *. rewrite Hr. simpl.
    apply lookup_insert_eq. }
  destruct (cleanup_run now days st1) as [_ Hrun]. simpl in Hrun.
  unfold after at 1. rewrite Hrun. simpl.
  assert (Hact : inactive now (days * 24 * 60 * 60 * 1000)
                          (Rec (createTime r) (Some now) (nodes r)) = false).
  { unfold inactive. simpl. apply JS.truthyNum_true in Hnow. rewrite Hnow. simpl.
    apply Z.ltb_ge. lia. }
  destruct (0 <? _); [|done].
  rewrite ChatTimeFacts.allOf_Area. simpl. rewrite map_lookup_filter, H1. simpl.
  by rewrite option_guard_True.
Qed.

Lemma cleanup_keeps_visited_witness :
  allOf (after (cleanup 1709251200000 30)
               (after (updateLastVisit 1709251200000 "chat.example/c/1") storeOld))
        !! "chat.example/c/1"
  = Some (Rec (Some 1704067200000) (Some 1709251200000)
              (Some {[ "gemini-r_abc" := 1704067200000 ]})).
Proof.
  apply (cleanup_keeps_visited 1709251200000 30 "chat.example/c/1" storeOld
           (Rec (Some 1704067200000) (Some 1704067200000)
                (Some {[ "gemini-r_abc" := 1704067200000 ]})));
    [discriminate | reflexivity | lia | lia].
Defined.

(** *** migrateNodeId and the rest of the store *)

(** X6. A successful [migrateNodeId] between different ids that finds an
    entry of the conversation under the temporary id makes one write and
    changes no other conversation.  It keeps the number of recorded turns,
    unless the real id already had a time, which is replaced, or the real id
    is [__proto__], under which nothing is stored: then the conversation has
    one entry less. *)
Theorem migrateNodeId_frame (k tempId realId : string) (st : storage) :
  result (migrateNodeId k tempId realId) st = true →
  tempId ≠ realId →
  is_Some (nodesOf st k !! tempId) →
  let st' := after (migrateNodeId k tempId realId) st in
  (∀ k', k' ≠ k → allOf st' !! k' = allOf st !! k')
  ∧ size (nodesOf st' k)
    = match nodesOf st k !! realId with
      | Some _ => pred (size (nodesOf st k))
      | None => if bool_decide (realId = "__proto__")
                then pred (size (nodesOf st k))
                else size (nodesOf st k)
      end
  ∧ setCalls st' = S (setCalls st).
Proof.
  intros Hres Hne [ts Hts] st'. subst st'.
  destruct (ChatTimeFacts.migrateNodeId_args _ _ _ _ Hres) as (Hk & Ht & Hr).
  unfold nodesOf in Hts.
  destruct (allOf st !! k) as [rec|] eqn:Hrec; [|by rewrite lookup_empty in Hts].
  destruct (nodes rec) as [ns|] eqn:Hns; simpl in Hts;
    [|by rewrite lookup_empty in Hts].
  unfold after.
  rewrite (ChatTimeFacts.migrateNodeId_own k tempId realId st rec ns ts) by done.
  cbn [snd]. split_and!.
  - intros k' Hk'. rewrite ChatTimeFacts.allOf_Area. simpl.
    by rewrite lookup_insert_ne.
  - unfold nodesOf. rewrite ChatTimeFacts.allOf_Area. simpl.
    rewrite lookup_insert_eq, Hrec, Hns. simpl.
    assert (size ns ≠ 0%nat).
    { intros Hz%map_size_empty_inv. subst. by rewrite lookup_empty in Hts. }
    unfold JS.put. rewrite lookup_delete_ne by done.
    destruct (ns !! realId) eqn:Hreal.
    + rewrite map_size_insert, lookup_delete_ne, Hreal by done.
      rewrite map_size_delete_Some by eauto. done.
    + destruct (bool_decide (realId = "__proto__")).
      * rewrite map_size_delete_Some by eauto. done.
      * rewrite map_size_insert, lookup_delete_ne, Hreal by done.
        rewrite map_size_delete_Some by eauto. lia.
  - done.
Qed.

Lemma migrateNodeId_frame_witness :
  let st' := after (migrateNodeId "chat.example/c/1" "gemini-0" "gemini-r_abc") store2 in
  (∀ k', k' ≠ "chat.example/c/1" → allOf st' !! k' = allOf store2 !! k')
  ∧ size (nodesOf st' "chat.example/c/1")
    = match nodesOf store2 "chat.example/c/1" !! "gemini-r_abc" with
      | Some _ => pred (size (nodesOf store2 "chat.example/c/1"))
      | None => if bool_decide ("gemini-r_abc" = "__proto__")
                then pred (size (nodesOf store2 "chat.example/c/1"))
                else size (nodesOf store2 "chat.example/c/1")
      end
  ∧ setCalls st' = S (setCalls store2).
Proof.
  apply (migrateNodeId_frame "chat.example/c/1" "gemini-0" "gemini-r_abc" store2);
    [reflexivity | discriminate | by exists 150].
Defined.

(** A time moved to [__proto__] is lost: the assignment stores nothing. *)
Example migrateNodeId_to_proto :
  let st' := after (migrateNodeId "chat.example/c/1" "gemini-0" "__proto__") store1 in
  result (migrateNodeId "chat.example/c/1" "gemini-0" "__proto__") store1 = true
  ∧ nodesOf st' "chat.example/c/1" = ∅.
Proof. vm_compute. done. Qed.

End ChatTimeMoreFacts.

(** ** More on the star collection *)

Module StarMoreFacts.
Import StorageAdapter Turn StarStorageManager StarStorageOps StarExamples.
Open Scope string_scope.
Open Scope list_scope.
Open Scope Z_scope.

Ltac run_op := unfold result, after, bind, ret, getAll, get, set in *; simpl in *.

Lemma itemsOf_Area (o : option (list StarItem)) (n : nat) :
  itemsOf (Area o n) = default [] o.
Proof. by destruct o. Qed.

(** *** remove *)

Lemma filter_all {A} (P : A → Prop) `{∀ x, Decision (P x)} (l : list A) :
  Forall P l → filter P l = l.
Proof.
  induction 1 as [|x l Hx Hl IH]; [done|].
  rewrite filter_cons. destruct (decide (P x)); [|done]. by rewrite IH.
Qed.

Lemma remove_run (k : string) (st : storage) :
  k ≠ "" →
  StarStorageManager.remove k st
  = (tt, Area (Some (filter (λ item, key item ≠ k) (itemsOf st))) (S (setCalls st))).
Proof.
  intros Hk. unfold StarStorageManager.remove, itemsOf.
  destruct k; [done|]. simpl. run_op. done.
Qed.

Lemma lookupKey_filter_ne (k k' : string) (l : list StarItem) :
  lookupKey k' (filter (λ item, key item ≠ k) l)
  = if bool_decide (k' = k) then None else lookupKey k' l.
Proof.
  unfold lookupKey. induction l as [|x l IH]; simpl.
  - by destruct (bool_decide (k' = k)).
  - rewrite filter_cons. destruct (decide (key x ≠ k)) as [Hx|Hx]; simpl.
    + destruct (decide (key x = k')) as [E|E].
      * rewrite (bool_decide_eq_true_2 _ E).
        rewrite bool_decide_eq_false_2; [done|]. congruence.
      * by rewrite (bool_decide_eq_false_2 _ E).
    + apply dec_stable in Hx. rewrite IH.
      destruct (decide (k' = k)) as [->|E].
      * by rewrite bool_decide_eq_true_2.
      * rewrite (bool_decide_eq_false_2 (k' = k)) by done.
        rewrite bool_decide_eq_false_2; [done|]. congruence.
Qed.

Lemma findByKey_result (k : string) (st : storage) :
  k ≠ "" → findByKey k st = (lookupKey k (itemsOf st), st).
Proof. intros Hk. unfold findByKey. destruct k; [done|]. done. Qed.

(** X7. After [remove(key)] no record has the key, the records of the other
    keys are found as before, and removing the key of a record that [add]
    has just appended gives the collection back. *)
Theorem remove_then_find (k : string) (st : storage) :
  k ≠ "" →
  let st' := after (StarStorageManager.remove k) st in
  result (findByKey k) st' = None
  ∧ result (exists_ k) st' = false
  ∧ (∀ k', k' ≠ k → result (findByKey k') st' = result (findByKey k') st)
  ∧ (∀ item, key item = k → k ∉ key <$> itemsOf st →
       itemsOf (after (StarStorageManager.remove k) (after (add item) st)) = itemsOf st).
Proof.
  intros Hk st'. subst st'. unfold after at 1 2 3. rewrite remove_run by done. simpl.
  split_and!.
  - unfold result. rewrite findByKey_result by done. simpl.
    rewrite itemsOf_Area. simpl. rewrite lookupKey_filter_ne.
    by rewrite bool_decide_eq_true_2.
  - unfold result, exists_, bind, ret. rewrite findByKey_result by done. simpl.
    rewrite itemsOf_Area. simpl. rewrite lookupKey_filter_ne.
    by rewrite bool_decide_eq_true_2.
  - intros k' Hne. unfold result. destruct (decide (k' = "")) as [->|Hk'].
    { done. }
    rewrite !findByKey_result by done. simpl. rewrite itemsOf_Area. simpl.
    rewrite lookupKey_filter_ne. by rewrite bool_decide_eq_false_2.
  - intros item Hkey Hnew. unfold after at 1. rewrite remove_run by done. simpl.
    rewrite itemsOf_Area. simpl.
    rewrite StarFacts.add_items by congruence.
    rewrite StarFacts.upsert_new by congruence.
    rewrite filter_app. simpl. rewrite filter_cons.
    destruct (decide (key item ≠ k)) as [?|_]; [done|]. simpl. rewrite app_nil_r.
    apply filter_all. apply Forall_forall. intros x Hx E. apply Hnew.
    rewrite <- E. apply list_elem_of_fmap. by exists x.
Qed.

Lemma remove_then_find_witness :
  let st' := after (StarStorageManager.remove "chat.example/c/1:5")
                   (after (add starA) (Area None 0)) in
  result (findByKey "chat.example/c/1:5") st' = None
  ∧ result (exists_ "chat.example/c/1:5") st' = false
  ∧ (∀ k', k' ≠ "chat.example/c/1:5" →
           result (findByKey k') st'
           = result (findByKey k') (after (add starA) (Area None 0)))
  ∧ (∀ item, key item = "chat.example/c/1:5" →
       "chat.example/c/1:5" ∉ key <$> itemsOf (after (add starA) (Area None 0)) →
       itemsOf (after (StarStorageManager.remove "chat.example/c/1:5")
                      (after (add item) (after (add starA) (Area None 0))))
       = itemsOf (after (add starA) (Area None 0))).
Proof.
  apply (remove_then_find "chat.example/c/1:5" (after (add starA) (Area None 0))).
  discriminate.
Defined.

(** *** update *)

Lemma findIndex_cases {A} (p : A → bool) (l : list A) :
  (findIndex p l = -1 ∧ Forall (λ x, p x = false) l)
  ∨ ∃ (i : nat) (x : A),
      findIndex p l = Z.of_nat i ∧ l !! i = Some x ∧ p x = true
      ∧ ∀ j y, (j < i)%nat → l !! j = Some y → p y = false.
Proof.
  unfold findIndex. induction l as [|a l IH]; simpl.
  - left. by split.
  - destruct (p a) eqn:Ha.
    + right. exists 0%nat, a. split_and!; [done|done|done|]. intros j y Hj. lia.
    + rewrite StarFacts.findIndexFrom_shift. destruct IH as [[E Hall]|(i & x & E & Hi & Hx & Hfirst)].
      * left. rewrite E. simpl. split; [done|]. by constructor.
      * right. exists (S i), x. rewrite E.
        destruct (Z.eqb_spec (Z.of_nat i) (-1)); [lia|].
        split_and!; [lia|done|done|].
        intros [|j] y Hj Hy; simpl in Hy; [congruence|]. apply (Hfirst j); [lia|done].
Qed.

Lemma update_run (k : string) (u : StarPatch) (st : storage) :
  k ≠ "" →
  ((k ∉ key <$> itemsOf st) ∧ update k (Some u) st = (tt, st))
  ∨ ∃ (i : nat) (old : StarItem),
      itemsOf st !! i = Some old ∧ key old = k
      ∧ (∀ j x, (j < i)%nat → itemsOf st !! j = Some x → key x ≠ k)
      ∧ update k (Some u) st
        = (tt, Area (Some (<[i := spread old u]> (itemsOf st))) (S (setCalls st))).
Proof.
  intros Hk. unfold update, itemsOf. destruct k as [|c k]; [done|]. simpl.
  run_op. set (l := match stored st with Some items => items | None => [] end).
  destruct (findIndex_cases (λ item, bool_decide (key item = String c k)) l)
    as [[E Hall]|(i & x & E & Hi & Hx & Hfirst)].
  - left. rewrite E. simpl. split; [|done].
    intros (x & Hkx & Hin)%list_elem_of_fmap.
    rewrite Forall_forall in Hall. specialize (Hall x Hin).
    by apply bool_decide_eq_false_1 in Hall.
  - right. exists i, x. rewrite E.
    destruct (Z.leb_spec 0 (Z.of_nat i)); [|lia]. rewrite Nat2Z.id, Hi.
    apply bool_decide_eq_true_1 in Hx. split_and!; [done|done| |done].
    intros j y Hj Hy. specialize (Hfirst j y Hj Hy).
    by apply bool_decide_eq_false_1 in Hfirst.
Qed.

(** X8. [update] of a key that no record has writes nothing.  Otherwise
    the first record with the key is replaced, where it stands, by its merge
    with the updates, with one [set]; and when the updates carry no [key],
    the keys of the collection stay as they are. *)
Theorem update_in_place (k : string) (u : StarPatch) (st : storage) :
  k ≠ "" →
  let st' := after (update k (Some u)) st in
  (k ∉ key <$> itemsOf st → st' = st)
  ∧ (∀ i old, itemsOf st !! i = Some old → key old = k →
       (∀ j x, (j < i)%nat → itemsOf st !! j = Some x → key x ≠ k) →
       st' = Area (Some (<[i := spread old u]> (itemsOf st))) (S (setCalls st)))
  ∧ (pKey u = None → key <$> itemsOf st' = key <$> itemsOf st).
Proof.
  intros Hk st'. subst st'.
  destruct (update_run k u st Hk) as [[Habs Hrun]|(i & old & Hi & Hold & Hfirst & Hrun)];
    unfold after; rewrite Hrun; simpl.
  - split_and!; [done| |done]. intros j x Hj Hx _. exfalso. apply Habs.
    apply list_elem_of_fmap. exists x. split; [done|]. by eapply list_elem_of_lookup_2.
  - split_and!.
    + intros Habs. exfalso. apply Habs. apply list_elem_of_fmap. exists old.
      split; [done|]. by eapply list_elem_of_lookup_2.
    + intros j x Hj Hx Hfirst'.
      assert (j = i) as ->.
      { destruct (Nat.lt_trichotomy j i) as [Hlt|[->|Hgt]]; [|done|].
        - by specialize (Hfirst j x Hlt Hj).
        - by specialize (Hfirst' i old Hgt Hi). }
      rewrite Hi in Hj. by injection Hj as ->.
    + intros Hnone. rewrite itemsOf_Area. simpl.
      rewrite list_fmap_insert. apply list_insert_id.
      rewrite list_lookup_fmap, Hi. simpl. unfold spread. simpl. by rewrite Hnone.
Qed.

Lemma update_in_place_witness :
  let st := after (add starC) (after (add starA) (Area None 0)) in
  let u := Patch None None None None None None (Some (Some "folder-2")) in
  after (update "chat.example/c/1:7" (Some u)) st
  = Area (Some (<[1%nat := spread starC u]> (itemsOf st))) (S (setCalls st)).
Proof.
  intros st u.
  destruct (update_in_place "chat.example/c/1:7" u st) as (_ & H & _); [discriminate|].
  apply (H 1%nat starC).
  - reflexivity.
  - reflexivity.
  - intros [|[|j]] x Hj Hx; [|lia|lia]. injection Hx as <-. discriminate.
Defined.

(** Without a key or without updates, [update] does nothing. *)
Lemma update_nothing (k : string) (u : option StarPatch) (st : storage) :
  k = "" ∨ u = None → update k u st = (tt, st).
Proof. intros [->| ->]; [by destruct u|done]. Qed.

(** *** getStarredItems *)

Section Sorting.
Context {A : Type} (f : A → Z).

Local Abbreviation cmp := (λ a b : A, f b - f a).
Local Abbreviation newerFirst := (λ a b : A, f b ≤ f a).

Lemma insertBy_perm (x : A) (l : list A) : insertBy cmp x l ≡ₚ x :: l.
Proof.
  induction l as [|y l IH]; simpl; [done|].
  destruct (f y - f x <=? 0); [done|]. rewrite IH. apply Permutation_swap.
Qed.

Lemma insertBy_sorted (x : A) (l : list A) :
  StronglySorted newerFirst l → StronglySorted newerFirst (insertBy cmp x l).
Proof.
  induction 1 as [|y l Hl IH Hy]; simpl.
  - repeat constructor.
  - destruct (Z.leb_spec (f y - f x) 0) as [Hle|Hgt].
    + constructor; [by constructor|]. constructor; [lia|].
      eapply Forall_impl; [exact Hy|]. simpl. intros z Hz. lia.
    + constructor; [done|]. rewrite insertBy_perm. constructor; [lia|done].
Qed.

Lemma sortBy_perm (l : list A) : sortBy cmp l ≡ₚ l.
Proof.
  induction l as [|x l IH]; simpl; [done|]. by rewrite insertBy_perm, IH.
Qed.

Lemma sortBy_sorted (l : list A) : StronglySorted newerFirst (sortBy cmp l).
Proof.
  induction l as [|x l IH]; simpl; [constructor|]. by apply insertBy_sorted.
Qed.

End Sorting.

Lemma StronglySorted_lookup {A} (R : A → A → Prop) (l : list A) i j a b :
  StronglySorted R l → (i < j)%nat → l !! i = Some a → l !! j = Some b → R a b.
Proof.
  intros Hs. revert i j. induction Hs as [|x l Hs IH Hx]; intros i j Hij Hi Hj; [done|].
  destruct j as [|j]; [lia|]. simpl in Hj. destruct i as [|i]; simpl in Hi.
  - injection Hi as ->. rewrite Forall_forall in Hx. apply Hx.
    by eapply list_elem_of_lookup_2.
  - apply (IH i j); [lia|done|done].
Qed.

(** X9. [getStarredItems] returns the stored stars, every one of them once,
    ordered from the newest to the oldest, and does not write. *)
Theorem getStarredItems_newest_first (st : storage) :
  let items := result getStarredItems st in
  items ≡ₚ itemsOf st
  ∧ (∀ i j a b, (i < j)%nat → items !! i = Some a → items !! j = Some b →
                orZero (timestamp b) ≤ orZero (timestamp a))
  ∧ after getStarredItems st = st.
Proof.
  unfold getStarredItems, itemsOf. run_op.
  set (l := match stored st with Some items => items | None => [] end).
  split_and!; [|intros i j a b|done].
  - apply (sortBy_perm (λ x, orZero (timestamp x))).
  - apply (StronglySorted_lookup (λ a b, orZero (timestamp b) ≤ orZero (timestamp a))).
    apply (sortBy_sorted (λ x, orZero (timestamp x))).
Qed.

End StarMoreFacts.

(** ** More on the migrations *)

Module MigrationMoreFacts.
Import Migrations SyncEntries LegacyRecords MigrationExamples.
Open Scope string_scope.
Open Scope list_scope.
Open Scope Z_scope.

(** *** The storage calls *)

Lemma lookup_foldl_delete (keys : list string) (m : gmap string JsVal) (k : string) :
  foldl (λ acc k, delete k acc) m keys !! k
  = if bool_decide (k ∈ keys) then None else m !! k.
Proof.
  revert m. induction keys as [|k0 keys IH]; intros m; simpl; [done|].
  rewrite IH. destruct (decide (k = k0)) as [->|Hne].
  - rewrite lookup_delete_eq. rewrite (bool_decide_eq_true_2 (k0 ∈ k0 :: keys)) by left.
    by destruct (bool_decide _).
  - rewrite lookup_delete_ne by done.
    destruct (decide (k ∈ keys)) as [Hin|Hin].
    + rewrite (bool_decide_eq_true_2 _ Hin).
      by rewrite bool_decide_eq_true_2 by (by right).
    + rewrite (bool_decide_eq_false_2 _ Hin).
      rewrite bool_decide_eq_false_2; [done|].
      intros [?|?]%elem_of_cons; done.
Qed.

Lemma lookup_foldl_insert_notin (items : list (string * JsVal))
    (m : gmap string JsVal) (k : string) :
  k ∉ items.*1 →
  foldl (λ acc kv, <[kv.1 := kv.2]> acc) m items !! k = m !! k.
Proof.
  revert m. induction items as [|[k0 v0] items IH]; intros m Hk; simpl; [done|].
  rewrite IH.
  - rewrite lookup_insert_ne; [done|]. intros ->. apply Hk. left.
  - intros Hin. apply Hk. by right.
Qed.

Lemma lookup_foldl_insert_in (items : list (string * JsVal))
    (m : gmap string JsVal) (k : string) (v : JsVal) :
  NoDup items.*1 → (k, v) ∈ items →
  foldl (λ acc kv, <[kv.1 := kv.2]> acc) m items !! k = Some v.
Proof.
  revert m. induction items as [|[k0 v0] items IH]; intros m Hnd Hin; simpl.
  { by apply elem_of_nil in Hin. }
  simpl in Hnd. apply NoDup_cons in Hnd as [Hk0 Hnd].
  apply elem_of_cons in Hin as [[= -> ->]|Hin].
  - rewrite lookup_foldl_insert_notin by done. apply lookup_insert_eq.
  - by apply IH.
Qed.

Lemma NoDup_fst_filter (P : string * JsVal → Prop) `{∀ x, Decision (P x)}
    (l : list (string * JsVal)) :
  NoDup l.*1 → NoDup (filter P l).*1.
Proof.
  induction l as [|[k v] l IH]; simpl; [done|]. intros [Hk Hnd]%NoDup_cons.
  rewrite filter_cons. destruct (decide (P (k, v))); [|by apply IH].
  simpl. apply NoDup_cons. split; [|by apply IH].
  intros ([k' v'] & -> & Hin)%list_elem_of_fmap.
  apply list_elem_of_filter in Hin as [_ Hin]. apply Hk.
  apply list_elem_of_fmap. by exists (k', v').
Qed.

(** *** migrateLocalKeys *)

Lemma migrateLocalKeys_run (b : Browser) :
  sync (migrateLocalKeys b) = sync b
  ∧ chromeStorage (migrateLocalKeys b) = chromeStorage b
  ∧ (∀ k, k ≠ "biwhckdj" → k ≠ "prompts" → local (migrateLocalKeys b) !! k = local b !! k)
  ∧ (chromeStorage b = true →
     truthy (local (migrateLocalKeys b) !! "biwhckdj") = false
     ∧ local (migrateLocalKeys b) !! "prompts"
       = if truthy (local b !! "biwhckdj") && negb (truthy (local b !! "prompts"))
         then local b !! "biwhckdj"
         else local b !! "prompts")
  ∧ (truthy (local b !! "biwhckdj") = false → local (migrateLocalKeys b) = local b).
Proof.
  unfold migrateLocalKeys.
  destruct (chromeStorage b) eqn:Hc; cbn [negb].
  2:{ split_and!; done. }
  cbv zeta. cbn [local logCall].
  destruct (local b !! "biwhckdj") as [old|] eqn:Hold.
  2:{ cbn [sync chromeStorage local logCall]. split_and!; try done.
      intros _. simpl. by rewrite Hold. }
  destruct (truthy (Some old)) eqn:Ht.
  - destruct (truthy (local b !! "prompts")) eqn:Hp; cbn [andb negb].
    + cbn [localRemove logCall sync chromeStorage local foldl].
      split_and!; try done.
      * intros k H1 H2. by rewrite lookup_delete_ne.
      * intros _. rewrite lookup_delete_eq. split; [done|].
        by rewrite lookup_delete_ne.
    + cbn [localRemove localSet logCall sync chromeStorage local foldl fst snd].
      split_and!; try done.
      * intros k H1 H2. rewrite lookup_delete_ne by done. by rewrite lookup_insert_ne.
      * intros _. rewrite lookup_delete_eq. split; [done|].
        rewrite lookup_delete_ne by done. by rewrite lookup_insert_eq.
  - cbn [andb]. cbn [sync chromeStorage local logCall].
    split_and!; try done. intros _. rewrite Hold, Ht. done.
Qed.

Lemma migrateLocalKeys_again (b : Browser) :
  local (migrateLocalKeys (migrateLocalKeys b)) = local (migrateLocalKeys b).
Proof.
  destruct (migrateLocalKeys_run b) as (H1 & H2 & H3 & H4 & H5).
  destruct (chromeStorage b) eqn:Hc.
  - destruct (H4 eq_refl) as [Hf _].
    destruct (migrateLocalKeys_run (migrateLocalKeys b)) as (_ & _ & _ & _ & H5').
    by apply H5'.
  - unfold migrateLocalKeys. rewrite Hc. simpl. by rewrite Hc.
Qed.

(** X10. [migrateLocalKeys] leaves no truthy value under the old key
    [biwhckdj]; the prompts found there go to [prompts] unless [prompts]
    already holds a truthy value, which is kept; no other key and nothing of
    the synced area changes; and a second run changes nothing more. *)
Theorem migrateLocalKeys_effect (b : Browser) :
  let b' := migrateLocalKeys b in
  sync b' = sync b
  ∧ (∀ k, k ≠ "biwhckdj" → k ≠ "prompts" → local b' !! k = local b !! k)
  ∧ (chromeStorage b = true →
     truthy (local b' !! "biwhckdj") = false
     ∧ local b' !! "prompts"
       = if truthy (local b !! "biwhckdj") && negb (truthy (local b !! "prompts"))
         then local b !! "biwhckdj"
         else local b !! "prompts")
  ∧ local (migrateLocalKeys b') = local b'.
Proof.
  intros b'. subst b'.
  destruct (migrateLocalKeys_run b) as (H1 & H2 & H3 & H4 & H5).
  split_and!; [done|done|done|]. apply migrateLocalKeys_again.
Qed.

Lemma migrateLocalKeys_effect_witness :
  truthy (local (migrateLocalKeys browserLegacy) !! "biwhckdj") = false
  ∧ local (migrateLocalKeys browserLegacy) !! "prompts"
    = if truthy (local browserLegacy !! "biwhckdj")
         && negb (truthy (local browserLegacy !! "prompts"))
      then local browserLegacy !! "biwhckdj"
      else local browserLegacy !! "prompts".
Proof.
  apply (proj1 (proj2 (proj2 (migrateLocalKeys_effect browserLegacy)))).
  reflexivity.
Defined.

(** *** migrateFromSyncToLocal *)

Lemma splitSyncData_spec (entries : list (string * JsVal)) :
  splitSyncData entries
  = (omap starOf entries, omap pinOf entries, filter (λ kv, isOther kv.1 = true) entries).
Proof.
  unfold splitSyncData.
  assert (H : ∀ s p o,
    foldl (λ '(starItems, pinItems, otherData) '(key, value),
             if String.prefix "chatTimelineStar:" key then
               if isObject value
               then (starItems ++ [withKey key value], pinItems, otherData)
               else (starItems, pinItems, otherData)
             else if String.prefix "chatTimelinePin:" key then
               if isObject value
               then (starItems, pinItems ++ [withKey key value], otherData)
               else (starItems, pinItems, otherData)
             else if bool_decide (key = "__proto__") then (starItems, pinItems, otherData)
             else (starItems, pinItems, otherData ++ [(key, value)]))
          (s, p, o) entries
    = (s ++ omap starOf entries, p ++ omap pinOf entries,
       o ++ filter (λ kv, isOther kv.1 = true) entries)).
  { induction entries as [|[k v] l IH]; intros s p o; simpl.
    - by rewrite !app_nil_r.
    - rewrite filter_cons. unfold starOf, pinOf, isOther. simpl.
      destruct (String.prefix "chatTimelineStar:" k) eqn:Hs; simpl.
      + destruct (isObject v); rewrite IH; [by rewrite <- app_assoc|done].
      + destruct (String.prefix "chatTimelinePin:" k) eqn:Hp; simpl.
        * destruct (isObject v); rewrite IH; [by rewrite <- app_assoc|done].
        * destruct (bool_decide (k = "__proto__")); simpl; rewrite IH; [done|].
          by rewrite <- app_assoc. }
  apply H.
Qed.

Lemma nonempty_length {A} (l : list A) : (0 <? Z.of_nat (length l)) = negb (bool_decide (l = [])).
Proof. by destruct l. Qed.

(** The state after [migrateFromSyncToLocal] when there is a synced area. *)
Lemma migrateFromSyncToLocal_run (b : Browser) (data : gmap string JsVal) :
  chromeStorage b = true → sync b = Some data →
  let entries := map_to_list data in
  let stars := omap starOf entries in
  let pins := omap pinOf entries in
  let m1 := foldl (λ acc kv, <[kv.1 := kv.2]> acc) (local (migrateLocalKeys b))
                  (filter (λ kv, isOther kv.1 = true) entries) in
  let m2 := if bool_decide (stars = []) then m1
            else <["chatTimelineStars" := JArr stars]> m1 in
  let m3 := if bool_decide (pins = []) then m2
            else <["chatTimelinePins" := JArr pins]> m2 in
  sync (migrateFromSyncToLocal b) = Some ∅
  ∧ local (migrateFromSyncToLocal b) = m3.
Proof.
  intros Hc Hs. unfold migrateFromSyncToLocal. rewrite Hc. cbn [negb]. cbv zeta.
  destruct (migrateLocalKeys_run b) as (Hsync & _).
  rewrite Hsync, Hs.
  destruct (map_to_list data) as [|e entries] eqn:Hlist.
  - apply map_to_list_empty_iff in Hlist. subst data. simpl.
    split; [by rewrite Hsync, Hs|done].
  - rewrite splitSyncData_spec.
    set (l := e :: entries) in *.
    cbn [syncClear localSet logCall sync local].
    rewrite Hsync, Hs. split; [done|].
    rewrite !foldl_app, !nonempty_length.
    destruct (bool_decide (omap starOf l = [])); destruct (bool_decide (omap pinOf l = []));
      done.
Qed.

(** X11. With a synced area, [migrateFromSyncToLocal] leaves it empty.  An
    entry whose key is not a single star or pin record (nor [__proto__]) is
    copied to the local area, over the local value if there is one; the
    single star and pin records themselves are not copied; a key that the
    synced area does not have keeps the value the key rename left; and when
    the synced area has star records, the local array [chatTimelineStars]
    becomes exactly the list made of them, whatever it held before. *)
Theorem migrateFromSyncToLocal_effect (b : Browser) (data : gmap string JsVal) :
  chromeStorage b = true → sync b = Some data →
  let b' := migrateFromSyncToLocal b in
  sync b' = Some ∅
  ∧ (∀ k v, data !! k = Some v → isOther k = true →
            k ≠ "chatTimelineStars" → k ≠ "chatTimelinePins" →
            local b' !! k = Some v)
  ∧ (∀ k, data !! k = None ∨ isOther k = false →
          k ≠ "chatTimelineStars" → k ≠ "chatTimelinePins" →
          local b' !! k = local (migrateLocalKeys b) !! k)
  ∧ (omap starOf (map_to_list data) ≠ [] →
     local b' !! "chatTimelineStars" = Some (JArr (omap starOf (map_to_list data))))
  ∧ (omap pinOf (map_to_list data) ≠ [] →
     local b' !! "chatTimelinePins" = Some (JArr (omap pinOf (map_to_list data)))).
Proof.
  intros Hc Hs b'. subst b'.
  destruct (migrateFromSyncToLocal_run b data Hc Hs) as [Hsync Hlocal].
  rewrite Hlocal. clear Hlocal.
  set (entries := map_to_list data).
  set (others := filter (λ kv, isOther kv.1 = true) entries).
  set (m1 := foldl _ (local (migrateLocalKeys b)) others).
  assert (Hnd : NoDup others.*1).
  { apply NoDup_fst_filter, NoDup_fst_map_to_list. }
  assert (Hskip : ∀ k : string, k ≠ "chatTimelineStars" → k ≠ "chatTimelinePins" →
    (if bool_decide (omap pinOf entries = [])
     then if bool_decide (omap starOf entries = []) then m1
          else <["chatTimelineStars" := JArr (omap starOf entries)]> m1
     else <["chatTimelinePins" := JArr (omap pinOf entries)]>
            (if bool_decide (omap starOf entries = []) then m1
             else <["chatTimelineStars" := JArr (omap starOf entries)]> m1)) !! k
    = m1 !! k).
  { intros k H1 H2.
    destruct (bool_decide (omap pinOf entries = []));
      destruct (bool_decide (omap starOf entries = []));
      rewrite ?lookup_insert_ne by done; done. }
  split_and!; [done| | | |].
  - intros k v Hk Ho H1 H2. rewrite Hskip by done.
    apply lookup_foldl_insert_in; [done|].
    apply list_elem_of_filter. split; [done|]. by apply elem_of_map_to_list.
  - intros k Hk H1 H2. rewrite Hskip by done.
    apply lookup_foldl_insert_notin.
    intros ([k' v] & -> & Hin)%list_elem_of_fmap.
    apply list_elem_of_filter in Hin as [Ho Hin]. simpl in *.
    apply elem_of_map_to_list in Hin. destruct Hk as [Hk|Hk]; congruence.
  - intros Hne. rewrite (bool_decide_eq_false_2 (omap starOf entries = [])) by done.
    destruct (bool_decide (omap pinOf entries = [])).
    + apply lookup_insert_eq.
    + rewrite lookup_insert_ne by done. apply lookup_insert_eq.
  - intros Hne. rewrite (bool_decide_eq_false_2 (omap pinOf entries = [])) by done.
    apply lookup_insert_eq.
Qed.

Lemma migrateFromSyncToLocal_effect_witness :
  sync (migrateFromSyncToLocal browserOld) = Some ∅
  ∧ local (migrateFromSyncToLocal browserOld) !! "biwhckdj"
    = Some (JArr [JStr "Summarise this"]).
Proof.
  destruct (migrateFromSyncToLocal_effect browserOld
              {[ "biwhckdj" := JArr [JStr "Summarise this"];
                 "chatTimelineStar:chat.example/c/1:2" :=
                   JObj [("url", JStr "https://chat.example/c/1");
                         ("urlWithoutProtocol", JStr "chat.example/c/1");
                         ("index", JNum 2);
                         ("question", JStr "What is a monad?")] ]})
    as (H1 & H2 & _); [reflexivity|reflexivity|].
  split; [exact H1|]. apply H2; [reflexivity|reflexivity|discriminate|discriminate].
Defined.

Lemma migrateLocalKeys_local_ext (x y : Browser) :
  chromeStorage x = chromeStorage y → local x = local y →
  local (migrateLocalKeys x) = local (migrateLocalKeys y).
Proof.
  intros Hc Hl. unfold migrateLocalKeys. rewrite Hc.
  destruct (chromeStorage y); cbn [negb]; [|done].
  cbv zeta. cbn [local logCall]. rewrite Hl.
  destruct (local y !! "biwhckdj"); [|done].
  repeat destruct (_ && _); cbn [localRemove localSet logCall local]; by rewrite ?Hl.
Qed.

Lemma migrateFromSyncToLocal_no_sync (b : Browser) :
  chromeStorage b = false ∨ sync b = None ∨ sync b = Some ∅ →
  local (migrateFromSyncToLocal b) = local (migrateLocalKeys b)
  ∧ sync (migrateFromSyncToLocal b) = sync b.
Proof.
  intros H. unfold migrateFromSyncToLocal.
  destruct (chromeStorage b) eqn:Hc; cbn [negb].
  2:{ unfold migrateLocalKeys. by rewrite Hc. }
  destruct (migrateLocalKeys_run b) as (Hsync & _). cbv zeta. rewrite Hsync.
  destruct H as [?|[Hs|Hs]]; [done| |]; rewrite Hs.
  - by rewrite Hsync, Hs.
  - rewrite map_to_list_empty. simpl. by rewrite Hsync, Hs.
Qed.

Lemma migrateFromSyncToLocal_sync_after (b : Browser) :
  chromeStorage b = false ∨ sync (migrateFromSyncToLocal b) = None
  ∨ sync (migrateFromSyncToLocal b) = Some ∅.
Proof.
  destruct (chromeStorage b) eqn:Hc; [|by left]. right.
  destruct (sync b) as [data|] eqn:Hs.
  - right. by destruct (migrateFromSyncToLocal_run b data Hc Hs).
  - left. destruct (migrateFromSyncToLocal_no_sync b) as [_ H]; [right; by left|].
    by rewrite H.
Qed.

(** What [migrateFromSyncToLocal] leaves under a key that is neither a
    single record nor one of the keys the migrations write themselves: the
    synced value if there is one, else the local value. *)
Lemma migrateFromSyncToLocal_other (b : Browser) (k : string) :
  isOther k = true →
  k ≠ "biwhckdj" → k ≠ "prompts" → k ≠ "chatTimelineStars" → k ≠ "chatTimelinePins" →
  local (migrateFromSyncToLocal b) !! k
  = match (if chromeStorage b then sync b ≫= (.!! k) else None) with
    | Some v => Some v
    | None => local b !! k
    end.
Proof.
  intros Hother H1 H2 H3 H4.
  destruct (migrateLocalKeys_run b) as (_ & _ & Hkeep & _).
  destruct (chromeStorage b) eqn:Hc.
  2:{ destruct (migrateFromSyncToLocal_no_sync b) as [Hl _]; [by left|].
      rewrite Hl. by apply Hkeep. }
  destruct (sync b) as [data|] eqn:Hs; simpl.
  2:{ destruct (migrateFromSyncToLocal_no_sync b) as [Hl _]; [right; by left|].
      rewrite Hl. by apply Hkeep. }
  destruct (migrateFromSyncToLocal_run b data Hc Hs) as [_ Hl]. rewrite Hl. clear Hl.
  set (others := filter (λ kv, isOther kv.1 = true) (map_to_list data)).
  assert (Hnd : NoDup others.*1).
  { apply NoDup_fst_filter, NoDup_fst_map_to_list. }
  assert (Hm1 : foldl (λ acc kv, <[kv.1 := kv.2]> acc) (local (migrateLocalKeys b)) others !! k
                = match data !! k with Some v => Some v | None => local b !! k end).
  { destruct (data !! k) as [v|] eqn:Hk.
    - apply lookup_foldl_insert_in; [done|].
      apply list_elem_of_filter. split; [done|]. by apply elem_of_map_to_list.
    - rewrite lookup_foldl_insert_notin; [by apply Hkeep|].
      intros ([k' v'] & Heq & Hin)%list_elem_of_fmap. simpl in Heq. subst k'.
      apply list_elem_of_filter in Hin as [_ Hin].
      apply elem_of_map_to_list in Hin. congruence. }
  destruct (bool_decide (omap starOf (map_to_list data) = []));
    destruct (bool_decide (omap pinOf (map_to_list data) = []));
    rewrite ?lookup_insert_ne by done; exact Hm1.
Qed.

(** X12. Loading twice is not the same as loading once: what the first
    load copies from the synced area is seen by the key rename of the second
    load only.  From the second load on, [migrateFromSyncToLocal] changes
    neither storage area. *)
Theorem migrateFromSyncToLocal_settles (b : Browser) :
  let b2 := migrateFromSyncToLocal (migrateFromSyncToLocal b) in
  local (migrateFromSyncToLocal b2) = local b2
  ∧ sync (migrateFromSyncToLocal b2) = sync b2.
Proof.
  intros b2. subst b2.
  set (b1 := migrateFromSyncToLocal b).
  assert (Hc1 : chromeStorage b1 = chromeStorage b)
    by apply MigrationFacts.migrateFromSyncToLocal_chromeStorage.
  assert (H1 : chromeStorage b1 = false ∨ sync b1 = None ∨ sync b1 = Some ∅).
  { destruct (migrateFromSyncToLocal_sync_after b) as [?|?]; [left; congruence|by right]. }
  destruct (migrateFromSyncToLocal_no_sync b1 H1) as [Hl2 Hs2].
  set (b2 := migrateFromSyncToLocal b1) in *.
  assert (Hc2 : chromeStorage b2 = chromeStorage b1)
    by apply MigrationFacts.migrateFromSyncToLocal_chromeStorage.
  assert (H2 : chromeStorage b2 = false ∨ sync b2 = None ∨ sync b2 = Some ∅).
  { destruct H1 as [?|H1]; [left; congruence|right]. by rewrite Hs2. }
  destruct (migrateFromSyncToLocal_no_sync b2 H2) as [Hl3 Hs3].
  split; [|done]. rewrite Hl3, Hl2.
  rewrite (migrateLocalKeys_local_ext b2 (migrateLocalKeys b1)).
  - apply migrateLocalKeys_again.
  - rewrite Hc2. by destruct (migrateLocalKeys_run b1) as (_ & -> & _).
  - done.
Qed.

(** The second load does change the local area when the synced area held
    the prompts under their old key. *)
Example second_load_renames :
  local (migrateFromSyncToLocal browserOld) !! "prompts" = None
  ∧ local (migrateFromSyncToLocal (migrateFromSyncToLocal browserOld)) !! "prompts"
    = Some (JArr [JStr "Summarise this"]).
Proof. vm_compute. done. Qed.

(** *** migrateFromLegacy *)

Lemma idOf_not_null (l : list JsVal) :
  Forall (λ v, v ≠ JNull) l → is_Some (mapM idOf l).
Proof.
  intros H. apply mapM_is_Some. eapply Forall_impl; [exact H|].
  intros v Hv. simpl. by destruct v.
Qed.

Lemma collect_prefix build allItems keys existing ids :
  existing `prefix_of` collect build allItems keys existing ids.
Proof.
  unfold collect.
  assert (H : ∀ items ids,
    items `prefix_of`
      (foldl (λ '(items, ids) key,
                match allItems !! key with
                | Some item =>
                    if negb (truthy (Some item))
                       || negb (truthy (getProp item "urlWithoutProtocol"))
                    then (items, ids)
                    else
                      let nodeId := nullish (getProp item "nodeId") (getProp item "index") in
                      let id := _makeId (getProp item "urlWithoutProtocol") nodeId in
                      if bool_decide (id ∈ ids) then (items, ids)
                      else (items ++ [build item nodeId], ids ++ [id])
                | None => (items, ids)
                end)
             (items, ids) keys).1).
  { clear. induction keys as [|k keys IH]; intros items ids; simpl; [done|].
    destruct (allItems !! k) as [item|]; [|apply IH].
    destruct (_ || _); [apply IH|]. cbv zeta.
    destruct (bool_decide _); [apply IH|].
    etrans; [|apply IH]. by apply prefix_app_r. }
  apply H.
Qed.

(** The local area after one family of [migrateFromLegacy]. *)
Lemma migrateFamily_run storageKey build allItems keys (b : Browser) :
  Forall (λ v, v ≠ JNull) (getAllOf storageKey b) →
  ∃ items,
    getAllOf storageKey b `prefix_of` items
    ∧ (migrateFamily storageKey build allItems keys b).2 = true
    ∧ sync (migrateFamily storageKey build allItems keys b).1 = sync b
    ∧ local (migrateFamily storageKey build allItems keys b).1
      = if bool_decide (keys = []) then local b
        else <[storageKey := JArr items]> (local b).
Proof.
  intros Hnn. unfold migrateFamily. destruct keys as [|k keys].
  { exists (getAllOf storageKey b). done. }
  rewrite bool_decide_eq_false_2 by done. cbv zeta.
  assert (Hg : getAllOf storageKey (logCall RecordShape (LocalGet (Some [storageKey])) b)
               = getAllOf storageKey b) by done.
  rewrite Hg. destruct (idOf_not_null _ Hnn) as [ids Hids]. rewrite Hids.
  eexists. split; [apply collect_prefix|]. done.
Qed.

Lemma legacy_keys_filter (m : gmap string JsVal) (k : string) :
  isLegacyKey k = true → is_Some (m !! k) →
  k ∈ filter (λ k, String.prefix "chatTimelineStar:" k = true) (map_to_list m).*1
      ++ filter (λ k, String.prefix "chatTimelinePin:" k = true) (map_to_list m).*1.
Proof.
  intros Hk [v Hv]. unfold isLegacyKey in Hk.
  assert (Hin : k ∈ (map_to_list m).*1).
  { apply list_elem_of_fmap. exists (k, v). split; [done|]. by apply elem_of_map_to_list. }
  apply elem_of_app. apply orb_true_iff in Hk as [Hk|Hk]; [left|right];
    by apply list_elem_of_filter.
Qed.

Lemma filter_keys_legacy (m : gmap string JsVal) (k : string) :
  k ∈ filter (λ k, String.prefix "chatTimelineStar:" k = true) (map_to_list m).*1
      ++ filter (λ k, String.prefix "chatTimelinePin:" k = true) (map_to_list m).*1 →
  isLegacyKey k = true.
Proof.
  unfold isLegacyKey.
  intros [[H _]%list_elem_of_filter|[H _]%list_elem_of_filter]%elem_of_app;
    rewrite H; [done|apply orb_true_r].
Qed.

(** X13. When the arrays [aitStars] and [aitPins] hold no [null],
    [migrateFromLegacy] leaves no single star or pin record in the local
    area, keeps the records the two arrays had, in their order and at the
    front, and changes no other key and nothing of the synced area. *)
Theorem migrateFromLegacy_removes_old_keys (now : Z) (b : Browser) :
  chromeStorage b = true →
  Forall (λ v, v ≠ JNull) (getAllOf "aitStars" b) →
  Forall (λ v, v ≠ JNull) (getAllOf "aitPins" b) →
  let b' := migrateFromLegacy now b in
  (∀ k, isLegacyKey k = true → local b' !! k = None)
  ∧ getAllOf "aitStars" b `prefix_of` getAllOf "aitStars" b'
  ∧ getAllOf "aitPins" b `prefix_of` getAllOf "aitPins" b'
  ∧ (∀ k, isLegacyKey k = false → k ≠ "aitStars" → k ≠ "aitPins" →
          local b' !! k = local b !! k)
  ∧ sync b' = sync b.
Proof.
  intros Hc Hstars Hpins b'. subst b'. unfold migrateFromLegacy.
  rewrite Hc. cbn [negb]. cbv zeta. cbn [local logCall].
  set (starKeys := filter (λ k, String.prefix "chatTimelineStar:" k = true)
                          (map_to_list (local b)).*1).
  set (pinKeys := filter (λ k, String.prefix "chatTimelinePin:" k = true)
                         (map_to_list (local b)).*1).
  set (b1 := logCall RecordShape (LocalGet None) b).
  assert (Hall :
    let b' := migrateRecords now (local b) starKeys pinKeys b1 in
    (∀ k, isLegacyKey k = true → local b' !! k = None)
    ∧ getAllOf "aitStars" b `prefix_of` getAllOf "aitStars" b'
    ∧ getAllOf "aitPins" b `prefix_of` getAllOf "aitPins" b'
    ∧ (∀ k, isLegacyKey k = false → k ≠ "aitStars" → k ≠ "aitPins" →
            local b' !! k = local b !! k)
    ∧ sync b' = sync b).
  { unfold migrateRecords.
    destruct (migrateFamily_run "aitStars" (newStar now) (local b) starKeys b1 Hstars)
      as (stars & Hpre1 & Hok1 & Hsync1 & Hloc1).
    destruct (migrateFamily "aitStars" (newStar now) (local b) starKeys b1) as [b2 ok1].
    simpl in *. subst ok1. cbn [negb].
    assert (Hpins2 : Forall (λ v, v ≠ JNull) (getAllOf "aitPins" b2)).
    { unfold getAllOf. rewrite Hloc1. destruct (bool_decide (starKeys = [])); [done|].
      by rewrite lookup_insert_ne. }
    destruct (migrateFamily_run "aitPins" (newPin now) (local b) pinKeys b2 Hpins2)
      as (pins & Hpre2 & Hok2 & Hsync2 & Hloc2).
    destruct (migrateFamily "aitPins" (newPin now) (local b) pinKeys b2) as [b3 ok2].
    simpl in *. subst ok2. cbn [negb localRemove local sync].
    assert (Hb3 : ∀ k, k ≠ "aitStars" → k ≠ "aitPins" → local b3 !! k = local b !! k).
    { intros k H1 H2. rewrite Hloc2, Hloc1.
      destruct (bool_decide (pinKeys = [])); destruct (bool_decide (starKeys = []));
        rewrite ?lookup_insert_ne by done; done. }
    split_and!.
    - intros k Hk. rewrite lookup_foldl_delete.
      destruct (decide (k ∈ starKeys ++ pinKeys)) as [Hin|Hin].
      + by rewrite bool_decide_eq_true_2.
      + rewrite bool_decide_eq_false_2 by done.
        rewrite Hb3; [| by intros -> | by intros ->].
        destruct (local b !! k) eqn:Hlk; [|done]. exfalso. apply Hin.
        apply legacy_keys_filter; eauto.
    - unfold getAllOf at 2. cbn [local localRemove]. rewrite lookup_foldl_delete.
      rewrite bool_decide_eq_false_2.
      2:{ intros Hin%filter_keys_legacy. done. }
      rewrite Hloc2.
      assert (Hs : local b2 !! "aitStars"
                   = if bool_decide (starKeys = []) then local b !! "aitStars"
                     else Some (JArr stars)).
      { rewrite Hloc1. destruct (bool_decide (starKeys = [])); [done|].
        apply lookup_insert_eq. }
      assert (Hs3 : (if bool_decide (pinKeys = []) then local b2
                     else <["aitPins" := JArr pins]> (local b2)) !! "aitStars"
                    = local b2 !! "aitStars").
      { destruct (bool_decide (pinKeys = [])); [done|]. by rewrite lookup_insert_ne. }
      rewrite Hs3, Hs. destruct (bool_decide (starKeys = [])); [done|]. exact Hpre1.
    - unfold getAllOf at 2. cbn [local localRemove]. rewrite lookup_foldl_delete.
      rewrite bool_decide_eq_false_2.
      2:{ intros Hin%filter_keys_legacy. done. }
      rewrite Hloc2. destruct (bool_decide (pinKeys = [])).
      + assert (Hp : local b2 !! "aitPins" = local b !! "aitPins").
        { rewrite Hloc1. destruct (bool_decide (starKeys = [])); [done|].
          by rewrite lookup_insert_ne. }
        by rewrite Hp.
      + rewrite lookup_insert_eq.
        etrans; [|exact Hpre2]. unfold getAllOf. rewrite Hloc1.
        destruct (bool_decide (starKeys = [])); [done|]. by rewrite lookup_insert_ne.
    - intros k Hk H1 H2. rewrite lookup_foldl_delete.
      rewrite bool_decide_eq_false_2.
      2:{ intros Hin%filter_keys_legacy. congruence. }
      by apply Hb3.
    - by rewrite Hsync2, Hsync1. }
  destruct starKeys as [|sk starKeys'] eqn:Hsk; [|exact Hall].
  destruct pinKeys as [|pk pinKeys'] eqn:Hpk; [|exact Hall].
  cbn [local sync logCall]. split_and!; try done.
  intros k Hk. destruct (local b !! k) eqn:Hlk; [|done].
  pose proof (legacy_keys_filter (local b) k Hk (mk_is_Some _ _ Hlk)) as Hin.
  fold starKeys pinKeys in Hin. rewrite Hsk, Hpk in Hin. by apply elem_of_nil in Hin.
Qed.

Lemma migrateFromLegacy_removes_old_keys_witness :
  isLegacyKey "chatTimelineStar:chat.example/c/1:1" = true
  ∧ local (migrateFromLegacy 1000 browserLegacy) !! "chatTimelineStar:chat.example/c/1:1"
    = None.
Proof.
  split; [reflexivity|].
  apply (migrateFromLegacy_removes_old_keys 1000 browserLegacy);
    [reflexivity | constructor | constructor | reflexivity].
Defined.

Lemma collect_fold build allItems keys existing ids :
  collect build allItems keys existing ids
  = (foldl (collectStep build allItems) (existing, ids) keys).1.
Proof. reflexivity. Qed.

Lemma newStar_keepsId now : keepsId (newStar now).
Proof.
  intros item nodeId Hu Hn. unfold newStar, object, idOf.
  destruct (getProp item "urlWithoutProtocol") as [u|] eqn:Hgu; [|done].
  destruct (getProp item "url") as [w|]; destruct nodeId as [n|]; simpl;
    try (destruct n; try done); done.
Qed.

Lemma newPin_keepsId now : keepsId (newPin now).
Proof.
  intros item nodeId Hu Hn. unfold newPin, object, idOf.
  destruct (getProp item "urlWithoutProtocol") as [u|] eqn:Hgu; [|done].
  destruct (getProp item "url") as [w|]; destruct nodeId as [n|]; simpl;
    try (destruct n; try done); done.
Qed.

(** Every id the loop knows belongs to a record it holds, and it knows the
    id of every usable record it has passed. *)
Lemma collect_loop build allItems (Hb : keepsId build) (keys : list string) :
  ∀ items ids,
    (∀ k item, k ∈ keys → allItems !! k = Some item →
               nullish (getProp item "nodeId") (getProp item "index") ≠ Some JNull) →
    (∀ id, id ∈ ids → ∃ x, x ∈ items ∧ idOf x = Some id) →
    let r := foldl (collectStep build allItems) (items, ids) keys in
    (∀ id, id ∈ r.2 → ∃ x, x ∈ r.1 ∧ idOf x = Some id)
    ∧ (∀ id, id ∈ ids → id ∈ r.2)
    ∧ (∀ k item, k ∈ keys → allItems !! k = Some item →
                 truthy (getProp item "urlWithoutProtocol") = true →
                 _makeId (getProp item "urlWithoutProtocol")
                         (nullish (getProp item "nodeId") (getProp item "index")) ∈ r.2).
Proof.
  induction keys as [|k keys IH]; intros items ids Hnn Hinv; cbv zeta; cbn [foldl].
  { split_and!; [done|done|]. intros k item Hk. by apply elem_of_nil in Hk. }
  assert (Hnn' : ∀ k0 item, k0 ∈ keys → allItems !! k0 = Some item →
                 nullish (getProp item "nodeId") (getProp item "index") ≠ Some JNull).
  { intros k0 item Hk0. apply Hnn. by right. }
  assert (Hstep : ∃ items' ids',
    collectStep build allItems (items, ids) k = (items', ids')
    ∧ (∀ id, id ∈ ids' → ∃ x, x ∈ items' ∧ idOf x = Some id)
    ∧ (∀ id, id ∈ ids → id ∈ ids')
    ∧ (∀ item, allItems !! k = Some item →
               truthy (getProp item "urlWithoutProtocol") = true →
               _makeId (getProp item "urlWithoutProtocol")
                       (nullish (getProp item "nodeId") (getProp item "index")) ∈ ids')).
  { unfold collectStep. destruct (allItems !! k) as [item|] eqn:Hk.
    2:{ exists items, ids. split_and!; done. }
    destruct (negb (truthy (Some item))
              || negb (truthy (getProp item "urlWithoutProtocol"))) eqn:Huse.
    { exists items, ids. split_and!; [done|done|done|].
      intros item0 [= <-] Ht. rewrite Ht in Huse. by destruct item. }
    cbv zeta.
    set (nodeId := nullish (getProp item "nodeId") (getProp item "index")).
    set (id := _makeId (getProp item "urlWithoutProtocol") nodeId).
    destruct (decide (id ∈ ids)) as [Hin|Hin].
    { rewrite bool_decide_eq_true_2 by done. exists items, ids.
      split_and!; [done|done|done|]. by intros item0 [= <-] Ht. }
    rewrite bool_decide_eq_false_2 by done.
    apply orb_false_iff in Huse as [_ Hu]. apply negb_false_iff in Hu.
    exists (items ++ [build item nodeId]), (ids ++ [id]). split_and!; [done| | |].
    - intros id0 [Hid|Hid]%elem_of_app.
      + destruct (Hinv id0 Hid) as (x & Hx & Hxi). exists x. split; [|done].
        apply elem_of_app. by left.
      + apply list_elem_of_singleton in Hid as ->. exists (build item nodeId). split.
        * apply elem_of_app. right. by apply list_elem_of_singleton.
        * apply Hb; [done|]. apply (Hnn k item); [by left|done].
    - intros id0 Hid. apply elem_of_app. by left.
    - intros item0 [= <-] Ht. apply elem_of_app. right. by apply list_elem_of_singleton. }
  destruct Hstep as (items' & ids' & -> & Hinv' & Hsub & Hcov).
  destruct (IH items' ids' Hnn' Hinv') as (H1 & H2 & H3).
  split_and!; [done| |].
  - intros id Hid. by apply H2, Hsub.
  - intros k0 item0 [->|Hk0]%elem_of_cons; [|by apply H3].
    intros Hi Ht. by apply H2, Hcov.
Qed.

(** The ids of an array without [null]. *)
Lemma mapM_idOf_elem (l : list JsVal) (ids : list string) :
  mapM idOf l = Some ids → ∀ id, id ∈ ids → ∃ x, x ∈ l ∧ idOf x = Some id.
Proof.
  intros H id Hid. apply mapM_Some in H.
  apply list_elem_of_lookup in Hid as [i Hi].
  destruct (Forall2_lookup_r _ _ _ _ _ H Hi) as (x & Hx & Hxi).
  exists x. split; [|done]. by eapply list_elem_of_lookup_2.
Qed.

(** After a family of [migrateFromLegacy], every usable old record has a
    record with its id in the array. *)
Lemma collect_covers build allItems keys existing ids (Hb : keepsId build) :
  mapM idOf existing = Some ids →
  (∀ k item, k ∈ keys → allItems !! k = Some item →
             nullish (getProp item "nodeId") (getProp item "index") ≠ Some JNull) →
  ∀ k item, k ∈ keys → allItems !! k = Some item →
            truthy (getProp item "urlWithoutProtocol") = true →
            ∃ x, x ∈ collect build allItems keys existing ids
                 ∧ idOf x = Some (_makeId (getProp item "urlWithoutProtocol")
                                    (nullish (getProp item "nodeId") (getProp item "index"))).
Proof.
  intros Hids Hnn k item Hk Hi Ht. rewrite collect_fold.
  destruct (collect_loop build allItems Hb keys existing ids Hnn
              (mapM_idOf_elem _ _ Hids)) as (H1 & _ & H3).
  apply H1. by eapply H3.
Qed.

Lemma getAllOf_ext (k : string) (b b' : Browser) :
  local b !! k = local b' !! k → getAllOf k b = getAllOf k b'.
Proof. unfold getAllOf. by intros ->. Qed.

(** The array a family of [migrateFromLegacy] leaves. *)
Lemma migrateFamily_items storageKey build allItems keys (b : Browser) ids :
  mapM idOf (getAllOf storageKey b) = Some ids →
  (migrateFamily storageKey build allItems keys b).2 = true
  ∧ getAllOf storageKey (migrateFamily storageKey build allItems keys b).1
    = collect build allItems keys (getAllOf storageKey b) ids
  ∧ (∀ k, k ≠ storageKey →
          local (migrateFamily storageKey build allItems keys b).1 !! k = local b !! k).
Proof.
  intros Hids. unfold migrateFamily. destruct keys as [|k0 keys]; [done|].
  cbv zeta.
  assert (Hg : getAllOf storageKey (logCall RecordShape (LocalGet (Some [storageKey])) b)
               = getAllOf storageKey b) by done.
  rewrite Hg, Hids. cbn [fst snd]. split; [done|]. split.
  - unfold getAllOf at 1. cbn [local localSet logCall foldl fst snd].
    by rewrite lookup_insert_eq.
  - intros k Hk. cbn [local localSet logCall foldl fst snd].
    by rewrite lookup_insert_ne.
Qed.

(** The two arrays after [migrateFromLegacy]. *)
Lemma migrateFromLegacy_arrays (now : Z) (b : Browser) :
  chromeStorage b = true →
  Forall (λ v, v ≠ JNull) (getAllOf "aitStars" b) →
  Forall (λ v, v ≠ JNull) (getAllOf "aitPins" b) →
  ∃ sids pids,
    mapM idOf (getAllOf "aitStars" b) = Some sids
    ∧ mapM idOf (getAllOf "aitPins" b) = Some pids
    ∧ getAllOf "aitStars" (migrateFromLegacy now b)
      = collect (newStar now) (local b)
          (filter (λ k, String.prefix "chatTimelineStar:" k = true) (map_to_list (local b)).*1)
          (getAllOf "aitStars" b) sids
    ∧ getAllOf "aitPins" (migrateFromLegacy now b)
      = collect (newPin now) (local b)
          (filter (λ k, String.prefix "chatTimelinePin:" k = true) (map_to_list (local b)).*1)
          (getAllOf "aitPins" b) pids.
Proof.
  intros Hc Hstars Hpins.
  destruct (idOf_not_null _ Hstars) as [sids Hsids].
  destruct (idOf_not_null _ Hpins) as [pids Hpids].
  exists sids, pids. split; [done|]. split; [done|].
  unfold migrateFromLegacy. rewrite Hc. cbn [negb]. cbv zeta. cbn [local logCall].
  set (starKeys := filter (λ k, String.prefix "chatTimelineStar:" k = true)
                          (map_to_list (local b)).*1).
  set (pinKeys := filter (λ k, String.prefix "chatTimelinePin:" k = true)
                         (map_to_list (local b)).*1).
  assert (Hleg : ∀ k, k ∈ starKeys ++ pinKeys → k ≠ "aitStars" ∧ k ≠ "aitPins").
  { intros k Hk%filter_keys_legacy. split; intros ->; done. }
  clearbody starKeys pinKeys.
  set (b1 := logCall RecordShape (LocalGet None) b).
  assert (Hall :
    let b' := migrateRecords now (local b) starKeys pinKeys b1 in
    getAllOf "aitStars" b'
    = collect (newStar now) (local b) starKeys (getAllOf "aitStars" b) sids
    ∧ getAllOf "aitPins" b'
      = collect (newPin now) (local b) pinKeys (getAllOf "aitPins" b) pids).
  { unfold migrateRecords.
    assert (Hdel : ∀ (m : gmap string JsVal) k, k = "aitStars" ∨ k = "aitPins" →
              foldl (λ acc k, delete k acc) m (starKeys ++ pinKeys) !! k = m !! k).
    { intros m k Hk. rewrite lookup_foldl_delete.
      rewrite bool_decide_eq_false_2; [done|].
      intros Hin. destruct (Hleg k Hin). by destruct Hk. }
    assert (Hs1 : mapM idOf (getAllOf "aitStars" b1) = Some sids) by done.
    destruct (migrateFamily_items "aitStars" (newStar now) (local b) starKeys b1 sids Hs1)
      as (Hok1 & Hst1 & Hoth1).
    destruct (migrateFamily "aitStars" (newStar now) (local b) starKeys b1) as [b2 ok1].
    cbn [fst snd] in *. subst ok1. cbn [negb].
    assert (Hp2 : mapM idOf (getAllOf "aitPins" b2) = Some pids).
    { rewrite (getAllOf_ext "aitPins" b2 b); [done|]. by rewrite Hoth1. }
    destruct (migrateFamily_items "aitPins" (newPin now) (local b) pinKeys b2 pids Hp2)
      as (Hok2 & Hst2 & Hoth2).
    destruct (migrateFamily "aitPins" (newPin now) (local b) pinKeys b2) as [b3 ok2].
    cbn [fst snd] in *. subst ok2. cbn [negb]. split.
    - rewrite (getAllOf_ext "aitStars" _ b2).
      + rewrite Hst1. done.
      + cbn [local localRemove]. rewrite Hdel by auto. by apply Hoth2.
    - rewrite (getAllOf_ext "aitPins" _ b3).
      + rewrite Hst2. f_equal. apply getAllOf_ext. by rewrite Hoth1.
      + cbn [local localRemove]. by rewrite Hdel by auto. }
  destruct starKeys as [|sk starKeys']; [|exact Hall].
  destruct pinKeys as [|pk pinKeys']; [|exact Hall].
  split; reflexivity.
Qed.

(** X14. No usable record is lost by [migrateFromLegacy]: when the two
    arrays hold no [null] and no old record has [null] for its turn, every
    old star with a truthy [urlWithoutProtocol] has a record with its id in
    [aitStars] afterwards, and every such old pin one in [aitPins]. *)
Theorem migrateFromLegacy_keeps_records (now : Z) (b : Browser) :
  chromeStorage b = true →
  Forall (λ v, v ≠ JNull) (getAllOf "aitStars" b) →
  Forall (λ v, v ≠ JNull) (getAllOf "aitPins" b) →
  (∀ k item, isLegacyKey k = true → local b !! k = Some item →
             nullish (getProp item "nodeId") (getProp item "index") ≠ Some JNull) →
  ∀ k item,
    local b !! k = Some item →
    truthy (getProp item "urlWithoutProtocol") = true →
    let id := _makeId (getProp item "urlWithoutProtocol")
                      (nullish (getProp item "nodeId") (getProp item "index")) in
    (String.prefix "chatTimelineStar:" k = true →
     ∃ x, x ∈ getAllOf "aitStars" (migrateFromLegacy now b) ∧ idOf x = Some id)
    ∧ (String.prefix "chatTimelinePin:" k = true →
       ∃ x, x ∈ getAllOf "aitPins" (migrateFromLegacy now b) ∧ idOf x = Some id).
Proof.
  intros Hc Hstars Hpins Hnn k item Hk Ht id.
  destruct (migrateFromLegacy_arrays now b Hc Hstars Hpins)
    as (sids & pids & Hsids & Hpids & Hs & Hp).
  assert (Hin : k ∈ (map_to_list (local b)).*1).
  { apply list_elem_of_fmap. exists (k, item). split; [done|]. by apply elem_of_map_to_list. }
  split; intros Hpre.
  - rewrite Hs.
    apply (collect_covers _ _ _ _ _ (newStar_keepsId now) Hsids) with (k := k);
      [|by apply list_elem_of_filter|done|done].
    intros k0 item0 [Hk0 _]%list_elem_of_filter. apply Hnn.
    unfold isLegacyKey. by rewrite Hk0.
  - rewrite Hp.
    apply (collect_covers _ _ _ _ _ (newPin_keepsId now) Hpids) with (k := k);
      [|by apply list_elem_of_filter|done|done].
    intros k0 item0 [Hk0 _]%list_elem_of_filter. apply Hnn.
    unfold isLegacyKey. rewrite Hk0. apply orb_true_r.
Qed.

Lemma migrateFromLegacy_keeps_records_witness :
  ∃ x, x ∈ getAllOf "aitStars" (migrateFromLegacy 1000 browserLegacy)
       ∧ idOf x = Some "chat.example/c/1:2".
Proof.
  refine (proj1 (migrateFromLegacy_keeps_records 1000 browserLegacy
                   eq_refl _ _ _ "chatTimelineStar:chat.example/c/1:2"
                   (JObj [("url", JStr "https://chat.example/c/1");
                          ("urlWithoutProtocol", JStr "chat.example/c/1");
                          ("index", JNum 2)]) eq_refl eq_refl) eq_refl).
  - constructor.
  - constructor.
  - intros k item Hk Hi.
    assert (Hcases : k = "biwhckdj" ∨ k = "chatTimelineStar:chat.example/c/1:1"
                     ∨ k = "chatTimelineStar:chat.example/c/1:2").
    { unfold browserLegacy in Hi. cbn [local] in Hi.
      apply lookup_insert_Some in Hi as [[<- _]|[_ Hi]]; [by left|].
      apply lookup_insert_Some in Hi as [[<- _]|[_ Hi]]; [by right; left|].
      apply lookup_singleton_Some in Hi as [<- _]. by right; right. }
    destruct Hcases as [->|[->| ->]]; vm_compute in Hi; inversion Hi; subst; done.
Defined.

Lemma filter_none {A} (P : A → Prop) `{∀ x, Decision (P x)} (l : list A) :
  (∀ x, x ∈ l → ¬ P x) → filter P l = [].
Proof.
  intros Hl. destruct (filter P l) as [|x l'] eqn:Hf; [done|].
  assert (Hx : x ∈ filter P l) by (rewrite Hf; by left).
  apply list_elem_of_filter in Hx as [HP Hx]. by destruct (Hl x Hx).
Qed.

(** X15. Without a single star or pin record in the local area
    [migrateFromLegacy] reads the area once and writes nothing. *)
Theorem migrateFromLegacy_nothing_to_do (now : Z) (b : Browser) :
  chromeStorage b = true →
  (∀ k, isLegacyKey k = true → local b !! k = None) →
  migrateFromLegacy now b = logCall RecordShape (LocalGet None) b.
Proof.
  intros Hc Hno. unfold migrateFromLegacy. rewrite Hc. cbn [negb]. cbv zeta.
  cbn [local logCall].
  assert (Hs : filter (λ k, String.prefix "chatTimelineStar:" k = true)
                      (map_to_list (local b)).*1 = []).
  { apply filter_none. intros k Hk Hp.
    apply list_elem_of_fmap in Hk as ([k' v] & -> & Hkv).
    apply elem_of_map_to_list in Hkv. simpl in Hp.
    rewrite Hno in Hkv; [done|]. unfold isLegacyKey. by rewrite Hp. }
  assert (Hp : filter (λ k, String.prefix "chatTimelinePin:" k = true)
                      (map_to_list (local b)).*1 = []).
  { apply filter_none. intros k Hk Hp.
    apply list_elem_of_fmap in Hk as ([k' v] & -> & Hkv).
    apply elem_of_map_to_list in Hkv. simpl in Hp.
    rewrite Hno in Hkv; [done|]. unfold isLegacyKey. rewrite Hp. apply orb_true_r. }
  by rewrite Hs, Hp.
Qed.

Lemma migrateFromLegacy_nothing_to_do_witness :
  migrateFromLegacy 1000 (Browser_ true {[ "prompts" := JArr [] ]} None [])
  = logCall RecordShape (LocalGet None) (Browser_ true {[ "prompts" := JArr [] ]} None []).
Proof.
  apply (migrateFromLegacy_nothing_to_do 1000).
  - reflexivity.
  - intros k Hk. cbn [local]. apply lookup_singleton_None. intros <-. done.
Defined.

End MigrationMoreFacts.
(** ** Text, routes and the turn ids of Doubao *)

Module TextFacts.
Import ChatTimeStorageManager Text.
Open Scope string_scope.
Open Scope list_scope.

Lemma app_cons (x : ascii) (a b : string) : String x a +:+ b = String x (a +:+ b).
Proof. reflexivity. Qed.

Lemma app_nil (b : string) : "" +:+ b = b.
Proof. reflexivity. Qed.

Lemma append_assoc (a b c : string) : (a +:+ b) +:+ c = a +:+ (b +:+ c).
Proof. induction a as [|x a IH]; [done|]. rewrite !app_cons. by f_equal. Qed.

Lemma stripPrefix_Some (p s r : string) : stripPrefix p s = Some r → s = p +:+ r.
Proof.
  revert s. induction p as [|a p IH]; intros s; simpl.
  - by intros [= ->].
  - destruct s as [|b s]; [done|].
    destruct (Ascii.eqb_spec a b) as [->|]; [|done].
    intros H. by rewrite app_cons, (IH _ H).
Qed.

Lemma stripPrefix_app (p r : string) : stripPrefix p (p +:+ r) = Some r.
Proof.
  induction p as [|a p IH]; [done|]. rewrite app_cons. simpl.
  by rewrite Ascii.eqb_refl.
Qed.

Lemma prefix_app (p r : string) : String.prefix p (p +:+ r) = true.
Proof.
  induction p as [|a p IH]; [by destruct r|]. rewrite app_cons. simpl.
  by destruct (Ascii.ascii_dec a a).
Qed.

Lemma prefix_inv (p s : string) : String.prefix p s = true → ∃ r, s = p +:+ r.
Proof.
  revert s. induction p as [|a p IH]; intros s; simpl.
  - intros _. by exists s.
  - destruct s as [|b s]; simpl; [done|].
    destruct (Ascii.ascii_dec a b) as [->|]; [|done].
    intros [r ->]%IH. exists r. by rewrite app_cons.
Qed.

Lemma before_chars (c : ascii) (s : string) (a : ascii) :
  a ∈ String.list_ascii_of_string (before c s) →
  a ≠ c ∧ a ∈ String.list_ascii_of_string s.
Proof.
  induction s as [|b s IH]; simpl.
  - intros H. by apply elem_of_nil in H.
  - destruct (Ascii.eqb_spec b c) as [->|Hne]; simpl.
    + intros H. by apply elem_of_nil in H.
    + intros [->|H]%elem_of_cons.
      * split; [done|by left].
      * destruct (IH H). split; [done|by right].
Qed.

Lemma before_split (c : ascii) (s : string) :
  s = before c s ∨ ∃ rest, s = before c s +:+ String c rest.
Proof.
  induction s as [|b s IH]; simpl; [by left|].
  destruct (Ascii.eqb_spec b c) as [->|Hne]; simpl.
  - right. by exists s.
  - destruct IH as [IH|[rest IH]].
    + left. by rewrite <- IH.
    + right. exists rest. by rewrite app_cons, <- IH.
Qed.

Lemma takeWhile_split (p : ascii → bool) (s : string) :
  allChars p (takeWhile p s) = true ∧ ∃ rest, s = takeWhile p s +:+ rest.
Proof.
  induction s as [|a s [IH1 [rest IH2]]]; simpl.
  - split; [done|]. by exists "".
  - destruct (p a) eqn:Hp; simpl.
    + rewrite Hp, IH1. split; [done|]. exists rest. by rewrite app_cons, <- IH2.
    + split; [done|]. by exists (String a s).
Qed.

Lemma matchAfter_eq (lit : string) (cls : ascii → bool) (s : string) :
  matchAfter lit cls s
  = match match stripPrefix lit s with
          | Some rest =>
              if JS.truthyStr (takeWhile cls rest) then Some (takeWhile cls rest)
              else None
          | None => None
          end
    with
    | Some captured => Some captured
    | None => match s with
              | EmptyString => None
              | String _ s' => matchAfter lit cls s'
              end
    end.
Proof. by destruct s. Qed.

Lemma includes_eq (sub s : string) :
  includes sub s
  = String.prefix sub s
    || match s with
       | EmptyString => false
       | String _ s' => includes sub s'
       end.
Proof. by destruct s. Qed.

Lemma matchHere_Some (lit : string) (cls : ascii → bool) (s captured : string) :
  match stripPrefix lit s with
  | Some rest =>
      if JS.truthyStr (takeWhile cls rest) then Some (takeWhile cls rest) else None
  | None => None
  end = Some captured →
  captured ≠ ""
  ∧ allChars cls captured = true
  ∧ String.prefix (lit +:+ captured) s = true.
Proof.
  destruct (stripPrefix lit s) as [rest|] eqn:Hs; [|done].
  destruct (JS.truthyStr (takeWhile cls rest)) eqn:Ht; [|done].
  intros [= <-]. apply JS.truthyStr_true in Ht.
  destruct (takeWhile_split cls rest) as [Hall [rest' Hrest]].
  apply stripPrefix_Some in Hs. split_and!; [done|done|].
  remember (takeWhile cls rest) as cap. subst s. rewrite Hrest.
  by rewrite <- append_assoc, prefix_app.
Qed.

(** What the pattern captures: characters of the class, at least one, that
    follow the literal somewhere in the text. *)
Lemma matchAfter_Some (lit : string) (cls : ascii → bool) (s captured : string) :
  matchAfter lit cls s = Some captured →
  captured ≠ ""
  ∧ allChars cls captured = true
  ∧ includes (lit +:+ captured) s = true.
Proof.
  induction s as [|a s IH]; rewrite matchAfter_eq, includes_eq.
  - destruct (match stripPrefix lit "" with Some _ => _ | None => _ end) as [cap|]
      eqn:Hs; [|done].
    intros [= <-]. destruct (matchHere_Some _ _ _ _ Hs) as (H1 & H2 & H3).
    split_and!; [done|done|]. by rewrite H3.
  - destruct (match stripPrefix lit (String a s) with Some _ => _ | None => _ end)
      as [cap|] eqn:Hs.
    + intros [= <-]. destruct (matchHere_Some _ _ _ _ Hs) as (H1 & H2 & H3).
      split_and!; [done|done|]. by rewrite H3.
    + intros H. destruct (IH H) as (H1 & H2 & H3).
      split_and!; [done|done|]. rewrite H3. apply orb_true_r.
Qed.

(** The pattern finds nothing only when the literal is nowhere followed by
    a character of the class. *)
Lemma matchAfter_None (lit : string) (cls : ascii → bool) (s : string) (c : ascii) :
  matchAfter lit cls s = None → cls c = true →
  includes (lit +:+ String c "") s = false.
Proof.
  intros Hm Hc.
  assert (Hhere : ∀ s, match stripPrefix lit s with
                       | Some rest =>
                           if JS.truthyStr (takeWhile cls rest)
                           then Some (takeWhile cls rest) else None
                       | None => None
                       end = None →
                       String.prefix (lit +:+ String c "") s = false).
  { clear s Hm. intros s Hs.
    destruct (String.prefix (lit +:+ String c "") s) eqn:Hp; [|done].
    apply prefix_inv in Hp as [r ->].
    rewrite append_assoc, stripPrefix_app in Hs. simpl in Hs.
    by rewrite Hc in Hs. }
  induction s as [|a s IH]; rewrite matchAfter_eq in Hm; rewrite includes_eq.
  - destruct (match stripPrefix lit "" with Some _ => _ | None => _ end) eqn:Hs; [done|].
    by rewrite (Hhere _ Hs).
  - destruct (match stripPrefix lit (String a s) with Some _ => _ | None => _ end)
      eqn:Hs; [done|].
    rewrite (Hhere _ Hs). simpl. by apply IH.
Qed.

Lemma includes_weaken (lit more s : string) :
  includes (lit +:+ more) s = true → includes lit s = true.
Proof.
  induction s as [|a s IH].
  - rewrite (includes_eq _ ""), (includes_eq lit ""), !orb_false_r.
    intros [r Hr]%prefix_inv. rewrite Hr, append_assoc. apply prefix_app.
  - rewrite (includes_eq _ (String a s)), (includes_eq lit (String a s)).
    intros [H|H]%orb_true_iff.
    + apply prefix_inv in H as [r Hr]. rewrite Hr.
      by rewrite append_assoc, prefix_app.
    + rewrite (IH H). apply orb_true_r.
Qed.

End TextFacts.

Module AdapterFacts.
Import ChatTimeStorageManager Text TextFacts.
Open Scope string_scope.
Open Scope list_scope.
Open Scope Z_scope.

(** *** Doubao: the cache of node ids *)

Section DoubaoCache.
Import DoubaoTurns.

Lemma generateTurnId_cache messageId element index (c : Cache) :
  cacheOk c →
  cacheOk (generateTurnId messageId element index c).2
  ∧ (∀ e id, c !! e = Some id →
             (generateTurnId messageId element index c).2 !! e = Some id).
Proof.
  intros Hok. unfold generateTurnId, _extractNodeIdFromDom.
  destruct element as [e0|]; [|done].
  destruct (c !! e0) as [id0|] eqn:Hc.
  { by destruct (JS.truthyStr id0). }
  destruct (messageId e0) as [id0|]; [|done].
  destruct (JS.truthyStr id0) eqn:Ht; [|done]. rewrite Ht. cbn [fst snd]. split.
  - intros e id [[-> <-]|[_ H]]%lookup_insert_Some.
    + by apply JS.truthyStr_true.
    + by eapply Hok.
  - intros e id He. rewrite lookup_insert_ne; [done|]. intros ->. congruence.
Qed.

Lemma calls_cache (l : list Call) :
  ∀ c, cacheOk c →
       cacheOk (calls l c) ∧ (∀ e id, c !! e = Some id → calls l c !! e = Some id).
Proof.
  unfold calls. induction l as [|call l IH]; intros c Hok; simpl; [done|].
  destruct (generateTurnId_cache (page call) (target call) (position call) c Hok)
    as [Hok1 Hkeep1].
  destruct (IH _ Hok1) as [Hok2 Hkeep2]. split; [done|].
  intros e id He. by apply Hkeep2, Hkeep1.
Qed.

Lemma generateTurnId_cached messageId e index (c : Cache) id :
  c !! e = Some id → id ≠ "" →
  (generateTurnId messageId (Some e) index c).1 = "doubao-" +:+ id.
Proof.
  intros Hc Hid. unfold generateTurnId, _extractNodeIdFromDom. rewrite Hc.
  apply JS.truthyStr_true in Hid. by rewrite Hid.
Qed.

(** An id in the cache is a message id that the page has shown for the
    element at one of the calls. *)
Lemma generateTurnId_origin messageId element index (c : Cache) e id :
  (generateTurnId messageId element index c).2 !! e = Some id →
  c !! e = Some id ∨ (element = Some e ∧ messageId e = Some id).
Proof.
  unfold generateTurnId, _extractNodeIdFromDom.
  destruct element as [e0|]; [|by left].
  destruct (c !! e0) as [id0|] eqn:Hc.
  { destruct (JS.truthyStr id0); by left. }
  destruct (messageId e0) as [id0|] eqn:Hm; [|by left].
  destruct (JS.truthyStr id0) eqn:Ht; [|by left]. rewrite Ht. cbn [fst snd].
  intros [[-> <-]|[_ H]]%lookup_insert_Some; [by right|by left].
Qed.

Lemma calls_origin (l : list Call) :
  ∀ (c : Cache) e id,
    calls l c !! e = Some id →
    c !! e = Some id
    ∨ ∃ call, call ∈ l ∧ target call = Some e ∧ page call e = Some id.
Proof.
  unfold calls. induction l as [|call l IH]; intros c e id; simpl; [by left|].
  intros [H|(call' & Hin & Ht & Hp)]%IH.
  - apply generateTurnId_origin in H as [H|[Ht Hp]]; [by left|].
    right. exists call. split; [by left|done].
  - right. exists call'. split; [by right|done].
Qed.

(** X16. Once an element has shown a message id, [generateTurnId] gives it
    the same turn id in every later call, whatever the page shows then and
    whatever index is passed.  That id is made of a message id the page has
    shown for the element, at this call or at an earlier one, which the
    cache holds from then on; it is not made of an index. *)
Theorem generateTurnId_stable (earlier later : list Call)
    (messageId messageId' : nat → option string) (e : nat) (index index' : Z)
    (id : string) :
  messageId e = Some id → id ≠ "" →
  let first := generateTurnId messageId (Some e) index (calls earlier ∅) in
  let again := generateTurnId messageId' (Some e) index' (calls later first.2) in
  again.1 = first.1
  ∧ ∃ nodeId,
      nodeId ≠ ""
      ∧ first.1 = "doubao-" +:+ nodeId
      ∧ first.2 !! e = Some nodeId
      ∧ (nodeId = id
         ∨ ∃ call, call ∈ earlier ∧ target call = Some e
                   ∧ page call e = Some nodeId).
Proof.
  intros Hm Hid first again.
  assert (Hok0 : cacheOk (∅ : Cache)) by (intros e0 id0 H; by rewrite lookup_empty in H).
  destruct (calls_cache earlier ∅ Hok0) as [Hok1 _].
  destruct (generateTurnId_cache messageId (Some e) index _ Hok1) as [Hok2 Hkeep2].
  fold first in Hok2, Hkeep2.
  assert (Hfirst : ∃ nodeId, nodeId ≠ "" ∧ first.2 !! e = Some nodeId
                             ∧ first.1 = "doubao-" +:+ nodeId
                             ∧ (nodeId = id
                                ∨ ∃ call, call ∈ earlier ∧ target call = Some e
                                          ∧ page call e = Some nodeId)).
  { subst first. clear again Hok2 Hkeep2.
    unfold generateTurnId, _extractNodeIdFromDom.
    destruct (calls earlier ∅ !! e) as [id0|] eqn:Hc.
    - pose proof (Hok1 e id0 Hc) as Hne. exists id0.
      apply JS.truthyStr_true in Hne as Ht. rewrite Ht. cbn [fst snd].
      split_and!; [done|done|done|]. right.
      apply calls_origin in Hc as [Hc|Hc]; [by rewrite lookup_empty in Hc|done].
    - rewrite Hm. apply JS.truthyStr_true in Hid as Ht. rewrite Ht. cbv beta iota.
      rewrite Ht. cbn [fst snd]. exists id. rewrite lookup_insert_eq.
      split_and!; [done|done|done|by left]. }
  destruct Hfirst as (nodeId & Hne & Hc & Hf & Horigin).
  destruct (calls_cache later first.2 Hok2) as [_ Hkeep3].
  split; [|by exists nodeId].
  subst again. rewrite Hf. apply generateTurnId_cached; [|done]. by apply Hkeep3.
Qed.

Lemma generateTurnId_stable_witness :
  let first := generateTurnId (λ _, Some "7301") (Some 4%nat) 2 (calls [] ∅) in
  let again := generateTurnId (λ _, None) (Some 4%nat) 0
                 (calls [Call_ (λ _, Some "7302") (Some 5%nat) 3] first.2) in
  again.1 = first.1
  ∧ ∃ nodeId,
      nodeId ≠ ""
      ∧ first.1 = "doubao-" +:+ nodeId
      ∧ first.2 !! 4%nat = Some nodeId
      ∧ (nodeId = "7301"
         ∨ ∃ call, call ∈ [] ∧ target call = Some 4%nat
                   ∧ page call 4%nat = Some nodeId).
Proof.
  apply (generateTurnId_stable [] [Call_ (λ _, Some "7302") (Some 5%nat) 3]
           (λ _, Some "7301") (λ _, None) 4 2 0 "7301");
    [reflexivity | discriminate].
Defined.

End DoubaoCache.

(** *** Routes and conversation ids *)

(** X17. Doubao: a path that gives a conversation id is a conversation
    route, and the id is a non-empty run of digits that follows [/chat/] in
    the path. *)
Theorem doubao_id_is_on_route (pathname id : string) :
  DoubaoTurns.extractConversationId pathname = Some id →
  DoubaoTurns.isConversationRoute pathname = true
  ∧ id ≠ ""
  ∧ allChars isDigit id = true
  ∧ includes ("/chat/" +:+ id) pathname = true.
Proof.
  unfold DoubaoTurns.extractConversationId, DoubaoTurns.isConversationRoute.
  intros (H1 & H2 & H3)%matchAfter_Some. split_and!; [|done|done|done].
  by eapply includes_weaken.
Qed.

Lemma doubao_id_is_on_route_witness :
  DoubaoTurns.isConversationRoute "/chat/38291?from=home" = true
  ∧ "38291" ≠ ""
  ∧ allChars isDigit "38291" = true
  ∧ includes ("/chat/" +:+ "38291") "/chat/38291?from=home" = true.
Proof.
  apply (doubao_id_is_on_route "/chat/38291?from=home" "38291"). reflexivity.
Defined.

(** A Doubao conversation route need not give an id. *)
Example doubao_route_without_id :
  DoubaoTurns.isConversationRoute "/chat/create" = true
  ∧ DoubaoTurns.extractConversationId "/chat/create" = None.
Proof. split; reflexivity. Qed.

(** X18. DeepSeek: a path that gives a conversation id is a conversation
    route, and the id is a non-empty text without [/] that follows
    [/a/chat/s/] or [/share/] in the path. *)
Theorem deepseek_id_is_on_route (pathname id : string) :
  DeepSeekAdapter.extractConversationId pathname = Some id →
  DeepSeekAdapter.isConversationRoute pathname = true
  ∧ id ≠ ""
  ∧ allChars DeepSeekAdapter.notSlash id = true
  ∧ (includes ("/a/chat/s/" +:+ id) pathname = true
     ∨ includes ("/share/" +:+ id) pathname = true).
Proof.
  unfold DeepSeekAdapter.extractConversationId, DeepSeekAdapter.isConversationRoute.
  destruct (matchAfter "/a/chat/s/" DeepSeekAdapter.notSlash pathname) as [id0|] eqn:Hm.
  - intros [= <-]. apply matchAfter_Some in Hm as (H1 & H2 & H3).
    split_and!; [|done|done|by left].
    by rewrite (includes_weaken _ _ _ H3).
  - intros (H1 & H2 & H3)%matchAfter_Some.
    split_and!; [|done|done|by right].
    rewrite (includes_weaken _ _ _ H3). apply orb_true_r.
Qed.

Lemma deepseek_id_is_on_route_witness :
  DeepSeekAdapter.isConversationRoute "/share/ab12/x" = true
  ∧ "ab12" ≠ ""
  ∧ allChars DeepSeekAdapter.notSlash "ab12" = true
  ∧ (includes ("/a/chat/s/" +:+ "ab12") "/share/ab12/x" = true
     ∨ includes ("/share/" +:+ "ab12") "/share/ab12/x" = true).
Proof.
  apply (deepseek_id_is_on_route "/share/ab12/x" "ab12"). reflexivity.
Defined.

End AdapterFacts.

(** ** The recorder: conversation keys and the recording of turns *)

Module RecorderMoreFacts.
Import StorageAdapter ChatTimeStorageManager NodeTimes Text TextFacts RecorderOps
       ChatTimeExamples.
Open Scope string_scope.
Open Scope list_scope.
Open Scope Z_scope.

(** X19. The conversation key holds neither [?] nor [#]; it is the address
    without its protocol, up to the first of these characters; and the
    [http] and the [https] address of a page give the same key. *)
Theorem getConversationKey_spec (href : string) :
  let key := getConversationKey href in
  (∀ c, c ∈ String.list_ascii_of_string key → c ≠ "?"%char ∧ c ≠ "#"%char)
  ∧ (stripProtocol href = key
     ∨ ∃ c rest, (c = "?"%char ∨ c = "#"%char)
                 ∧ stripProtocol href = key +:+ String c rest)
  ∧ getConversationKey ("http://" +:+ href) = before "#" (before "?" href)
  ∧ getConversationKey ("https://" +:+ href) = before "#" (before "?" href).
Proof.
  intros key. subst key. unfold getConversationKey. split_and!.
  - intros c [H1 [H2 _]%before_chars]%before_chars. done.
  - remember (stripProtocol href) as s eqn:Es.
    remember (before "?" s) as s1 eqn:Es1.
    remember (before "#" s1) as key eqn:Ekey.
    assert (H1 : s1 = key ∨ ∃ rest, s1 = key +:+ String "#" rest)
      by (subst key; apply before_split).
    assert (H2 : s = s1 ∨ ∃ rest, s = s1 +:+ String "?" rest)
      by (subst s1; apply before_split).
    clear Es Es1 Ekey.
    destruct H1 as [->|[rest1 ->]]; destruct H2 as [->|[rest2 ->]].
    + by left.
    + right. exists "?"%char, rest2. split; [by left|done].
    + right. exists "#"%char, rest1. split; [by right|done].
    + right. exists "#"%char, (rest1 +:+ String "?" rest2). split; [by right|].
      by rewrite append_assoc, app_cons.
  - unfold stripProtocol. by rewrite stripPrefix_app.
  - unfold stripProtocol.
    assert (H : stripPrefix "http://" ("https://" +:+ href) = None) by reflexivity.
    by rewrite H, stripPrefix_app.
Qed.

(** *** _recordNodes *)

Ltac run_op :=
  unfold result, after, bind, ret, getAllRecords, get, set in *; simpl in *.

Lemma after_then {V A B} (m : async V A) (k : async V B) (st : area V) :
  after (m ;;; k) st = after k (after m st).
Proof. unfold after, bind. by destruct (m st). Qed.

Lemma after_return {V A} (a : A) (st : area V) : after (ret a) st = st.
Proof. done. Qed.

Lemma allOf_area (o : option records) (n : nat) : allOf (Area o n) = default ∅ o.
Proof. by destruct o. Qed.

(** What [setCreateTime] leaves for a conversation whose key names no
    inherited property. *)
Lemma setCreateTime_record (k : string) (ts : Z) (st : storage) :
  k ≠ "" → JS.inherited k = false →
  let st' := after (setCreateTime k ts) st in
  nodesOf st' k = nodesOf st k
  ∧ is_Some (allOf st' !! k)
  ∧ allOf st' !! k ≫= createTime
    = (if JS.truthyOptNum (allOf st !! k ≫= createTime)
       then allOf st !! k ≫= createTime else Some ts)
  ∧ (∀ k', k' ≠ k → allOf st' !! k' = allOf st !! k').
Proof.
  intros Hk Hin st'. subst st'. unfold nodesOf, allOf, setCreateTime.
  destruct k as [|c k]; [done|]. cbn [JS.truthyStr negb].
  run_op. destruct st as [o n]. simpl.
  set (all := match o with Some all => all | None => ∅ end).
  destruct (all !! String c k) as [r|] eqn:Hr; simpl.
  - destruct (JS.truthyOptNum (createTime r)) eqn:Ht; simpl.
    + fold all. rewrite Hr. simpl. split_and!; done.
    + rewrite lookup_insert_eq. simpl. split_and!; [done|done|done|].
      intros k' Hne. by rewrite lookup_insert_ne.
  - rewrite Hin. simpl. rewrite lookup_insert_eq. simpl.
    split_and!; [done|done|done|].
    intros k' Hne. by rewrite lookup_insert_ne.
Qed.

(** What [batchSetNodeTimes] leaves for a conversation whose key has a
    record or names no inherited property. *)
Lemma batchSetNodeTimes_record (now : Z) (k : string) (l : list NodeTime) (st : storage) :
  k ≠ "" → JS.inherited k = false ∨ is_Some (allOf st !! k) →
  let st' := after (batchSetNodeTimes now k l) st in
  (∀ id, nodesOf st' k !! id = match nodesOf st k !! id with
                               | Some t => Some t
                               | None => if JS.inherited id then None
                                         else firstTime now id l
                               end)
  ∧ (is_Some (allOf st !! k) →
     allOf st' !! k ≫= createTime = allOf st !! k ≫= createTime)
  ∧ (∀ k', k' ≠ k → allOf st' !! k' = allOf st !! k').
Proof.
  intros Hk Hrec st'. subst st'.
  destruct (ChatTimeMoreFacts.batchSetNodeTimes_run now k l st Hk Hrec)
    as (ns' & n & H1 & H2 & H3 & Hrun).
  unfold after. rewrite Hrun. simpl.
  destruct (Z.ltb_spec 0 n) as [Hn|Hn].
  - split_and!.
    + intros id. unfold nodesOf at 1. rewrite allOf_area. simpl.
      rewrite lookup_insert_eq. simpl. apply H1.
    + intros _. rewrite allOf_area. simpl. by rewrite lookup_insert_eq.
    + intros k' Hne. rewrite allOf_area. simpl. by rewrite lookup_insert_ne.
  - split_and!; [|done|done]. intros id. rewrite <- H1.
    assert (ns' = nodesOf st k) as ->; [|done].
    symmetry. apply map_subseteq_size_eq; [|lia].
    apply map_subseteq_spec. intros i x Hi. by rewrite H1, Hi.
Qed.

Lemma firstTime_fmap (now ts : Z) (id : string) (l : list string) :
  firstTime now id ((λ n, NodeTime_ (Some n) (Some ts)) <$> l)
  = if bool_decide (id ∈ l) then Some (orNow now (Some ts)) else None.
Proof.
  induction l as [|x l IH]; cbn [fmap list_fmap firstTime nodeId timestamp].
  - rewrite bool_decide_eq_false_2; [done|]. apply not_elem_of_nil.
  - destruct (decide (x = id)) as [->|Hne].
    + rewrite !bool_decide_eq_true_2; [done|by left|done].
    + rewrite (bool_decide_eq_false_2 (Some x = Some id)) by congruence.
      rewrite IH. destruct (decide (id ∈ l)) as [Hin|Hin].
      * rewrite !bool_decide_eq_true_2; [done|by right|done].
      * rewrite !bool_decide_eq_false_2; [done| |done].
        intros [?|?]%elem_of_cons; congruence.
Qed.

(** X20. For a conversation key that names no inherited property,
    [_recordNodes] on an enabled recorder gives each of the turns a time
    unless it has one or its id names an inherited property, and changes no
    time that is recorded.  For a new conversation a truthy creation time is
    kept and any other is replaced by the current time.  Other conversations
    are not touched. *)
Theorem recordNodes_records (k : string) (tCreate tRecord tBatch : Z)
    (newNodes : list string) (customTimestamp : option Z) (isNewConversation : bool)
    (st : storage) :
  k ≠ "" → JS.inherited k = false →
  let st' := after (_recordNodes true k tCreate tRecord tBatch newNodes
                      customTimestamp isNewConversation) st in
  let t := orNow tBatch (Some (orNow tRecord customTimestamp)) in
  (∀ id, nodesOf st' k !! id
         = match nodesOf st k !! id with
           | Some t0 => Some t0
           | None => if bool_decide (id ∈ newNodes) && negb (JS.inherited id)
                     then Some t else None
           end)
  ∧ (isNewConversation = true → newNodes ≠ [] →
     allOf st' !! k ≫= createTime
     = if JS.truthyOptNum (allOf st !! k ≫= createTime)
       then allOf st !! k ≫= createTime else Some tCreate)
  ∧ (∀ k', k' ≠ k → allOf st' !! k' = allOf st !! k').
Proof.
  intros Hk Hin st' t. subst st' t. unfold _recordNodes. cbn [negb orb].
  destruct (decide (newNodes = [])) as [->|Hl].
  { rewrite bool_decide_eq_true_2 by done. rewrite after_return.
    split_and!; [|done|done]. intros id. destruct (nodesOf st k !! id); [done|].
    rewrite bool_decide_eq_false_2; [done|]. apply not_elem_of_nil. }
  rewrite bool_decide_eq_false_2 by done.
  apply JS.truthyStr_true in Hk as Ht. rewrite Ht. cbn [negb].
  apply JS.truthyStr_true in Ht.
  rewrite after_then.
  rewrite (bool_decide_eq_false_2 (_ <$> newNodes = [])).
  2:{ intros H%fmap_nil_inv. done. }
  rewrite after_then, after_return.
  set (st1 := after (if isNewConversation then setCreateTime k tCreate;;; ret tt
                     else ret tt) st).
  destruct (batchSetNodeTimes_record tBatch k
              ((λ n, NodeTime_ (Some n) (Some (orNow tRecord customTimestamp))) <$> newNodes)
              st1 Hk (or_introl Hin)) as (Hb1 & Hb2 & Hb3).
  assert (Hst1 : nodesOf st1 k = nodesOf st k
                 ∧ (isNewConversation = true →
                    is_Some (allOf st1 !! k)
                    ∧ allOf st1 !! k ≫= createTime
                      = if JS.truthyOptNum (allOf st !! k ≫= createTime)
                        then allOf st !! k ≫= createTime else Some tCreate)
                 ∧ (∀ k', k' ≠ k → allOf st1 !! k' = allOf st !! k')).
  { subst st1. destruct isNewConversation.
    - rewrite after_then, after_return.
      destruct (setCreateTime_record k tCreate st Hk Hin) as (Hs1 & Hs2 & Hs3 & Hs4).
      split_and!; [done| |done]. by intros _.
    - rewrite after_return. split_and!; done. }
  destruct Hst1 as (Hn1 & Hc1 & Ho1).
  split_and!.
  - intros id. rewrite Hb1, Hn1. destruct (nodesOf st k !! id); [done|].
    rewrite firstTime_fmap. destruct (JS.inherited id).
    + by rewrite andb_false_r.
    + by rewrite andb_true_r.
  - intros Hnew _. destruct (Hc1 Hnew) as [Hsome Hct]. by rewrite Hb2.
  - intros k' Hne. by rewrite Hb3, Ho1.
Qed.

Lemma recordNodes_records_witness :
  let st' := after (_recordNodes true "chat.example/c/1" 900 901 902
                      ["gemini-0"; "gemini-1"] (Some 880) true) store1 in
  nodesOf st' "chat.example/c/1" !! "gemini-1"
  = match nodesOf store1 "chat.example/c/1" !! "gemini-1" with
    | Some t0 => Some t0
    | None => if bool_decide ("gemini-1" ∈ ["gemini-0"; "gemini-1"])
                 && negb (JS.inherited "gemini-1")
              then Some (orNow 902 (Some (orNow 901 (Some 880)))) else None
    end.
Proof.
  apply (recordNodes_records "chat.example/c/1" 900 901 902
           ["gemini-0"; "gemini-1"] (Some 880) true store1);
    [discriminate | reflexivity].
Defined.

End RecorderMoreFacts.
(** ** The array of stars *)

Module StarPinFacts.
Import StorageAdapter Migrations StarPinStorage.
Open Scope string_scope.
Open Scope list_scope.

Lemma withoutId_spec (id : string) (stars kept : list JsVal) :
  withoutId id stars = Some kept →
  someId id kept = Some false
  ∧ (∀ id', id' ≠ id → someId id' kept = someId id' stars)
  ∧ kept = filter (λ s, idOf s ≠ Some id) stars.
Proof.
  revert kept. induction stars as [|s stars IH]; intros kept; simpl.
  { intros [= <-]. done. }
  destruct (idOf s) as [i|] eqn:Hi; [|done].
  destruct (withoutId id stars) as [rest'|]; [|done].
  intros [= <-]. destruct (IH rest' eq_refl) as (H1 & H2 & H3).
  destruct (decide (i = id)) as [->|Hne].
  - rewrite bool_decide_eq_true_2 by done. split_and!; [done| |].
    + intros id' Hid'. rewrite H2 by done.
      by rewrite bool_decide_eq_false_2 by congruence.
    + rewrite filter_cons_False; [done|]. rewrite Hi. by intros H.
  - rewrite bool_decide_eq_false_2 by done. simpl. rewrite Hi. split_and!.
    + by rewrite bool_decide_eq_false_2.
    + intros id' Hid'. by rewrite H2.
    + rewrite filter_cons_True; [by rewrite H3|]. rewrite Hi. congruence.
Qed.

(** X21. A [removeStar] that returns [true] has written the array once;
    after it [hasStar] is [false] for the turn, and for every turn with
    another id it is what it was. *)
Theorem removeStar_then_hasStar (url nodeId : option JsVal) (st : starArea) :
  result (removeStar url nodeId) st = true →
  let st' := after (removeStar url nodeId) st in
  result (hasStar url nodeId) st' = false
  ∧ (∀ url' nodeId', _makeId url' nodeId' ≠ _makeId url nodeId →
                     result (hasStar url' nodeId') st' = result (hasStar url' nodeId') st)
  ∧ setCalls st' = S (setCalls st).
Proof.
  unfold removeStar, hasStar, getAllStars, result, after, bind, get, set, ret.
  destruct st as [o n]. cbn [stored setCalls fst snd].
  set (stars := match o with Some (JArr items) => items | _ => [] end).
  destruct (withoutId (_makeId url nodeId) stars) as [kept|] eqn:Hw;
    cbn [stored setCalls fst snd]; [|done].
  destruct (withoutId_spec _ _ _ Hw) as (H1 & H2 & _).
  intros _. split_and!; [by rewrite H1| |done].
  intros url' nodeId' Hne. by rewrite H2.
Qed.

Lemma removeStar_then_hasStar_witness :
  let st := Area (Some (JArr [JObj [("urlWithoutProtocol", JStr "chat.example/c/1");
                                    ("nodeId", JStr "a1")];
                              JObj [("urlWithoutProtocol", JStr "chat.example/c/1");
                                    ("index", JNum 2)]])) 0 in
  let st' := after (removeStar (Some (JStr "chat.example/c/1")) (Some (JNum 2))) st in
  result (hasStar (Some (JStr "chat.example/c/1")) (Some (JNum 2))) st' = false
  ∧ result (hasStar (Some (JStr "chat.example/c/1")) (Some (JStr "a1"))) st' = true.
Proof.
  intros st st'.
  destruct (removeStar_then_hasStar (Some (JStr "chat.example/c/1")) (Some (JNum 2)) st)
    as (H1 & H2 & _); [reflexivity|].
  split; [exact H1|]. subst st'. rewrite H2; [reflexivity|]. discriminate.
Defined.

(** A [removeStar] that returns [false], which it does when the array
    holds a [null], has written nothing. *)
Lemma removeStar_caught (url nodeId : option JsVal) (st : starArea) :
  result (removeStar url nodeId) st = false → after (removeStar url nodeId) st = st.
Proof.
  unfold removeStar, getAllStars, result, after, bind, get, set, ret.
  destruct st as [o n]. cbn [stored setCalls fst snd].
  by destruct (withoutId _ _).
Qed.

End StarPinFacts.
(** ** The poll and the time of the turn *)

Module PollFacts.
Import StorageAdapter ChatTimeStorageManager ChatTimeRecorder ChatTimeExamples
       RecorderExamples.
Open Scope string_scope.
Open Scope list_scope.
Open Scope Z_scope.

(** The poll calls [migrateNodeId] at most once, with an id that is not
    provisional, for the pending record it was started with or for one that
    other code has put in its place. *)
Lemma poll_store page key idx c (r : Recorder) :
  store (_pollForRealId page key idx c r) = store r
  ∨ ∃ p realId,
      (pendingRecord r = Some p ∨ ∃ i found, page i = Replaced p found)
      ∧ endsWith realId ("-" +:+ pretty idx) = false
      ∧ store (_pollForRealId page key idx c r)
        = after (migrateNodeId key (tempId p) realId) (store r).
Proof.
  funelim (_pollForRealId page key idx c r); try (by left).
  - destruct (endsWith nodeId ("-" +:+ pretty expectedIndex)) eqn:Hend; cbn [negb].
    + destruct H as [H|(p & realId & Hp & Hr & Hs)].
      * left. by rewrite H.
      * right. exists p, realId. split_and!; [|done|by rewrite Hs].
        destruct Hp as [Hp|Hp]; [left|by right]. by rewrite <- Hp.
    + unfold _migrateNodeId.
      destruct (negb (JS.truthyStr conversationKey)); [by left|].
      right. exists pending, nodeId. split_and!; [by left|done|done].
  - destruct (endsWith nodeId ("-" +:+ pretty expectedIndex)) eqn:Hend; cbn [negb].
    + destruct H as [H|(p & realId & Hp & Hr & Hs)].
      * left. by rewrite H.
      * right. exists p, realId. split_and!; [|done|by rewrite Hs].
        destruct Hp as [Hp|Hp]; [|by right]. right.
        cbn [setPending pendingRecord] in Hp. injection Hp as <-. eauto.
    + unfold _migrateNodeId.
      destruct (negb (JS.truthyStr conversationKey)); [by left|].
      right. exists pending', nodeId. split_and!; [right; eauto|done|done].
Qed.

Lemma substring_chars (n m : nat) (s : string) (c : ascii) :
  c ∈ String.list_ascii_of_string (String.substring n m s) →
  c ∈ String.list_ascii_of_string s.
Proof.
  revert n m. induction s as [|a s IH]; intros n m.
  - destruct n, m; simpl; intros H; by apply elem_of_nil in H.
  - destruct n as [|n].
    + destruct m as [|m]; simpl.
      * intros H. by apply elem_of_nil in H.
      * intros [->|H]%elem_of_cons; [by left|]. right. by eapply IH.
    + simpl. intros H. right. by eapply IH.
Qed.

(** An id that ends with [-index] names no inherited property. *)
Lemma provisional_not_inherited (nodeId suffix : string) :
  endsWith nodeId ("-" +:+ suffix) = true → JS.inherited nodeId = false.
Proof.
  unfold endsWith. intros [_ Heq%String.eqb_eq]%andb_true_iff.
  assert (Hdash : "-"%char ∈ String.list_ascii_of_string nodeId).
  { eapply substring_chars. rewrite Heq. by left. }
  unfold JS.inherited. apply bool_decide_eq_false_2. intros Hin.
  assert (Hall : Forall (λ name, "-"%char ∉ String.list_ascii_of_string name)
                        JS.ObjectPrototype).
  { apply (bool_decide_unpack
             (Forall (λ name, "-"%char ∉ String.list_ascii_of_string name)
                     JS.ObjectPrototype)).
    vm_compute. reflexivity. }
  rewrite Forall_forall in Hall. by apply (Hall nodeId Hin).
Qed.



(** When [_recordNewNodeTime] replaces the pending record while the poll for
    turn [0] runs, the poll moves the time of the later turn to the real id of
    turn [0]. *)
Example poll_disturbed :
  let page := λ i : nat, if (i <? 1)%nat then TurnId "gemini-0"
                         else Replaced (Pending 1 "gemini-1") (Some "gemini-abc123") in
  let st := Area (Some {[ "chat.example/c/1" :=
                            Rec (Some 100) (Some 100)
                                (Some (<[ "gemini-1" := 180 ]> {[ "gemini-0" := 100 ]})) ]}) 2 in
  let r' := _pollForRealId page "chat.example/c/1" 0 0
                           (Recorder_ (Some (Pending 0 "gemini-0")) st []) in
  nodeTime (store r') "chat.example/c/1" "gemini-0" = Some 100
  ∧ nodeTime (store r') "chat.example/c/1" "gemini-1" = None
  ∧ nodeTime (store r') "chat.example/c/1" "gemini-abc123" = Some 180.
Proof. vm_compute. done. Qed.

End PollFacts.
(** ** What removes time data *)

Module RemovalFacts.
Import StorageAdapter ChatTimeStorageManager NodeTimes ChatTimeExamples.
Import Migrations.
Open Scope string_scope.
Open Scope list_scope.
Open Scope Z_scope.

(** The poll removes no conversation, and touches the entries of one call
    of [migrateNodeId] at most. *)
Lemma poll_keeps page key idx c (r : ChatTimeRecorder.Recorder) :
  let st' := ChatTimeRecorder.store
               (ChatTimeRecorder._pollForRealId page key idx c r) in
  dom (allOf st') = dom (allOf (ChatTimeRecorder.store r))
  ∧ (st' = ChatTimeRecorder.store r
     ∨ ∃ tempId realId,
         st' = after (migrateNodeId key tempId realId) (ChatTimeRecorder.store r)
         ∧ ∀ k' id, k' ≠ key ∨ (id ≠ tempId ∧ id ≠ realId) →
                    nodeTime st' k' id = nodeTime (ChatTimeRecorder.store r) k' id).
Proof.
  intros st'. subst st'.
  destruct (PollFacts.poll_store page key idx c r)
    as [H|(p & realId & _ & _ & Hs)].
  - rewrite H. split; [done|by left].
  - rewrite Hs.
    destruct (ChatTimeFacts.migrateNodeId_keeps key (ChatTimeRecorder.tempId p) realId
                (ChatTimeRecorder.store r)) as [Hdom Hframe].
    split; [done|]. right. exists (ChatTimeRecorder.tempId p), realId. by split.
Qed.

(** After an import in overwrite mode the local area holds the backup and
    nothing else. *)
Lemma overwriteData_local (newData : gmap string JsVal) (b : Browser) :
  local (DataSyncTab.overwriteData newData b) = newData.
Proof.
  unfold DataSyncTab.overwriteData. cbn [local]. apply map_eq. intros k.
  destruct (newData !! k) as [v|] eqn:Hk.
  - apply MigrationMoreFacts.lookup_foldl_insert_in.
    + apply NoDup_fst_map_to_list.
    + by apply elem_of_map_to_list.
  - rewrite MigrationMoreFacts.lookup_foldl_insert_notin; [apply lookup_empty|].
    intros ([k' v'] & Heq & Hin)%list_elem_of_fmap. simpl in Heq. subst k'.
    apply elem_of_map_to_list in Hin. congruence.
Qed.


(** A load that finds time records in the synced area puts them in the
    place of the stored ones, and an import in overwrite mode of a backup
    without time records leaves none. *)
Example time_records_replaced :
  let b := Browser_ true
             {[ "chatTimes" := JObj [("chat.example/c/1", JObj [("lastVisit", JNum 100)]);
                                     ("chat.example/c/2", JObj [("lastVisit", JNum 200)])] ]}
             (Some {[ "chatTimes" := JObj [("chat.example/c/3", JObj [("lastVisit", JNum 50)])] ]})
             [] in
  local (LaterScript.load b) !! "chatTimes"
  = Some (JObj [("chat.example/c/3", JObj [("lastVisit", JNum 50)])])
  ∧ local (DataSyncTab.overwriteData {[ "theme" := JStr "dark" ]} b) !! "chatTimes" = None.
Proof. vm_compute. done. Qed.


End RemovalFacts.
